(* ===== verification/_CoqProject ===== *)
-Q . S2P
Prelude.v
Runtime.v
GameState.v
ValueTable.v
Learner.v
OffPolicy.v
OnPolicy.v
EpisodeRunner.v
Trace.v
Replay.v
Credit.v
Evaluation.v
Interactive.v
Main.v
