(* ===== verification/Prelude.v ===== *)
(** * A verified model of the Nim reinforcement-learning laboratory

    The program (src/) trains two tabular temporal-difference learners
    on the game of Nim by self-play, plays them against each other and
    lets a person play each of them at the console. This library models
    all of it in Rocq, file by file, and proves the properties that
    make each part correct.

    ** The program and the files that model it

    - src/nim.py, class [Nim]: a position (piles, seat to move, winner),
      the enumeration of legal actions and [move]. Modelled in
      GameState.v, Module [Nim]: the record [Nim.game], [Nim.init],
      [Nim.available_actions] (the two nested loops that add to a set),
      [Nim.other_player], [Nim.switch_player], [Nim.move] (the three
      checks in the order of the source, then the update).
    - the dictionary [self.q] of both learners: ValueTable.v, Module
      [QTable]: a [gmap] from (state, action or None) to rationals,
      [QTable.get] with default 0, [QTable.set], the update formula
      [QTable.td_update], the value [float('-inf')] as [QTable.NegInf],
      and the loop bodies of the two scans ([QTable.max],
      [QTable.scan_step]).
    - src/qlearning.py, class [QLearning]: OffPolicy.v, Module
      [QLearning], one definition per method ([get_q_value],
      [best_future_reward], [update_value], [update_model],
      [choose_action]).
    - src/sarsa.py, class [SARSA]: OnPolicy.v, Module [SARSA], likewise;
      its [update_model] calls its own [choose_action] and so draws
      random numbers.
    - src/engine.py, [run_game_episode] and [train]: EpisodeRunner.v,
      Module [Engine]: the dictionary [last], the loop body [Engine.ply]
      with the update at the end of the game for both seats and the
      delayed update for the seat about to move, the loop with fuel, and
      [Engine.train]. The runner calls its agents through the interface
      of Learner.v, as the source calls whatever object it is given.
    - src/engine.py, [play_ai_vs_ai]: Evaluation.v, Module
      [Evaluation]: the locals [wins] and [win_progress] as Python
      lists, the loop body [Evaluation.game_round] and the series
      [Evaluation.play_ai_vs_ai], whose value is the locals just before
      the call of [plot_performance].
    - src/engine.py, [play] and [get_valid_user_action]: Interactive.v,
      Module [Interactive]: the console as the list of lines still to
      be read, [Interactive.prompt] (the loop of the prompt, by
      recursion on the lines it reads), [Interactive.turn] (the body of
      the loop of [play]) and [Interactive.play], which returns the
      seat of the person and the finished game where the source prints
      the winner and returns nothing.
    - src/main.py: Main.v, Module [Main]: [Main.main], the two training
      runs, the evaluation and the two console games in order. Main.v
      also applies the theorems of the other files to the two classes
      on recorded runs.

    Three files hold no code of the program but what is proved of the
    runner:
    - Trace.v wraps an agent so that every call of [choose_action] and
      [update_model] is appended to a log kept beside the generator
      state ([Traced], [traced_agent]), states the order of the calls
      as a function of the actions played ([Spec.expected]) and proves
      that the runner follows it.
    - Replay.v makes the calls of a log again on an agent and a
      generator state ([replay]) and follows the estimates of the two
      opening actions of the game [1, 1] through training
      ([estimate], [distance]).
    - Credit.v states which entries the calls of a log write
      ([written], [keys]) and what the schedule of a played game says
      of each update ([credit_ok]), and derives what an episode and
      training from any position, [1, 3, 5, 7] included, do to the
      entries of the moves that end a game.

    ** How the parts interact

    Learner.v declares the class [Agent] (the methods [choose_action]
    and [update_model], the table and the learning rate) and the class
    [AgentLaws] (what the runner relies on: a legal action is returned
    wherever one exists, the greedy choice draws nothing, an update
    never raises, writes one entry and keeps the invariant of the
    table) and the class [TerminalUpdate] (what an update does when
    the game is over: one temporal-difference step towards the reward,
    without a draw). OffPolicy.v and OnPolicy.v give the instances for
    the two classes and prove the laws; EpisodeRunner.v, Trace.v,
    Replay.v, Evaluation.v and Interactive.v prove their theorems for
    every instance.

    Runtime.v holds what Python provides and the source only calls:
    - exceptions, as the type [result] of Prelude.v ([Ok] or [Raise]);
    - the module [random], as the class [RandomGen] of generator states
      with [random] (a rational in [0, 1)) and [randbelow], threaded
      explicitly, and [random_random], [choice] and [randint] on top of
      it; [tape_gen] is an instance that replays a list of draws;
    - the order in which [list(s)] lists a set, as the class [SetOrder]
      (any permutation of the elements); the theorems hold for every
      order;
    - list indexing with negative indices and [IndexError] ([getitem],
      [setitem]);
    - the monad [M] (generator state and exceptions) with the notation
      [let* x := m in k], [MF] for loops with fuel ([let+]), [on_gen]
      to run a computation in a state that carries more than the
      generator, the loops [while_loop] and [repeat_loop], and the
      predicates [returns] (a value, no exception) and [ends] (a value
      or an exception of a given kind) with their rules for [bind] and
      for loops.

    ** What the theorems show

    - GameState.v: [available_actions] is exactly the set of legal
      actions; [move] accepts exactly those and otherwise raises the
      error of the first failing check; a move takes objects off the
      table; the winner is recorded exactly when the last pile is
      emptied and is the mover; seats alternate; no game is longer than
      the number of objects.
    - ValueTable.v: lookup after store; the equivalence of tables that
      read alike, with [Proper] instances; the update formula is a
      convex combination and keeps estimates in [-1, 1]; the two scans
      return the first maximum of the list, whose value does not depend
      on the order of the list.
    - OffPolicy.v, OnPolicy.v: the value each update stores and the
      entries it leaves alone; the greedy choice is the first maximal
      legal action and draws nothing; the exploring choice follows the
      draw; the on-policy update equals the off-policy update when the
      draw does not explore and never has a greater target; what each
      class does on a position without legal action; the off-policy
      update does not depend on the order in which the set of actions
      is listed and respects the equivalence of learners.
    - EpisodeRunner.v: an episode raises nothing and ends with winner 0
      or 1 within 16 plies from [1, 3, 5, 7] (and within the number of
      objects from any position); evaluation does not change the
      agents; training keeps every estimate in [-1, 1].
    - Trace.v: the refinement of the runner to the schedule of delayed
      credit assignment (the choice of every ply, the update with
      reward 0 of the ply before it, and at the end the updates with +1
      and -1 in the order of the seats); every ply is finalised exactly
      once; evaluation calls [choose_action] with exploration on. That
      the logging agents change nothing of the run is a lemma
      ([run_game_episode_from_erase]) by which the theorems about logs
      become theorems about the agents themselves.
    - Replay.v: the agent and the generator state a training episode
      of self-play leaves are those the calls of its schedule return
      when made again in order, for either learner; in the game [1, 1]
      the opening action either learner plays moves towards -1 by
      the factor 1 - alpha in every episode, so the product of the
      distances of the two opening actions from -1 is (1 - alpha)^n
      after n episodes.
    - Credit.v: in a training episode from any position no entry is
      written twice; the estimate of the last ply moves towards +1 and
      that of the ply before it towards -1 by the factor 1 - alpha,
      whatever was updated before; through any number of episodes the
      estimate of an action that takes the last object never falls and
      stays at most 1.
    - Evaluation.v: the counters count the games each seat won and the
      histories are the cumulative counts, one entry per game, growing
      by 0 or 1, adding up to the number of games played.
    - Interactive.v: the prompt returns a legal action typed after
      rejected lines, asks again after text or an illegal action, and
      raises nothing but [EOFError]; a console game ends with a winner
      or at the end of the input and draws nothing for the agent.
    - Main.v: [main] returns with both learners bounded, 100 entries in
      each history and both console games won by a seat, or raises
      [EOFError]; nothing else can leave it.

    ** Bounds, fuel and what is not modelled

    - Python integers are [Z]; estimates, [alpha] and [epsilon] are exact
      rationals ([Q], compared with [==]). The rounding of Python floats
      is not modelled: with alpha = 1/2 and rewards in {-1, 0, 1} the
      program's arithmetic is exact only while the dyadic values fit the
      53-bit mantissa.
    - The loops of [run_game_episode] and [play] take fuel; [None]
      means the fuel ran out. 16, the number of objects of
      [1, 3, 5, 7], is enough because every ply removes an object
      ([Engine.run_game_episode_terminates]), and more fuel changes
      nothing of a run that returned
      ([Engine.run_game_episode_from_fuel_mono]). The loops over
      [range(n)] need none. The loop of the prompt reads a line in
      every pass and is a recursion on the lines.
    - The source fixes the initial position; [run_game_episode_from]
      and [train_from] take it as a parameter, and [run_game_episode]
      and [train] are their instances at [Nim()]. The theorems on the
      game [1, 1] of Replay.v are about a position the program does
      not start from; those of Credit.v hold from every position.
    - A line of input is an integer or text that [int] rejects; how
      [int] parses is not modelled. Everything printed is left out, and
      so is [plot_performance], which only draws.
    - Python mutates an agent in place; the model returns the updated
      agent as a value ([Engine.players] holds the two objects the
      runner was given). [choose_action] returns an action only, so by
      its type it cannot change the learner, as is the case for both
      classes. One object passed both as agent and as opponent
      (aliasing) is not modelled; the program never does it.

    ** Plan

    1. Game, table, both learners, episode runner and training (done).
    2. The order of updates within an episode as an abstract
       specification and the refinement theorem of the runner against
       it (done: Trace.v, Replay.v).
    3. Evaluation with its counters; interactive play over the lines of
       a console; the whole of [main] (done: Evaluation.v,
       Interactive.v, Main.v).
    4. The learners under the table equivalence and convergence on the
       position [1, 1] (done: the equivalence for [QLearning] in
       OffPolicy.v, the convergence for both learners in Replay.v).
    5. What an episode and training from any position teach about the
       moves that end a game (done: Credit.v).
    6. Left: the equivalence of learners for [SARSA], whose update
       draws random numbers, as a relation on runs with the same
       draws; episodes with two different agents in the replay;
       convergence of the estimates of moves further from the end of
       the game; floating-point rounding of the estimates.
*)

From Stdlib Require Import QArith Lqa.
From stdpp Require Import base numbers list gmap sets.

Set Warnings "-clear-no-such-hyp".
#[local] Open Scope Z_scope.

(** ** Tactics *)

(** Closed decidable propositions, by evaluation of their decision
    procedure. *)
Ltac by_decide := apply (bool_decide_unpack _); vm_compute; exact I.

(** ** Python exceptions as values *)

(** The three [Exception(...)] messages of [Nim.move] (src/nim.py),
    [TypeError] for unpacking [None] as a pair, [IndexError] for
    [random.choice] on an empty list or a list index out of range,
    [KeyError] for a dictionary read at a missing key, [ValueError] for
    [int(...)] on text that is no integer and [EOFError] for [input()]
    at the end of the input. *)
Inductive invalid_move : Type :=
| GameAlreadyWon
| InvalidPile
| InvalidCount.

Inductive exn : Type :=
| Exception (e : invalid_move)
| TypeError
| IndexError
| KeyError
| ValueError
| EOFError.

Inductive result (A : Type) : Type :=
| Ok (a : A)
| Raise (e : exn).
Arguments Ok {A} a.
Arguments Raise {A} e.

#[export] Instance invalid_move_eq_dec : EqDecision invalid_move.
Proof. solve_decision. Defined.
#[export] Instance exn_eq_dec : EqDecision exn.
Proof. intros x y. unfold Decision. decide equality. apply invalid_move_eq_dec. Defined.

Definition is_Ok {A} (r : result A) : Prop :=
  match r with Ok _ => True | Raise _ => False end.

#[export] Instance is_Ok_dec {A} (r : result A) : Decision (is_Ok r).
Proof. destruct r; [left | right]; simpl; tauto. Defined.

Lemma is_Ok_alt {A} (r : result A) : is_Ok r ↔ ∃ a, r = Ok a.
Proof. destruct r; simpl; naive_solver. Qed.

(** ** Integer lists: [enumerate], [range], [sum], [all(x == 0)] *)

(** Python's [range(lo, hi)]: the integers [lo <= x < hi], none when
    [hi <= lo]. *)
Definition range (lo hi : Z) : list Z := seqZ lo (hi - lo).

Definition enumerate {A} (l : list A) : list (Z * A) :=
  imap (λ i x, (Z.of_nat i, x)) l.

Definition sumZ (l : list Z) : Z := foldr Z.add 0 l.

Definition all_zero (l : list Z) : Prop := Forall (λ x, x = 0) l.

#[export] Instance all_zero_dec l : Decision (all_zero l).
Proof. unfold all_zero. apply _. Defined.

Lemma list_length_ind {A} (P : list A → Prop) :
  (∀ l, (∀ l', (length l' < length l)%nat → P l') → P l) → ∀ l, P l.
Proof.
  intros Hind l. remember (length l) as n eqn:Hn. revert l Hn.
  induction n as [n IH] using lt_wf_ind. intros l ->.
  apply Hind. intros l' Hl'. by eapply IH.
Qed.

Lemma elem_of_range lo hi x : x ∈ range lo hi ↔ lo ≤ x < hi.
Proof. unfold range. rewrite elem_of_seqZ. lia. Qed.

Lemma range_nil lo hi : hi ≤ lo → range lo hi = [].
Proof. intros. unfold range, seqZ. by replace (Z.to_nat (hi - lo)) with 0%nat by lia. Qed.

Lemma NoDup_range lo hi : NoDup (range lo hi).
Proof. apply NoDup_seqZ. Qed.

Lemma elem_of_enumerate {A} (l : list A) (i : Z) (x : A) :
  (i, x) ∈ enumerate l ↔ 0 ≤ i ∧ l !! Z.to_nat i = Some x.
Proof.
  unfold enumerate. rewrite elem_of_lookup_imap. split.
  - intros (n & y & [= -> ->] & Hn). rewrite Nat2Z.id. split; [lia | done].
  - intros [Hi Hx]. exists (Z.to_nat i), x. split; [f_equal; lia | done].
Qed.

Lemma enumerate_app {A} (l k : list A) :
  enumerate (l ++ k) =
  enumerate l ++ (prod_map (Z.add (Z.of_nat (length l))) id <$> enumerate k).
Proof.
  unfold enumerate. rewrite imap_app. f_equal.
  rewrite fmap_imap. apply imap_ext. intros i x _. simpl. f_equal. lia.
Qed.

Lemma sumZ_nil : sumZ [] = 0.
Proof. reflexivity. Qed.

Lemma sumZ_cons x l : sumZ (x :: l) = x + sumZ l.
Proof. reflexivity. Qed.

#[global] Opaque sumZ.

Lemma sumZ_app l k : sumZ (l ++ k) = sumZ l + sumZ k.
Proof.
  induction l as [|x l IH]; simpl; rewrite ?sumZ_nil, ?sumZ_cons; lia.
Qed.

Lemma sumZ_nonneg l : Forall (λ x, 0 ≤ x) l → 0 ≤ sumZ l.
Proof. induction 1; rewrite ?sumZ_nil, ?sumZ_cons; lia. Qed.

Lemma sumZ_lookup_le l i x :
  Forall (λ x, 0 ≤ x) l → l !! i = Some x → x ≤ sumZ l.
Proof.
  intros Hl. revert i. induction Hl as [|y l Hy Hl IH]; intros [|i] Hi;
    simplify_eq/=; rewrite sumZ_cons.
  - pose proof (sumZ_nonneg l Hl). lia.
  - specialize (IH i Hi). lia.
Qed.

Lemma sumZ_insert l i x y :
  l !! i = Some x → sumZ (<[i:=y]> l) = sumZ l - x + y.
Proof.
  revert i. induction l as [|z l IH]; intros [|i] ?; simplify_eq/=;
    rewrite !sumZ_cons; [lia|].
  rewrite (IH i) by done. lia.
Qed.

Lemma all_zero_sumZ l : all_zero l → sumZ l = 0.
Proof. induction 1; rewrite ?sumZ_nil, ?sumZ_cons; lia. Qed.

Lemma sumZ_all_zero l : Forall (λ x, 0 ≤ x) l → sumZ l = 0 → all_zero l.
Proof.
  induction 1 as [|x l Hx Hl IH]; rewrite ?sumZ_cons; intros Hs;
    [constructor|].
  pose proof (sumZ_nonneg l Hl). simpl in Hx.
  constructor; [lia | apply IH; lia].
Qed.

Lemma not_all_zero_pos l :
  Forall (λ x, 0 ≤ x) l → ¬ all_zero l → ∃ i x, l !! i = Some x ∧ 0 < x.
Proof.
  intros Hl Hz. apply not_Forall_Exists in Hz; [|apply _].
  apply Exists_exists in Hz as (x & [i Hi]%list_elem_of_lookup & Hx).
  exists i, x. split; [done|].
  eapply Forall_lookup_1 in Hl; [|done]. simpl in Hl, Hx. lia.
Qed.

(** ** Sets built by a loop that only adds *)

(** A loop [for b in l: acc = g(acc, b)] over a set accumulator whose
    body only adds the elements described by [P b]. *)
Lemma elem_of_foldl_grow `{Countable A} {B} (g : gset A → B → gset A)
    (P : B → A → Prop) :
  (∀ acc b x, x ∈ g acc b ↔ x ∈ acc ∨ P b x) →
  ∀ l acc x, x ∈ foldl g acc l ↔ x ∈ acc ∨ ∃ b, b ∈ l ∧ P b x.
Proof.
  intros Hg l. induction l as [|b l IH]; intros acc x; simpl.
  - set_solver.
  - rewrite IH, Hg. set_solver.
Qed.

(** ** Rationals *)

#[export] Instance Qlt_decision (x y : Q) : Decision (x < y)%Q.
Proof. unfold Qlt. apply _. Defined.

#[export] Instance Qle_decision (x y : Q) : Decision (x <= y)%Q.
Proof. unfold Qle. apply _. Defined.

#[export] Instance Qeq_decision (x y : Q) : Decision (x == y)%Q.
Proof. unfold Qeq. apply _. Defined.
