(* ===== verification/Runtime.v ===== *)
(** Runtime: what the Python runtime gives the program and the source
    does not define: the module [random] (an explicit generator state
    threaded through every call that draws), the iteration order of a
    [set] turned into a [list], list indexing, and exceptions that
    unwind. The state-and-exception monad [M] carries the first and the
    last; loops and the rules to reason about them are here too. *)

From Stdlib Require Import QArith Lqa.
From stdpp Require Import base numbers list gmap sets.
From S2P Require Import Prelude.

Set Warnings "-clear-no-such-hyp".

(** ** The order in which a set is listed *)

(** [list(s)] lists the elements of the set [s] once each, in an order
    the program does not control. *)
Class SetOrder (A : Type) `{Countable A} : Type := {
  set_to_list : gset A → list A;
  set_to_list_perm X : set_to_list X ≡ₚ elements X
}.

(** The order of [elements], and its reverse. *)
Definition elements_order A `{Countable A} : SetOrder A :=
  {| set_to_list := elements; set_to_list_perm X := reflexivity _ |}.

Definition reverse_order A `{Countable A} : SetOrder A :=
  {| set_to_list X := reverse (elements X);
     set_to_list_perm X := reverse_Permutation _ |}.

(** ** Random numbers *)

(** A generator state [G] with the two draws the program makes:
    [random.random()], a rational in [0, 1), and the index below [n]
    that [random.choice] draws for a sequence of length [n > 0]. *)
Class RandomGen (G : Type) : Type := {
  random : G → Q * G;
  randbelow : nat → G → nat * G;
  random_unit g : (0 <= (random g).1 < 1)%Q;
  randbelow_lt n g : (0 < n)%nat → ((randbelow n g).1 < n)%nat
}.

(** ** The monad of the program: generator state and exceptions *)

Definition M (G A : Type) : Type := G → result (A * G).

Definition ret {G A} (a : A) : M G A := λ g, Ok (a, g).

Definition bind {G A B} (m : M G A) (k : A → M G B) : M G B :=
  λ g, match m g with
       | Ok (a, g') => k a g'
       | Raise e => Raise e
       end.

Definition raise {G A} (e : exn) : M G A := λ _, Raise e.

Definition lift {G A} (r : result A) : M G A :=
  λ g, match r with
       | Ok a => Ok (a, g)
       | Raise e => Raise e
       end.

(** A computation on the generator run in a state that carries more
    than the generator: a log of calls, the lines of the console. *)
Definition on_gen {G S A} (m : M G A) : M (G * S) A :=
  λ t, match m t.1 with
       | Ok (a, g') => Ok (a, (g', t.2))
       | Raise e => Raise e
       end.

(** Loops need fuel: [None] is a run that used it up, which is no
    behaviour of the program. *)
Definition MF (G A : Type) : Type := G → option (result (A * G)).

Definition retF {G A} (a : A) : MF G A := λ g, Some (Ok (a, g)).

Definition bindF {G A B} (m : MF G A) (k : A → MF G B) : MF G B :=
  λ g, match m g with
       | Some (Ok (a, g')) => k a g'
       | Some (Raise e) => Some (Raise e)
       | None => None
       end.

Definition liftF {G A} (m : M G A) : MF G A := λ g, Some (m g).

Definition on_genF {G S A} (m : MF G A) : MF (G * S) A :=
  λ t, match m t.1 with
       | Some (Ok (a, g')) => Some (Ok (a, (g', t.2)))
       | Some (Raise e) => Some (Raise e)
       | None => None
       end.

(** [while cond(s): s = body(s)], at most [fuel] iterations. *)
Fixpoint while_loop {G S} (fuel : nat) (cond : S → bool) (body : S → M G S)
    (s : S) : MF G S :=
  if cond s then
    match fuel with
    | O => λ _, None
    | Datatypes.S fuel => bindF (liftF (body s)) (while_loop fuel cond body)
    end
  else retF s.

(** [for _ in range(n): s = body(s)] *)
Fixpoint repeat_loop {G S} (n : nat) (body : S → MF G S) (s : S) : MF G S :=
  match n with
  | O => retF s
  | Datatypes.S n => bindF (body s) (repeat_loop n body)
  end.

(** [returns m g P]: from generator state [g] the computation [m]
    raises nothing and its value satisfies [P]. *)
Definition returns {G A} (m : M G A) (g : G) (P : A → Prop) : Prop :=
  ∃ a g', m g = Ok (a, g') ∧ P a.

Definition returnsF {G A} (m : MF G A) (g : G) (P : A → Prop) : Prop :=
  ∃ a g', m g = Some (Ok (a, g')) ∧ P a.

(** [ends m g P E]: from [g] the computation returns a value that
    satisfies [P] or raises an exception that satisfies [E]. *)
Definition ends {G A} (m : M G A) (g : G) (P : A → Prop) (E : exn → Prop)
    : Prop :=
  match m g with
  | Ok (a, _) => P a
  | Raise e => E e
  end.

Definition endsF {G A} (m : MF G A) (g : G) (P : A → Prop) (E : exn → Prop)
    : Prop :=
  match m g with
  | Some (Ok (a, _)) => P a
  | Some (Raise e) => E e
  | None => False
  end.

Declare Scope py_scope.
Delimit Scope py_scope with py.
Notation "'let*' x := m 'in' k" := (bind m (λ x, k))
  (at level 10, x name, m at level 200, k at level 200, only parsing)
  : py_scope.
Notation "'let*' ' p := m 'in' k" := (bind m (λ p, k))
  (at level 10, p pattern, m at level 200, k at level 200, only parsing)
  : py_scope.
Notation "'let+' x := m 'in' k" := (bindF m (λ x, k))
  (at level 10, x name, m at level 200, k at level 200, only parsing)
  : py_scope.
Notation "'let+' ' p := m 'in' k" := (bindF m (λ p, k))
  (at level 10, p pattern, m at level 200, k at level 200, only parsing)
  : py_scope.
#[local] Open Scope py_scope.

(** [random.random()] *)
Definition random_random `{RandomGen G} : M G Q := λ g, Ok (random g).

(** [random.choice(seq)]: [IndexError] on an empty sequence, otherwise
    the element at the index drawn below the length. *)
Definition choice `{RandomGen G} {A} (seq : list A) : M G A :=
  λ g, match seq with
       | [] => Raise IndexError
       | x :: _ => let '(k, g') := randbelow (length seq) g in
                   Ok (nth k seq x, g')
       end.

(** [random.randint(a, b)]: [a] plus a draw below [b - a + 1];
    [ValueError] on an empty range. *)
Definition randint `{RandomGen G} (a b : Z) : M G Z :=
  λ g, if decide (b < a)%Z then Raise ValueError
       else let '(k, g') := randbelow (Z.to_nat (b - a + 1)) g in
            Ok ((a + Z.of_nat k)%Z, g').

(** ** Lists indexed the way Python does *)

(** The position an index denotes: counted from the front, or from the
    back when it is negative; [IndexError] outside the list. *)
Definition index_of {A} (l : list A) (i : Z) : result nat :=
  if decide (0 ≤ i < Z.of_nat (length l))%Z then Ok (Z.to_nat i)
  else if decide (- Z.of_nat (length l) ≤ i < 0)%Z
       then Ok (Z.to_nat (Z.of_nat (length l) + i))
       else Raise IndexError.

(** [l[i]] *)
Definition getitem {A} (l : list A) (i : Z) : result A :=
  match index_of l i with
  | Ok k => match l !! k with Some x => Ok x | None => Raise IndexError end
  | Raise e => Raise e
  end.

(** [l[i] = x] *)
Definition setitem {A} (l : list A) (i : Z) (x : A) : result (list A) :=
  match index_of l i with
  | Ok k => Ok (<[k := x]> l)
  | Raise e => Raise e
  end.

(** ** A generator that replays a tape *)

(** The tape lists raw draws; [random] reads the next one as thousandths
    and [randbelow n] reduces it modulo [n]. An exhausted tape draws 0. *)
Definition tape : Type := list nat.

Definition tape_next (t : tape) : nat * tape :=
  match t with
  | [] => (0%nat, [])
  | d :: t => (d, t)
  end.

Definition tape_random (t : tape) : Q * tape :=
  let '(d, t') := tape_next t in
  (Z.of_nat (d mod 1000) # 1000, t').

Definition tape_randbelow (n : nat) (t : tape) : nat * tape :=
  let '(d, t') := tape_next t in ((d mod n)%nat, t').

Lemma tape_random_unit t : (0 <= (tape_random t).1 < 1)%Q.
Proof.
  unfold tape_random. destruct (tape_next t) as [d t']. simpl.
  pose proof (Nat.mod_upper_bound d 1000). unfold Qle, Qlt. simpl. lia.
Qed.

Lemma tape_randbelow_lt n t : (0 < n)%nat → ((tape_randbelow n t).1 < n)%nat.
Proof.
  intros. unfold tape_randbelow. destruct (tape_next t) as [d t']. simpl.
  apply Nat.mod_upper_bound. lia.
Qed.

#[export] Instance tape_gen : RandomGen tape :=
  {| random := tape_random; randbelow := tape_randbelow;
     random_unit := tape_random_unit; randbelow_lt := tape_randbelow_lt |}.

(** ** Laws *)

Section set_order.
Context `{SetOrder A}.
Implicit Types (X : gset A) (x : A).

Lemma elem_of_set_to_list X x : x ∈ set_to_list X ↔ x ∈ X.
Proof. by rewrite set_to_list_perm, elem_of_elements. Qed.

Lemma NoDup_set_to_list X : NoDup (set_to_list X).
Proof. rewrite set_to_list_perm. apply NoDup_elements. Qed.

Lemma set_to_list_nil X : set_to_list X = [] ↔ X = ∅.
Proof.
  split; intros Hx.
  - apply set_eq. intros x. rewrite <-elem_of_set_to_list, Hx. set_solver.
  - apply Permutation_nil_r. by rewrite set_to_list_perm, Hx, elements_empty.
Qed.

End set_order.

(** Two orders list the same set as permutations of each other. *)
Lemma set_to_list_orders `{Countable A} (O1 O2 : SetOrder A) (X : gset A) :
  @set_to_list A _ _ O1 X ≡ₚ @set_to_list A _ _ O2 X.
Proof. by rewrite !set_to_list_perm. Qed.

Section monad.
Context {G : Type}.
Implicit Types (g : G).

Lemma bind_ret_l {A B} (a : A) (k : A → M G B) g : bind (ret a) k g = k a g.
Proof. done. Qed.

Lemma bind_Ok {A B} (m : M G A) (k : A → M G B) g a g' :
  m g = Ok (a, g') → bind m k g = k a g'.
Proof. unfold bind. by intros ->. Qed.

Lemma bind_Raise {A B} (m : M G A) (k : A → M G B) g e :
  m g = Raise e → bind m k g = Raise e.
Proof. unfold bind. by intros ->. Qed.

Lemma bind_Ok_inv {A B} (m : M G A) (k : A → M G B) g b g2 :
  bind m k g = Ok (b, g2) → ∃ a g1, m g = Ok (a, g1) ∧ k a g1 = Ok (b, g2).
Proof. unfold bind. destruct (m g) as [[a g1]|]; naive_solver. Qed.

End monad.

(** Invert an equation [(let* x := m in k) g = Ok _] of the context. *)
Ltac inv_bind H :=
  let a := fresh "a" in let t := fresh "t" in let H1 := fresh H in
  apply bind_Ok_inv in H as (a & t & H1 & H).

Section monad_rules.
Context {G : Type}.
Implicit Types (g : G).

Lemma on_gen_Ok_inv {S A} (m : M G A) (t : G * S) a t' :
  on_gen m t = Ok (a, t') → m t.1 = Ok (a, t'.1) ∧ t'.2 = t.2.
Proof. unfold on_gen. destruct (m t.1) as [[a1 g1]|]; naive_solver. Qed.

Lemma on_gen_Ok {S A} (m : M G A) g (s : S) a g' :
  m g = Ok (a, g') → on_gen m (g, s) = Ok (a, (g', s)).
Proof. unfold on_gen. simpl. by intros ->. Qed.

(** *** Composition of computations that return *)

Lemma returns_ret {A} (a : A) g (P : A → Prop) : P a → returns (ret a) g P.
Proof. intros. by exists a, g. Qed.

Lemma returns_bind {A B} (m : M G A) (k : A → M G B) g
    (Q : A → Prop) (P : B → Prop) :
  returns m g Q → (∀ a g', Q a → returns (k a) g' P) → returns (bind m k) g P.
Proof.
  intros (a & g' & Hm & Ha) Hk. destruct (Hk a g' Ha) as (b & g2 & Hb & ?).
  exists b, g2. by rewrite (bind_Ok _ _ _ _ _ Hm).
Qed.

Lemma returns_mono {A} (m : M G A) g (P Q : A → Prop) :
  returns m g P → (∀ a, P a → Q a) → returns m g Q.
Proof. intros (a & g' & ? & ?) HPQ. exists a, g'. auto. Qed.

Lemma returns_lift {A} (r : result A) g (P : A → Prop) a :
  r = Ok a → P a → returns (lift r) g P.
Proof. intros -> ?. by exists a, g. Qed.

(** *** Composition of computations that return or raise *)

Lemma ends_ret {A} (a : A) g (P : A → Prop) E : P a → ends (ret a) g P E.
Proof. done. Qed.

Lemma ends_bind {A B} (m : M G A) (k : A → M G B) g
    (Q : A → Prop) (P : B → Prop) E :
  ends m g Q E → (∀ a g', Q a → ends (k a) g' P E) → ends (bind m k) g P E.
Proof.
  unfold ends, bind. intros Hm Hk. destruct (m g) as [[a g']|e]; [|done].
  by apply Hk.
Qed.

Lemma ends_returns {A} (m : M G A) g (P : A → Prop) E :
  returns m g P → ends m g P E.
Proof. intros (a & g' & Hm & Ha). unfold ends. by rewrite Hm. Qed.

Lemma ends_on_gen {S A} (m : M G A) (t : G * S) (P : A → Prop) E :
  ends m t.1 P E → ends (on_gen m) t P E.
Proof. unfold ends, on_gen. by destruct (m t.1) as [[a g']|e]. Qed.

Lemma endsF_ret {A} (a : A) g (P : A → Prop) E : P a → endsF (retF a) g P E.
Proof. done. Qed.

Lemma endsF_liftF {A} (m : M G A) g (P : A → Prop) E :
  ends m g P E → endsF (liftF m) g P E.
Proof. done. Qed.

Lemma endsF_bind {A B} (m : MF G A) (k : A → MF G B) g
    (Q : A → Prop) (P : B → Prop) E :
  endsF m g Q E → (∀ a g', Q a → endsF (k a) g' P E) →
  endsF (bindF m k) g P E.
Proof.
  unfold endsF, bindF. intros Hm Hk. destruct (m g) as [[[a g']|e]|]; [|done..].
  by apply Hk.
Qed.

Lemma endsF_on_genF {S A} (m : MF G A) (t : G * S) (P : A → Prop) E :
  returnsF m t.1 P → endsF (on_genF m) t P E.
Proof. intros (a & g' & Hm & Ha). unfold endsF, on_genF. by rewrite Hm. Qed.

Lemma endsF_mono {A} (m : MF G A) g (P Q : A → Prop) E :
  endsF m g P E → (∀ a, P a → Q a) → endsF m g Q E.
Proof. unfold endsF. destruct (m g) as [[[a g']|e]|]; auto. Qed.

Lemma returnsF_ret {A} (a : A) g (P : A → Prop) : P a → returnsF (retF a) g P.
Proof. intros. by exists a, g. Qed.

Lemma returnsF_bind {A B} (m : MF G A) (k : A → MF G B) g
    (Q : A → Prop) (P : B → Prop) :
  returnsF m g Q → (∀ a g', Q a → returnsF (k a) g' P) →
  returnsF (bindF m k) g P.
Proof.
  intros (a & g' & Hm & Ha) Hk. destruct (Hk a g' Ha) as (b & g2 & Hb & ?).
  exists b, g2. unfold bindF. by rewrite Hm.
Qed.

Lemma returnsF_mono {A} (m : MF G A) g (P Q : A → Prop) :
  returnsF m g P → (∀ a, P a → Q a) → returnsF m g Q.
Proof. intros (a & g' & ? & ?) HPQ. exists a, g'. auto. Qed.

(** *** Loops *)

Lemma bindF_Ok {A B} (m : MF G A) (k : A → MF G B) g a g' :
  m g = Some (Ok (a, g')) → bindF m k g = k a g'.
Proof. unfold bindF. by intros ->. Qed.

Lemma bindF_Ok_inv {A B} (m : MF G A) (k : A → MF G B) g b g2 :
  bindF m k g = Some (Ok (b, g2)) →
  ∃ a g1, m g = Some (Ok (a, g1)) ∧ k a g1 = Some (Ok (b, g2)).
Proof. unfold bindF. destruct (m g) as [[[a g1]|]|]; naive_solver. Qed.

Section while_loop.
Context {S : Type} (cond : S → bool) (body : S → M G S).

Lemma while_loop_done fuel s g :
  cond s = false → while_loop fuel cond body s g = Some (Ok (s, g)).
Proof. intros Hc. destruct fuel; simpl; by rewrite Hc. Qed.

Lemma while_loop_step fuel s g s' g' :
  cond s = true → body s g = Ok (s', g') →
  while_loop (Datatypes.S fuel) cond body s g = while_loop fuel cond body s' g'.
Proof. intros Hc Hb. simpl. rewrite Hc. unfold bindF, liftF. by rewrite Hb. Qed.

Lemma while_loop_raise fuel s g e :
  cond s = true → body s g = Raise e →
  while_loop (Datatypes.S fuel) cond body s g = Some (Raise e).
Proof. intros Hc Hb. simpl. rewrite Hc. unfold bindF, liftF. by rewrite Hb. Qed.

(** Total correctness: an invariant the body keeps while it never
    raises, and a measure it decreases, give a final state once the fuel
    covers the measure. *)
Lemma while_loop_total (I : S → Prop) (μ : S → nat) :
  (∀ s g, I s → cond s = true →
     returns (body s) g (λ s', I s' ∧ (μ s' < μ s)%nat)) →
  ∀ fuel s g, I s → (μ s ≤ fuel)%nat →
    returnsF (while_loop fuel cond body s) g (λ s', I s' ∧ cond s' = false).
Proof.
  intros Hbody fuel. induction fuel as [|fuel IH]; intros s g Hs Hfuel.
  - destruct (cond s) eqn:Hc.
    + destruct (Hbody s g Hs Hc) as (? & ? & _ & _ & ?). lia.
    + exists s, g. by rewrite while_loop_done.
  - destruct (cond s) eqn:Hc.
    + destruct (Hbody s g Hs Hc) as (s1 & g1 & Hb & Hs1 & Hμ).
      unfold returnsF. rewrite (while_loop_step _ _ _ _ _ Hc Hb).
      apply IH; [done | lia].
    + exists s, g. by rewrite while_loop_done.
Qed.

(** Partial correctness: whatever the loop returns satisfies the
    invariant and falsifies the condition. *)
Lemma while_loop_inv (I : S → G → Prop) :
  (∀ s g s' g', I s g → cond s = true → body s g = Ok (s', g') → I s' g') →
  ∀ fuel s g s' g', I s g →
    while_loop fuel cond body s g = Some (Ok (s', g')) →
    I s' g' ∧ cond s' = false.
Proof.
  intros Hbody fuel. induction fuel as [|fuel IH]; intros s g s' g' Hs Hw;
    destruct (cond s) eqn:Hc.
  - simpl in Hw. by rewrite Hc in Hw.
  - rewrite while_loop_done in Hw by done. by simplify_eq.
  - destruct (body s g) as [[s1 g1]|e] eqn:Hb.
    + rewrite (while_loop_step _ _ _ _ _ Hc Hb) in Hw. eauto.
    + by rewrite (while_loop_raise _ _ _ _ Hc Hb) in Hw.
  - rewrite while_loop_done in Hw by done. by simplify_eq.
Qed.

(** The same when the body may raise: the loop ends with a final
    state or with an exception of the body. The measure is positive
    while the loop runs, so that the fuel covers a body that raises. *)
Lemma while_loop_ends (I : S → Prop) (μ : S → nat) (E : exn → Prop) :
  (∀ s, I s → cond s = true → (0 < μ s)%nat) →
  (∀ s g, I s → cond s = true →
     ends (body s) g (λ s', I s' ∧ (μ s' < μ s)%nat) E) →
  ∀ fuel s g, I s → (μ s ≤ fuel)%nat →
    endsF (while_loop fuel cond body s) g (λ s', I s' ∧ cond s' = false) E.
Proof.
  intros Hpos Hbody fuel. unfold endsF.
  induction fuel as [|fuel IH]; intros s g Hs Hfuel;
    (destruct (cond s) eqn:Hc; [|by rewrite while_loop_done]);
    [specialize (Hpos s Hs Hc); lia|].
  specialize (Hbody s g Hs Hc). unfold ends in Hbody.
  destruct (body s g) as [[s1 g1]|e] eqn:Hb.
  - rewrite (while_loop_step _ _ _ _ _ Hc Hb). apply IH; [tauto|lia].
  - by rewrite (while_loop_raise _ _ _ _ Hc Hb).
Qed.

(** More fuel does not change a result. *)
Lemma while_loop_fuel_mono fuel fuel' s g r :
  while_loop fuel cond body s g = Some r → (fuel ≤ fuel')%nat →
  while_loop fuel' cond body s g = Some r.
Proof.
  revert fuel' s g. induction fuel as [|fuel IH]; intros fuel' s g Hw Hf;
    destruct (cond s) eqn:Hc.
  - simpl in Hw. by rewrite Hc in Hw.
  - by rewrite while_loop_done in Hw |- * by done.
  - destruct fuel' as [|fuel']; [lia|].
    destruct (body s g) as [[s1 g1]|e] eqn:Hb.
    + rewrite (while_loop_step fuel _ _ _ _ Hc Hb) in Hw.
      rewrite (while_loop_step fuel' _ _ _ _ Hc Hb). apply IH; [done|lia].
    + rewrite (while_loop_raise fuel _ _ _ Hc Hb) in Hw.
      by rewrite (while_loop_raise fuel' _ _ _ Hc Hb).
  - by rewrite while_loop_done in Hw |- * by done.
Qed.

End while_loop.

Lemma repeat_loop_total {S} (I : S → Prop) (body : S → MF G S) :
  (∀ s g, I s → returnsF (body s) g I) →
  ∀ n s g, I s → returnsF (repeat_loop n body s) g I.
Proof.
  intros Hbody n. induction n as [|n IH]; intros s g Hs; [by exists s, g|].
  simpl. eapply returnsF_bind; [by apply Hbody | auto].
Qed.

(** What every pass keeps holds of what the loop returns. *)
Lemma repeat_loop_inv {S} (I : S → Prop) (body : S → MF G S) :
  (∀ s g s' g', I s → body s g = Some (Ok (s', g')) → I s') →
  ∀ n s g s' g', I s → repeat_loop n body s g = Some (Ok (s', g')) → I s'.
Proof.
  intros Hbody n. induction n as [|n IH]; intros s g s' g' Hs Hloop.
  - by injection Hloop as <- _.
  - simpl in Hloop. apply bindF_Ok_inv in Hloop as (s1 & g1 & Hb & Hloop).
    eauto.
Qed.

Context `{RandomGen G}.

Lemma randint_range (a b : Z) g :
  (a ≤ b)%Z → ∃ x g', randint a b g = Ok (x, g') ∧ (a ≤ x ≤ b)%Z.
Proof.
  intros Hab. unfold randint. rewrite decide_False by lia.
  pose proof (randbelow_lt (Z.to_nat (b - a + 1)) g) as Hk.
  destruct (randbelow _ g) as [k g']. eexists _, _. split; [done|].
  simpl in Hk. lia.
Qed.

Lemma random_random_Ok g :
  random_random g = Ok ((random g).1, (random g).2).
Proof. unfold random_random. by destruct (random g). Qed.

Lemma choice_nil {A} g : choice (A:=A) [] g = Raise IndexError.
Proof. done. Qed.

Lemma choice_elem_of {A} (seq : list A) g :
  seq ≠ [] → ∃ x g', choice seq g = Ok (x, g') ∧ x ∈ seq.
Proof.
  destruct seq as [|x seq]; [done|]. intros _. unfold choice.
  pose proof (randbelow_lt (length (x :: seq)) g) as Hk.
  destruct (randbelow _ g) as [k g']. eexists _, _. split; [done|].
  apply list_elem_of_In, nth_In, Hk. simpl. lia.
Qed.

End monad_rules.
