(* ===== verification/GameState.v ===== *)
(** GameState: the Nim position of src/nim.py (class [Nim]): the record
    of piles, seat to move and winner, the enumeration of legal actions,
    and [move] with its three checks, together with the invariants that
    every sequence of moves preserves. *)

From stdpp Require Import base numbers list gmap sets.
From S2P Require Import Prelude.

Set Warnings "-clear-no-such-hyp".
#[local] Open Scope Z_scope.

(** An action [(i, j)]: remove [j] objects from pile [i]. *)
Definition action : Type := Z * Z.

Module Nim.

(** The three attributes [__init__] sets. *)
Record game : Type := Game {
  piles : list Z;
  player : Z;
  winner : option Z
}.

Definition default_initial : list Z := [1; 3; 5; 7].

Definition init (initial : list Z) : game :=
  {| piles := initial; player := 0; winner := None |}.

(** [for i, pile in enumerate(piles): for j in range(1, pile + 1):
    actions.add((i, j))], on a set that starts empty. *)
Definition available_actions (piles : list Z) : gset action :=
  foldl (λ actions '(i, pile),
           foldl (λ actions j, {[ (i, j) ]} ∪ actions) actions
                 (range 1 (pile + 1)))
        ∅ (enumerate piles).

Definition other_player (player : Z) : Z :=
  if decide (player = 1) then 0 else 1.

Definition switch_player (g : game) : game :=
  {| piles := piles g; player := other_player (player g);
     winner := winner g |}.

(** [move]: unpack the action, the three checks in the order of the
    source, then the update of the pile and of winner or player. An
    action that is [None] fails at the unpacking. *)
Definition move (g : game) (a : option action) : result game :=
  match a with
  | None => Raise TypeError
  | Some (pile, count) =>
    if decide (winner g ≠ None) then Raise (Exception GameAlreadyWon)
    else if decide (pile < 0 ∨ Z.of_nat (length (piles g)) ≤ pile)
    then Raise (Exception InvalidPile)
    else if decide (count < 1 ∨ piles g !!! Z.to_nat pile < count)
    then Raise (Exception InvalidCount)
    else
      let piles' :=
        <[Z.to_nat pile := piles g !!! Z.to_nat pile - count]> (piles g) in
      if decide (all_zero piles')
      then Ok {| piles := piles'; player := player g;
                 winner := Some (player g) |}
      else Ok (switch_player
                 {| piles := piles'; player := player g;
                    winner := winner g |})
  end.

#[global] Arguments move : simpl never.

(** ** Specification predicates *)

(** The data model's legal action: a pile index in range and a count
    between 1 and the pile's size. *)
Definition legal (ps : list Z) (a : action) : Prop :=
  0 ≤ a.1 < Z.of_nat (length ps) ∧ 1 ≤ a.2 ≤ ps !!! Z.to_nat a.1.

#[export] Instance legal_dec ps a : Decision (legal ps a).
Proof. unfold legal. apply _. Defined.

(** Well-formed games: no negative pile, a seat that is 0 or 1, a
    winner that is a seat. *)
Definition wf (g : game) : Prop :=
  Forall (λ x, 0 ≤ x) (piles g) ∧
  (player g = 0 ∨ player g = 1) ∧
  from_option (λ w, w = 0 ∨ w = 1) True (winner g).

#[export] Instance wf_dec g : Decision (wf g).
Proof. unfold wf. destruct (winner g); apply _. Defined.

(** The terminal invariant: a winner is recorded exactly when every
    pile is empty. *)
Definition terminal_inv (g : game) : Prop :=
  is_Some (winner g) ↔ all_zero (piles g).

(** What remains to be taken: the measure every move decreases. *)
Definition remaining (g : game) : Z := sumZ (piles g).

(** Play as a step relation: the positions a game passes through. *)
Inductive reachable (g0 : game) : game → Prop :=
| reachable_refl : reachable g0 g0
| reachable_move g a g' :
    reachable g0 g → move g a = Ok g' → reachable g0 g'.

(** A sequence of moves played in order, stopping at the first that
    [move] refuses. *)
Fixpoint moves (g : game) (l : list action) : result game :=
  match l with
  | [] => Ok g
  | a :: l => match move g (Some a) with
              | Ok g' => moves g' l
              | Raise e => Raise e
              end
  end.

(** ** The legal actions *)

Lemma elem_of_available_actions_enum ps x :
  x ∈ available_actions ps ↔
  ∃ ip, ip ∈ enumerate ps ∧ ∃ j, j ∈ range 1 (ip.2 + 1) ∧ x = (ip.1, j).
Proof.
  unfold available_actions.
  etrans; [apply (elem_of_foldl_grow _
    (λ ip x, ∃ j, j ∈ range 1 (ip.2 + 1) ∧ x = (ip.1, j)))|set_solver].
  intros acc [i pile] y. simpl.
  etrans; [apply (elem_of_foldl_grow _ (λ j x, x = (i, j)))|]; set_solver.
Qed.

Lemma elem_of_available_actions ps i j :
  (i, j) ∈ available_actions ps ↔
  0 ≤ i ∧ ∃ p, ps !! Z.to_nat i = Some p ∧ 1 ≤ j ≤ p.
Proof.
  rewrite elem_of_available_actions_enum. split.
  - intros ([i' p] & Hin & j' & Hj & [= -> ->]). simpl in *.
    apply elem_of_enumerate in Hin as [? ?]. apply elem_of_range in Hj.
    split; [done|]. exists p. split; [done | lia].
  - intros (Hi & p & Hp & Hj). exists (i, p). split.
    + by apply elem_of_enumerate.
    + exists j. split; [apply elem_of_range; simpl; lia | done].
Qed.

Lemma available_actions_legal ps a : a ∈ available_actions ps ↔ legal ps a.
Proof.
  destruct a as [i j]. rewrite elem_of_available_actions. unfold legal. simpl.
  split.
  - intros (Hi & p & Hp & Hj). pose proof (lookup_lt_Some _ _ _ Hp).
    rewrite (list_lookup_total_correct _ _ _ Hp). lia.
  - intros [Hi Hj]. split; [lia|]. exists (ps !!! Z.to_nat i).
    split; [|done]. apply list_lookup_lookup_total_lt. lia.
Qed.

Lemma available_actions_pos ps :
  Forall (λ x, 0 ≤ x) ps → ¬ all_zero ps → ∃ a, a ∈ available_actions ps.
Proof.
  intros Hps Hnz. destruct (not_all_zero_pos ps Hps Hnz) as (i & x & Hi & Hx).
  exists (Z.of_nat i, 1). apply elem_of_available_actions.
  rewrite Nat2Z.id. split; [lia|]. exists x. split; [done | lia].
Qed.

Lemma available_actions_nonempty_pos ps :
  Forall (λ x, 0 ≤ x) ps → ¬ all_zero ps → available_actions ps ≠ ∅.
Proof. intros Hps Hnz. destruct (available_actions_pos ps Hps Hnz). set_solver. Qed.

Lemma available_actions_all_zero ps : all_zero ps → available_actions ps = ∅.
Proof.
  intros Hz. apply set_eq. intros [i j].
  rewrite elem_of_available_actions. split; [|set_solver].
  intros (_ & p & Hp & Hj). eapply Forall_lookup_1 in Hz; [|done].
  simpl in Hz. lia.
Qed.

Lemma other_player_seat p : other_player p = 0 ∨ other_player p = 1.
Proof. unfold other_player. case_decide; auto. Qed.

Lemma other_player_involutive p :
  p = 0 ∨ p = 1 → other_player (other_player p) = p.
Proof. unfold other_player. intros [-> | ->]; repeat case_decide; lia. Qed.

Lemma iter_other_player n p :
  p = 0 ∨ p = 1 →
  Nat.iter n other_player p = if Nat.even n then p else other_player p.
Proof.
  intros Hp. induction n as [|n IH]; [done|].
  rewrite Nat.even_succ, <-Nat.negb_even. simpl. rewrite IH.
  destruct (Nat.even n); simpl; [done | by apply other_player_involutive].
Qed.

Lemma other_player_ne p : other_player p ≠ p.
Proof. unfold other_player. case_decide; lia. Qed.

(** ** [move]: the error branches *)

Ltac move_cases :=
  unfold move, switch_player in *; repeat case_decide; simplify_eq/=.

Lemma move_None g : move g None = Raise TypeError.
Proof. done. Qed.

Lemma move_already_won g a w :
  winner g = Some w → move g (Some a) = Raise (Exception GameAlreadyWon).
Proof. destruct a. intros Hw. move_cases; congruence. Qed.

Lemma move_invalid_pile g i c :
  winner g = None → i < 0 ∨ Z.of_nat (length (piles g)) ≤ i →
  move g (Some (i, c)) = Raise (Exception InvalidPile).
Proof. intros Hw Hi. move_cases; tauto. Qed.

Lemma move_invalid_count g i c :
  winner g = None → 0 ≤ i < Z.of_nat (length (piles g)) →
  c < 1 ∨ piles g !!! Z.to_nat i < c →
  move g (Some (i, c)) = Raise (Exception InvalidCount).
Proof. intros Hw Hi Hc. move_cases; try tauto; lia. Qed.

(** ** [move]: the successful branch *)

Lemma move_Ok_inv g a g' :
  move g a = Ok g' →
  ∃ i c, a = Some (i, c) ∧ winner g = None ∧ legal (piles g) (i, c) ∧
    piles g' = <[Z.to_nat i := piles g !!! Z.to_nat i - c]> (piles g) ∧
    (if decide (all_zero (piles g'))
     then player g' = player g ∧ winner g' = Some (player g)
     else player g' = other_player (player g) ∧ winner g' = None).
Proof.
  destruct a as [[i c]|]; [|done]. intros Hm. exists i, c.
  assert (winner g = None ∧ legal (piles g) (i, c)) as [Hw Hl].
  { unfold legal. simpl. move_cases; destruct (winner g); naive_solver lia. }
  unfold move in Hm. repeat case_decide; simplify_eq/=;
    rewrite ?decide_True, ?decide_False by done; done.
Qed.

Lemma move_legal_Ok g a :
  winner g = None → legal (piles g) a → ∃ g', move g (Some a) = Ok g'.
Proof.
  destruct a as [i c]. unfold legal. simpl. intros Hw [Hi Hc].
  unfold move. rewrite Hw. repeat case_decide; try done; try lia; eauto.
Qed.

Lemma move_remaining g a g' i c :
  move g a = Ok g' → a = Some (i, c) → remaining g' = remaining g - c.
Proof.
  intros (i' & c' & ? & _ & [Hi Hc] & Hp & _)%move_Ok_inv ?. simplify_eq/=.
  unfold remaining. rewrite Hp.
  rewrite (sumZ_insert _ _ (piles g !!! Z.to_nat i)); [lia|].
  apply list_lookup_lookup_total_lt. lia.
Qed.

Lemma move_decreases g a g' : move g a = Ok g' → remaining g' < remaining g.
Proof.
  intros Hm. destruct (move_Ok_inv _ _ _ Hm) as (i & c & -> & _ & [_ Hc] & _).
  rewrite (move_remaining _ _ _ i c Hm eq_refl). simpl in Hc. lia.
Qed.

Lemma move_wf g a g' : wf g → move g a = Ok g' → wf g'.
Proof.
  intros (Hp & Hs & Hw) (i & c & -> & _ & [Hi Hc] & Hps & Hr)%move_Ok_inv.
  simpl in *. split_and!.
  - rewrite Hps. apply Forall_insert; [done | lia].
  - case_decide; destruct Hr as [-> _]; [done | apply other_player_seat].
  - case_decide; destruct Hr as [_ ->]; simpl; done.
Qed.

Lemma move_terminal_inv g a g' : move g a = Ok g' → terminal_inv g'.
Proof.
  intros (i & c & _ & _ & _ & _ & Hr)%move_Ok_inv. unfold terminal_inv.
  case_decide; destruct Hr as [_ ->]; split; (done || by intros []).
Qed.

Lemma move_winner_mover g a g' w :
  move g a = Ok g' → winner g' = Some w → w = player g ∧ all_zero (piles g').
Proof.
  intros (i & c & _ & _ & _ & _ & Hr)%move_Ok_inv Hw.
  case_decide; destruct Hr as [_ Hr]; [split; [congruence | done] | congruence].
Qed.

Lemma move_continues g a g' :
  move g a = Ok g' → winner g' = None → player g' = other_player (player g).
Proof.
  intros (i & c & _ & _ & _ & _ & Hr)%move_Ok_inv Hw.
  case_decide; destruct Hr as [? Hr]; [congruence | done].
Qed.

(** ** Invariants of play *)

Lemma init_wf initial : Forall (λ x, 0 ≤ x) initial → wf (init initial).
Proof. intros. split_and!; simpl; auto. Qed.

Lemma init_terminal_inv initial :
  ¬ all_zero initial → terminal_inv (init initial).
Proof. intros Hnz. split; simpl; [by intros [] | done]. Qed.

Lemma init_all_zero initial :
  all_zero initial → ¬ terminal_inv (init initial).
Proof. unfold terminal_inv. simpl. intros Hz [_ Hi]. by apply (is_Some_None (A:=Z)), Hi. Qed.

Lemma reachable_trans g0 g1 g2 :
  reachable g0 g1 → reachable g1 g2 → reachable g0 g2.
Proof. induction 2; eauto using reachable. Qed.

Lemma reachable_wf g0 g : wf g0 → reachable g0 g → wf g.
Proof. induction 2; eauto using move_wf. Qed.

Lemma reachable_terminal_inv g0 g :
  terminal_inv g0 → reachable g0 g → terminal_inv g.
Proof. destruct 2; eauto using move_terminal_inv. Qed.

Lemma reachable_remaining g0 g :
  reachable g0 g → remaining g ≤ remaining g0.
Proof.
  induction 1 as [|g a g' _ IH Hm]; [done|].
  apply move_decreases in Hm. lia.
Qed.

Lemma moves_cons_inv g a l g' :
  moves g (a :: l) = Ok g' →
  ∃ g1, move g (Some a) = Ok g1 ∧ moves g1 l = Ok g'.
Proof. simpl. destruct (move g (Some a)); intros Hm; [eauto | discriminate]. Qed.

Lemma moves_won g l g' :
  is_Some (winner g) → moves g l = Ok g' → l = [] ∧ g' = g.
Proof.
  intros Hw Hm. destruct l as [|a l]; [by injection Hm|].
  apply moves_cons_inv in Hm as (g1 & (? & ? & _ & Hn & _)%move_Ok_inv & _).
  rewrite Hn in Hw. by destruct Hw.
Qed.

Lemma moves_open g l g' :
  winner g = None → is_Some (winner g') → moves g l = Ok g' →
  ∃ a l1 g1, l = a :: l1 ∧ a ∈ available_actions (piles g) ∧
             move g (Some a) = Ok g1 ∧ moves g1 l1 = Ok g'.
Proof.
  intros Hn Hw Hm. destruct l as [|a l].
  - injection Hm as <-. rewrite Hn in Hw. by destruct Hw.
  - apply moves_cons_inv in Hm as (g1 & Ha & Hm). exists a, l, g1.
    split_and!; try done. apply available_actions_legal.
    by destruct (move_Ok_inv _ _ _ Ha) as (? & ? & [= ->] & _ & ? & _).
Qed.

Lemma moves_reachable g l g' : moves g l = Ok g' → reachable g g'.
Proof.
  revert g. induction l as [|a l IH]; intros g Hm.
  - injection Hm as ->. constructor.
  - apply moves_cons_inv in Hm as (g1 & Hg & Hm).
    eapply reachable_trans; [|by apply IH]. eauto using reachable.
Qed.

Lemma moves_length g l g' :
  moves g l = Ok g' → Z.of_nat (length l) ≤ remaining g - remaining g'.
Proof.
  revert g. induction l as [|a l IH]; intros g Hm.
  - injection Hm as ->. simpl. lia.
  - apply moves_cons_inv in Hm as (g1 & Hg & Hm).
    apply move_decreases in Hg. apply IH in Hm. simpl length. lia.
Qed.

Lemma moves_app g l k :
  moves g (l ++ k) =
  match moves g l with Ok g' => moves g' k | Raise e => Raise e end.
Proof.
  revert g. induction l as [|a l IH]; intros g; simpl; [done|].
  destruct (move g (Some a)); [apply IH | done].
Qed.

Lemma moves_player g l g' :
  player g = 0 ∨ player g = 1 → moves g l = Ok g' → winner g' = None →
  player g' = Nat.iter (length l) other_player (player g).
Proof.
  revert g'. induction l as [|a l IH] using rev_ind; intros g' Hp Hm Hw.
  - by injection Hm as <-.
  - rewrite moves_app in Hm. destruct (moves g l) as [g1|] eqn:Hl; [|done].
    apply moves_cons_inv in Hm as (g2 & Hg & [= ->]).
    destruct (move_Ok_inv _ _ _ Hg) as (? & ? & _ & Hw1 & _).
    rewrite length_app, Nat.add_comm. simpl.
    rewrite <-(IH g1) by done. by eapply move_continues.
Qed.

(** ** Main theorems of the component *)

(** C34: [available_actions] returns exactly the legal actions of the
    data model: the pairs (pile index, count) with the index in range and
    the count between 1 and the size of that pile. *)
Theorem available_actions_exact ps a :
  a ∈ available_actions ps ↔
  0 ≤ a.1 < Z.of_nat (length ps) ∧ 1 ≤ a.2 ≤ ps !!! Z.to_nat a.1.
Proof. apply available_actions_legal. Qed.

(** C39: On a position without negative piles, [available_actions] is
    non-empty exactly when some pile is not empty. *)
Theorem available_actions_nonempty_iff ps :
  Forall (λ x, 0 ≤ x) ps → (available_actions ps ≠ ∅ ↔ ¬ all_zero ps).
Proof.
  intros Hps. split.
  - intros Hne Hz. by apply Hne, available_actions_all_zero.
  - intros Hnz. destruct (available_actions_pos ps Hps Hnz). set_solver.
Qed.

Lemma available_actions_nonempty_iff_witness :
  available_actions [1; 3; 5; 7] ≠ ∅ ↔ ¬ all_zero [1; 3; 5; 7].
Proof.
  apply (available_actions_nonempty_iff [1; 3; 5; 7]).
  repeat constructor; lia.
Defined.

(** C13: While the game has no winner, [move] accepts an action exactly
    when [available_actions] lists it, so the enumeration and the checks
    of [move] agree. *)
Theorem move_accepts_iff_available g a :
  winner g = None →
  (is_Ok (move g (Some a)) ↔ a ∈ available_actions (piles g)).
Proof.
  intros Hw. rewrite available_actions_legal, is_Ok_alt. split.
  - intros [g' Hm]. apply move_Ok_inv in Hm as (i & c & ? & _ & ? & _).
    by simplify_eq.
  - by apply move_legal_Ok.
Qed.

Lemma move_accepts_iff_available_witness :
  is_Ok (move (init [1; 3; 5; 7]) (Some (2, 4))) ↔
  (2, 4) ∈ available_actions (piles (init [1; 3; 5; 7])).
Proof. apply (move_accepts_iff_available (init [1; 3; 5; 7]) (2, 4)). reflexivity. Defined.

(** C35: The error branches of [move], in the order the source tests
    them: a finished game raises "Game already won." whatever the
    action; otherwise an index out of range raises "Invalid pile.";
    otherwise a count below 1 or above the pile raises "Invalid number
    of objects."; [None] as action fails at the unpacking. No state is
    returned, so the position is unchanged. *)
Theorem move_error_taxonomy g i c :
  move g None = Raise TypeError ∧
  (winner g ≠ None → move g (Some (i, c)) = Raise (Exception GameAlreadyWon)) ∧
  (winner g = None → i < 0 ∨ Z.of_nat (length (piles g)) ≤ i →
     move g (Some (i, c)) = Raise (Exception InvalidPile)) ∧
  (winner g = None → 0 ≤ i < Z.of_nat (length (piles g)) →
     c < 1 ∨ piles g !!! Z.to_nat i < c →
     move g (Some (i, c)) = Raise (Exception InvalidCount)).
Proof.
  split_and!; [done | | apply move_invalid_pile | apply move_invalid_count].
  destruct (winner g) eqn:Hw; [intros _ | done]. by eapply move_already_won.
Qed.

(** C38: A move that succeeds takes at least one object: the number of
    objects left decreases by exactly the count of the action. *)
Theorem move_takes_count g i c g' :
  move g (Some (i, c)) = Ok g' →
  1 ≤ c ∧ remaining g' = remaining g - c ∧
  piles g' = <[Z.to_nat i := piles g !!! Z.to_nat i - c]> (piles g).
Proof.
  intros Hm. pose proof (move_remaining _ _ _ i c Hm eq_refl).
  apply move_Ok_inv in Hm as (? & ? & ? & _ & [_ ?] & ? & _).
  simplify_eq/=. split_and!; [lia | done..].
Qed.

Lemma move_takes_count_witness :
  1 ≤ 4 ∧
  remaining (Game [1; 3; 1; 7] 1 None) = remaining (init [1; 3; 5; 7]) - 4 ∧
  piles (Game [1; 3; 1; 7] 1 None) =
    <[Z.to_nat 2 := piles (init [1; 3; 5; 7]) !!! Z.to_nat 2 - 4]>
      (piles (init [1; 3; 5; 7])).
Proof. apply (move_takes_count (init [1; 3; 5; 7]) 2 4). reflexivity. Defined.

(** C12: Terminal invariant. From an initial position with no negative
    pile and at least one object, every position reached by moves is
    well formed and has a winner exactly when all piles are empty. *)
Theorem play_terminal_invariant initial g :
  Forall (λ x, 0 ≤ x) initial → ¬ all_zero initial →
  reachable (init initial) g →
  wf g ∧ (is_Some (winner g) ↔ all_zero (piles g)).
Proof.
  intros Hi Hnz Hr. split.
  - eapply reachable_wf; [by apply init_wf | done].
  - eapply reachable_terminal_inv; [by apply init_terminal_inv | done].
Qed.

Lemma play_terminal_invariant_witness :
  wf (Game [0; 0] 1 (Some 1)) ∧
  (is_Some (winner (Game [0; 0] 1 (Some 1))) ↔
   all_zero (piles (Game [0; 0] 1 (Some 1)))).
Proof.
  apply (play_terminal_invariant [1; 1]); [by_decide..|].
  apply (moves_reachable _ [(0, 1); (1, 1)]). reflexivity.
Defined.

(** C36: The winner is the seat that emptied the last pile: when a move
    ends the game the winner recorded is the player who made it, and
    when it does not the turn passes to the other seat. *)
Theorem move_winner_or_switch g a g' :
  move g a = Ok g' →
  match winner g' with
  | Some w => w = player g ∧ player g' = player g ∧ all_zero (piles g')
  | None => player g' = other_player (player g) ∧ ¬ all_zero (piles g')
  end.
Proof.
  intros Hm. destruct (move_Ok_inv _ _ _ Hm) as (i & c & _ & _ & _ & _ & Hr).
  case_decide; destruct Hr as [Hp ->]; auto.
Qed.

Lemma move_winner_or_switch_witness :
  match winner (Game [0; 0] 0 (Some 0)) with
  | Some w => w = player (init [0; 1]) ∧
              player (Game [0; 0] 0 (Some 0)) = player (init [0; 1]) ∧
              all_zero (piles (Game [0; 0] 0 (Some 0)))
  | None => player (Game [0; 0] 0 (Some 0)) = other_player (player (init [0; 1])) ∧
            ¬ all_zero (piles (Game [0; 0] 0 (Some 0)))
  end.
Proof. apply (move_winner_or_switch (init [0; 1]) (Some (1, 1))). reflexivity. Defined.

(** C37: No game is longer than the number of objects on the table: a
    sequence of moves that [move] accepts from a well-formed position
    has at most [remaining] plies, so play terminates. *)
Theorem play_length_bounded g l g' :
  wf g → moves g l = Ok g' → Z.of_nat (length l) ≤ remaining g.
Proof.
  intros Hwf Hm. pose proof (moves_length _ _ _ Hm).
  pose proof (reachable_wf _ _ Hwf (moves_reachable _ _ _ Hm)) as [Hp _].
  pose proof (sumZ_nonneg _ Hp). unfold remaining in *. lia.
Qed.

Lemma play_length_bounded_witness :
  Z.of_nat (length [(0, 1); (1, 1)]) ≤ remaining (init [1; 1]).
Proof.
  apply (play_length_bounded (init [1; 1]) [(0, 1); (1, 1)]
           (Game [0; 0] 1 (Some 1))); [by_decide | reflexivity].
Defined.

(** C40: Seats alternate: after [n] accepted moves that leave the game
    open, the seat to move is the starting seat when [n] is even and the
    other seat when [n] is odd. *)
Theorem turns_alternate g l g' :
  wf g → moves g l = Ok g' → winner g' = None →
  player g' = if Nat.even (length l) then player g else other_player (player g).
Proof.
  intros (_ & Hp & _) Hm Hw. rewrite (moves_player _ _ _ Hp Hm Hw).
  by apply iter_other_player.
Qed.

Lemma turns_alternate_witness :
  player (Game [1; 3; 2; 5] 0 None) =
  if Nat.even (length [(2, 3); (3, 2)]) then player (init [1; 3; 5; 7])
  else other_player (player (init [1; 3; 5; 7])).
Proof.
  apply (turns_alternate (init [1; 3; 5; 7]) [(2, 3); (3, 2)]);
    [by_decide | reflexivity..].
Defined.

End Nim.
