(* ===== verification/ValueTable.v ===== *)
(** ValueTable: the dictionary [self.q] both learners own (src/qlearning.py,
    src/sarsa.py): keys are (state tuple, action) pairs, values are
    rationals, a missing key reads as 0. The temporal-difference update
    rule and its arithmetic live here because both learners share it. *)

From Stdlib Require Import QArith Lqa.
From stdpp Require Import base numbers list gmap sets.
From S2P Require Import Prelude GameState.

Set Warnings "-clear-no-such-hyp".
#[local] Open Scope Q_scope.

Module QTable.

(** A key [(tuple(state), action)]; the action is [None] when SARSA
    looks up the value of "no action". *)
Definition key : Type := list Z * option action.

(** [dict()] *)
Definition empty : gmap key Q := ∅.

(** [q.get((tuple(state), action), 0)] *)
Definition get (q : gmap key Q) (state : list Z) (a : option action) : Q :=
  default 0 (q !! (state, a)).

(** [q[(tuple(state), action)] = v] *)
Definition set (q : gmap key Q) (state : list Z) (a : option action)
    (v : Q) : gmap key Q :=
  <[(state, a) := v]> q.

(** [old_q + alpha * (reward + future_rewards - old_q)] *)
Definition td_update (alpha old_q reward future_rewards : Q) : Q :=
  old_q + alpha * (reward + future_rewards - old_q).

(** [float('-inf')] or a value: the running maximum of the two scans. *)
Inductive qext : Type :=
| NegInf
| Fin (x : Q).

(** [current_q > best_reward] *)
Definition gt (current_q : Q) (best_reward : qext) : bool :=
  match best_reward with
  | NegInf => true
  | Fin b => bool_decide (b < current_q)
  end.

(** [max(best_reward, current_q)]: the first argument unless the second
    is greater. *)
Definition max (best_reward : qext) (current_q : Q) : qext :=
  if gt current_q best_reward then Fin current_q else best_reward.

(** The body of the loop of [choose_action]: keep the first action
    seen, then replace it only by an action of strictly greater value. *)
Definition scan_step (value : action → Q)
    (best : option action * qext) (a : action) : option action * qext :=
  let '(best_action, best_reward) := best in
  let current_q := value a in
  if bool_decide (best_action = None) || gt current_q best_reward
  then (Some a, Fin current_q)
  else (best_action, best_reward).

(** ** Specification predicates *)

(** Tables are observed through [get] only: two tables are equivalent
    when every lookup gives equal rationals, so an absent entry and a
    stored 0 are the same, and so are 1/2 and 2/4. *)
Definition equiv (q1 q2 : gmap key Q) : Prop :=
  ∀ state a, get q1 state a == get q2 state a.

(** Every estimate lies between -1 and 1. *)
Definition bounded (q : gmap key Q) : Prop :=
  ∀ state a, -1 <= get q state a <= 1.

(** The invariant of a learner's table: bounded estimates, and nothing
    stored under "no action" (SARSA reads that entry as the value of a
    finished game). *)
Definition inv (q : gmap key Q) : Prop :=
  bounded q ∧ ∀ state, get q state None == 0.

(** [a] is the first element of [l] whose value is greatest: what is
    before it is strictly smaller, what is after it is not greater. *)
Definition first_max (f : action → Q) (l : list action) (a : action) : Prop :=
  ∃ l1 l2, l = l1 ++ a :: l2 ∧
    (∀ b, b ∈ l1 → f b < f a) ∧ (∀ b, b ∈ l2 → f b <= f a).

(** The two scans as functions of the list of actions. *)
Definition scan_best (f : action → Q) (l : list action) : option action * qext :=
  foldl (scan_step f) (None, NegInf) l.

Definition scan_max (f : action → Q) (l : list action) : qext :=
  foldl (λ best a, max best (f a)) NegInf l.

(** ** Lookup and store *)

Lemma get_empty state a : get empty state a = 0.
Proof. done. Qed.

Lemma get_set_eq q state a v : get (set q state a v) state a = v.
Proof. unfold get, set. by rewrite lookup_insert_eq. Qed.

Lemma get_set_ne q state a state' a' v :
  (state, a) ≠ (state', a') → get (set q state a v) state' a' = get q state' a'.
Proof. intros. unfold get, set. by rewrite lookup_insert_ne. Qed.

Lemma get_set q state a state' a' v :
  get (set q state a v) state' a' =
  if decide ((state, a) = (state', a')) then v else get q state' a'.
Proof.
  case_decide; simplify_eq; [apply get_set_eq | by apply get_set_ne].
Qed.

(** ** The table equivalence *)

#[global] Instance equiv_equivalence : Equivalence equiv.
Proof.
  split.
  - by intros q state a.
  - intros q1 q2 H state a. symmetry. apply H.
  - intros q1 q2 q3 H1 H2 state a.
    transitivity (get q2 state a); [apply H1 | apply H2].
Qed.

#[global] Instance get_proper : Proper (equiv ==> eq ==> eq ==> Qeq) get.
Proof. intros q1 q2 Hq ?? -> ?? ->. apply Hq. Qed.

#[global] Instance set_proper :
  Proper (equiv ==> eq ==> eq ==> Qeq ==> equiv) set.
Proof.
  intros q1 q2 Hq s ? <- a ? <- v1 v2 Hv state' a'. rewrite !get_set.
  case_decide; [done | apply Hq].
Qed.

#[global] Instance bounded_proper : Proper (equiv ==> iff) bounded.
Proof.
  intros q1 q2 Hq. unfold bounded.
  split; intros H state a; specialize (H state a); specialize (Hq state a); lra.
Qed.

#[global] Instance td_update_proper :
  Proper (Qeq ==> Qeq ==> Qeq ==> Qeq ==> Qeq) td_update.
Proof. intros ?? H1 ?? H2 ?? H3 ?? H4. unfold td_update. by rewrite H1, H2, H3, H4. Qed.

(** ** Bounds *)

Lemma bounded_empty : bounded empty.
Proof. intros state a. rewrite get_empty. lra. Qed.

Lemma bounded_set q state a v :
  bounded q → -1 <= v <= 1 → bounded (set q state a v).
Proof. intros Hq Hv state' a'. rewrite get_set. case_decide; [done | apply Hq]. Qed.

Lemma inv_empty : inv empty.
Proof. split; [apply bounded_empty | done]. Qed.

Lemma inv_set q state a v :
  inv q → -1 <= v <= 1 → inv (set q state (Some a) v).
Proof.
  intros [Hb H0] Hv. split; [by apply bounded_set|].
  intros state'. rewrite get_set_ne by done. apply H0.
Qed.

#[global] Instance inv_proper : Proper (equiv ==> iff) inv.
Proof.
  intros q1 q2 Hq. unfold inv. rewrite Hq.
  split; intros [Hb H0]; (split; [done|]); intros state;
    specialize (H0 state); specialize (Hq state None); lra.
Qed.

(** ** Arithmetic of the update rule *)

Lemma td_update_convex alpha old_q reward future :
  td_update alpha old_q reward future ==
  (1 - alpha) * old_q + alpha * (reward + future).
Proof. unfold td_update. ring. Qed.

Lemma td_update_error alpha old_q reward future :
  td_update alpha old_q reward future - (reward + future) ==
  (1 - alpha) * (old_q - (reward + future)).
Proof. unfold td_update. ring. Qed.

Lemma td_update_bounds alpha old_q reward future :
  0 <= alpha <= 1 → -1 <= old_q <= 1 → -1 <= reward + future <= 1 →
  -1 <= td_update alpha old_q reward future <= 1.
Proof. intros. unfold td_update. nra. Qed.

(** ** The two scans *)

Section scans.
Context (f : action → Q).
Implicit Types (l : list action) (a b : action).

Lemma first_max_elem_of l a : first_max f l a → a ∈ l.
Proof. intros (l1 & l2 & -> & _). set_solver. Qed.

Lemma first_max_ub l a b : first_max f l a → b ∈ l → f b <= f a.
Proof.
  intros (l1 & l2 & -> & H1 & H2) [Hb|[->|Hb]%elem_of_cons]%elem_of_app.
  - by apply Qlt_le_weak, H1.
  - apply Qle_refl.
  - by apply H2.
Qed.

Lemma first_max_unique l a b : first_max f l a → first_max f l b → a = b.
Proof.
  intros Ha Hb.
  pose proof (first_max_ub _ _ b Ha (first_max_elem_of _ _ Hb)).
  pose proof (first_max_ub _ _ a Hb (first_max_elem_of _ _ Ha)).
  destruct Ha as (l1 & l2 & -> & Ha1 & _), Hb as (k1 & k2 & Hk & Hb1 & _).
  apply (not_elem_of_app_cons_inv_l a b l1 l2 k1 k2); [| |done].
  - intros Hin%Hb1. lra.
  - intros Hin%Ha1. lra.
Qed.

Lemma first_max_snoc l a x :
  first_max f l a →
  first_max f (l ++ [x]) (if bool_decide (f a < f x) then x else a).
Proof.
  intros Ha. pose proof (λ b, first_max_ub _ _ b Ha) as Hub.
  destruct Ha as (l1 & l2 & -> & H1 & H2). case_bool_decide as Hlt.
  - exists ((l1 ++ a :: l2)), []. split_and!; [done | | set_solver].
    intros b Hb. specialize (Hub b Hb). lra.
  - exists l1, (l2 ++ [x]). rewrite <-app_assoc. split_and!; [done..|].
    intros b [?|Hb%list_elem_of_singleton]%elem_of_app;
      [by apply H2 | subst; lra].
Qed.

(** What [scan_best] returns: nothing on the empty list, otherwise the
    first maximum and its value. *)
Lemma scan_best_nil : scan_best f [] = (None, NegInf).
Proof. done. Qed.

Lemma scan_best_snoc l x :
  scan_best f (l ++ [x]) = scan_step f (scan_best f l) x.
Proof. unfold scan_best. by rewrite foldl_app. Qed.

Lemma scan_best_spec l :
  l ≠ [] → ∃ a, scan_best f l = (Some a, Fin (f a)) ∧ first_max f l a.
Proof.
  induction l as [|x l IH] using rev_ind; [done|]. intros _.
  rewrite scan_best_snoc. destruct l as [|y l].
  - exists x. split; [done|]. exists [], []. set_solver.
  - destruct IH as (a & -> & Ha); [done|].
    exists (if bool_decide (f a < f x) then x else a).
    split; [simpl; by case_bool_decide | by apply (first_max_snoc (y :: l))].
Qed.

Lemma scan_max_snoc l x : scan_max f (l ++ [x]) = max (scan_max f l) (f x).
Proof. unfold scan_max. by rewrite foldl_app. Qed.

(** The running maximum of [best_future_reward] is the value kept by
    the scan of [choose_action]. *)
Lemma scan_max_scan_best l : scan_max f l = (scan_best f l).2.
Proof.
  induction l as [|x l IH] using rev_ind; [done|].
  rewrite scan_max_snoc, scan_best_snoc, IH. destruct l as [|y l]; [done|].
  destruct (scan_best_spec (y :: l)) as (a & -> & _); [done|].
  unfold max, scan_step. simpl. by case_bool_decide.
Qed.

Lemma scan_max_spec l :
  l ≠ [] → ∃ a, scan_max f l = Fin (f a) ∧ first_max f l a.
Proof.
  intros Hl. destruct (scan_best_spec l Hl) as (a & Ha & Hm).
  exists a. by rewrite scan_max_scan_best, Ha.
Qed.

End scans.

(** The greatest value does not depend on the order of the scan, nor
    on which of two functions that agree is scanned. *)
Lemma first_max_perm_value f g l l' a a' :
  l ≡ₚ l' → (∀ b, f b == g b) →
  first_max f l a → first_max g l' a' → f a == g a'.
Proof.
  intros Hp Hfg Ha Ha'. apply Qle_antisym.
  - rewrite Hfg. eapply first_max_ub; [done|].
    rewrite <-Hp. by eapply first_max_elem_of.
  - rewrite <-Hfg. eapply first_max_ub; [done|].
    rewrite Hp. by eapply first_max_elem_of.
Qed.

End QTable.

Infix "≡q" := QTable.equiv (at level 70) : stdpp_scope.
