(* ===== verification/Learner.v ===== *)
(** Learner: the interface the episode runner uses. src/engine.py calls
    [choose_action] and [update_model] on whatever object it is given;
    the two classes of src/qlearning.py and src/sarsa.py implement it.
    The laws state what the runner relies on; each learner proves them. *)

From Stdlib Require Import QArith Lqa.
From stdpp Require Import base numbers list gmap sets.
From S2P Require Import Prelude Runtime GameState ValueTable.

Set Warnings "-clear-no-such-hyp".

(** The two methods, with the generator state threaded through both:
    [choose_action(state, epsilon)] and
    [update_model(old_state, action, new_state, reward)]. The table and
    the two hyperparameters are what both constructors set. *)
Class Agent (G L : Type) : Type := {
  choose_action : L → list Z → bool → M G (option action);
  update_model : L → list Z → option action → list Z → Q → M G L;
  table : L → gmap QTable.key Q;
  rate : L → Q
}.

(** The condition under which an update keeps a table within bounds:
    no reward, or a reward of at most 1 in size at a finished game. *)
Definition reward_ok (new_state : list Z) (reward : Q) : Prop :=
  (reward == 0 ∨ (Nim.available_actions new_state = ∅ ∧ -1 <= reward <= 1))%Q.

(** What the runner needs of an agent. *)
Class AgentLaws (G L : Type) `{Agent G L} : Prop := {
  (** on a position with a legal action, an action of that position is
      returned, whatever the exploration flag and the draws *)
  choose_action_available (self : L) state explore g :
    Nim.available_actions state ≠ ∅ →
    ∃ a g', choose_action self state explore g = Ok (Some a, g') ∧
            a ∈ Nim.available_actions state;
  (** without exploration no number is drawn *)
  choose_action_greedy_gen (self : L) state g :
    Nim.available_actions state ≠ ∅ →
    ∃ a, choose_action self state false g = Ok (Some a, g);
  (** an update never raises and changes neither hyperparameter *)
  update_model_total (self : L) old_state a new_state reward g :
    ∃ self' g', update_model self old_state a new_state reward g = Ok (self', g') ∧
                rate self' = rate self;
  (** an update writes one entry, the one of (old_state, action) *)
  update_model_frame (self self' : L) old_state a new_state reward g g' k :
    update_model self old_state a new_state reward g = Ok (self', g') →
    k ≠ (old_state, a) → table self' !! k = table self !! k;
  (** the invariant of the table is kept: a step without reward
      bootstraps from bounded estimates, a terminal step has no future
      value *)
  update_model_inv (self self' : L) old_state a new_state reward g g' :
    update_model self old_state (Some a) new_state reward g = Ok (self', g') →
    (0 <= rate self <= 1)%Q → QTable.inv (table self) →
    reward_ok new_state reward →
    QTable.inv (table self')
}.

(** Nothing is stored under "no action": such entries read 0. *)
Definition no_action_zero (q : gmap QTable.key Q) : Prop :=
  ∀ state, (QTable.get q state None == 0)%Q.

(** What both learners do at the end of a game: with no action to
    look ahead to, and nothing stored under "no action", the update is
    the temporal-difference step towards the reward alone, and it
    draws nothing. *)
Class TerminalUpdate (G L : Type) `{Agent G L} : Prop := {
  update_model_finished (self : L) old_state a new_state reward (g : G) :
    Nim.available_actions new_state = ∅ →
    no_action_zero (table self) →
    ∃ self', update_model self old_state (Some a) new_state reward g
             = Ok (self', g) ∧
      rate self' = rate self ∧
      table self' ≡q
        QTable.set (table self) old_state (Some a)
          (QTable.td_update (rate self)
             (QTable.get (table self) old_state (Some a)) reward 0)
}.

(** ** Consequences of the laws, in the form the runner composes *)

Section laws.
Context `{AgentLaws G L}.

Lemma choose_action_returns (self : L) state explore g :
  Nim.available_actions state ≠ ∅ →
  returns (choose_action self state explore) g
    (λ oa, ∃ a, oa = Some a ∧ a ∈ Nim.available_actions state).
Proof.
  intros Hne.
  destruct (choose_action_available self state explore g Hne)
    as (a & g' & Hc & Ha).
  exists (Some a), g'. eauto.
Qed.

Lemma update_model_returns (self : L) old_state a new_state reward g :
  returns (update_model self old_state a new_state reward) g
    (λ self', rate self' = rate self).
Proof.
  destruct (update_model_total self old_state a new_state reward g)
    as (self' & g' & Hu & Hr).
  by exists self', g'.
Qed.

(** An agent in good standing: a learning rate in [0, 1] and a table
    that satisfies the invariant. *)
Definition agent_ok (self : L) : Prop :=
  (0 <= rate self <= 1)%Q ∧ QTable.inv (table self).

Lemma update_model_returns_ok (self : L) old_state a new_state reward g :
  returns (update_model self old_state (Some a) new_state reward) g
    (λ self', agent_ok self → reward_ok new_state reward → agent_ok self').
Proof.
  destruct (update_model_total self old_state (Some a) new_state reward g)
    as (self' & g' & Hu & Hr').
  exists self', g'. split; [done|]. intros [Hr Hi] Hrew.
  split; [by rewrite Hr' | by eapply update_model_inv].
Qed.

End laws.
