(* ===== verification/OffPolicy.v ===== *)
(** OffPolicy: the class [QLearning] of src/qlearning.py, the learner
    whose bootstrap target is the greatest estimate of the next state. *)

From Stdlib Require Import QArith Lqa.
From stdpp Require Import base numbers list gmap sets.
From S2P Require Import Prelude Runtime GameState ValueTable Learner.

Set Warnings "-clear-no-such-hyp".
#[local] Open Scope py_scope.
#[local] Open Scope Q_scope.

Module QLearning.

(** The three attributes [__init__] sets. *)
Record t : Type := Make {
  q : gmap QTable.key Q;
  alpha : Q;
  epsilon : Q
}.

Definition init (alpha epsilon : Q) : t :=
  {| q := QTable.empty; alpha := alpha; epsilon := epsilon |}.

(** [QLearning()]: alpha = 0.5, epsilon = 0.1. *)
Definition default : t := init (1 # 2) (1 # 10).

Definition get_q_value (self : t) (state : list Z) (a : option action) : Q :=
  QTable.get (q self) state a.

Definition update_value (self : t) (old_state : list Z) (a : option action)
    (old_q reward future_rewards : Q) : t :=
  let new_q := QTable.td_update (alpha self) old_q reward future_rewards in
  {| q := QTable.set (q self) old_state a new_q;
     alpha := alpha self; epsilon := epsilon self |}.

Section with_runtime.
Context `{HG : RandomGen G} `{HO : !SetOrder action}.

(** The maximum of the estimates of the legal actions of [state]; 0 when
    there is none (the running maximum is still [-inf]). *)
Definition best_future_reward (self : t) (state : list Z) : Q :=
  let actions := set_to_list (Nim.available_actions state) in
  let best_reward :=
    foldl (λ best_reward a,
             QTable.max best_reward (get_q_value self state (Some a)))
          QTable.NegInf actions in
  match best_reward with
  | QTable.Fin best => best
  | QTable.NegInf => 0
  end.

Definition update_model (self : t) (old_state : list Z) (a : option action)
    (new_state : list Z) (reward : Q) : t :=
  let old_q := get_q_value self old_state a in
  let best_future := best_future_reward self new_state in
  update_value self old_state a old_q reward best_future.

(** [choose_action(state, epsilon)]; the flag is called [explore] here,
    [epsilon] being the attribute. The generator is consulted only when
    the flag is set, and [random.choice] only when the draw is below
    [self.epsilon]; on an empty list of actions that call raises. *)
Definition choose_action (self : t) (state : list Z) (explore : bool)
    : M G (option action) :=
  let actions := set_to_list (Nim.available_actions state) in
  let '(best_action, _) :=
    foldl (QTable.scan_step (λ a, get_q_value self state (Some a)))
          (None, QTable.NegInf) actions in
  if explore then
    let* u := random_random in
    if bool_decide (u < epsilon self)%Q
    then let* a := choice actions in ret (Some a)
    else ret best_action
  else ret best_action.

(** ** Specification: the greedy action *)

(** The estimate of each action of [state], and the action the scan of
    [choose_action] keeps. *)
Definition value (self : t) (state : list Z) (a : action) : Q :=
  get_q_value self state (Some a).

Definition greedy (self : t) (state : list Z) : option action :=
  (QTable.scan_best (value self state)
     (set_to_list (Nim.available_actions state))).1.

(** ** [best_future_reward] *)

Lemma best_future_reward_unfold self state :
  best_future_reward self state =
  match QTable.scan_max (value self state)
          (set_to_list (Nim.available_actions state)) with
  | QTable.Fin best => best
  | QTable.NegInf => 0
  end.
Proof. done. Qed.

Lemma best_future_reward_empty self state :
  Nim.available_actions state = ∅ → best_future_reward self state = 0.
Proof.
  intros He. rewrite best_future_reward_unfold.
  by rewrite (proj2 (set_to_list_nil _) He).
Qed.

Lemma best_future_reward_first_max self state :
  Nim.available_actions state ≠ ∅ →
  ∃ a, best_future_reward self state = value self state a ∧
       QTable.first_max (value self state)
         (set_to_list (Nim.available_actions state)) a.
Proof.
  intros Hne. rewrite best_future_reward_unfold.
  destruct (QTable.scan_max_spec (value self state)
              (set_to_list (Nim.available_actions state))) as (a & -> & Ha).
  - by rewrite set_to_list_nil.
  - by exists a.
Qed.

Lemma best_future_reward_bounded self state :
  QTable.bounded (q self) → (-1 <= best_future_reward self state <= 1)%Q.
Proof.
  intros Hb. destruct (decide (Nim.available_actions state = ∅)) as [He|Hne].
  - rewrite best_future_reward_empty by done. lra.
  - destruct (best_future_reward_first_max self state Hne) as (a & -> & _).
    apply Hb.
Qed.

(** ** [update_value] and [update_model] *)

Lemma update_model_unfold self old_state a new_state reward :
  update_model self old_state a new_state reward =
  {| q := QTable.set (q self) old_state a
            (QTable.td_update (alpha self) (get_q_value self old_state a)
               reward (best_future_reward self new_state));
     alpha := alpha self; epsilon := epsilon self |}.
Proof. done. Qed.

Lemma update_model_target_bounds self new_state reward :
  QTable.bounded (q self) →
  reward_ok new_state reward →
  -1 <= reward + best_future_reward self new_state <= 1.
Proof.
  intros Hb [Hr|[He Hr]].
  - pose proof (best_future_reward_bounded self new_state Hb). lra.
  - rewrite best_future_reward_empty by done. lra.
Qed.

Lemma update_model_inv_step self old_state a new_state reward :
  (0 <= alpha self <= 1)%Q → QTable.inv (q self) →
  reward_ok new_state reward →
  QTable.inv (q (update_model self old_state (Some a) new_state reward)).
Proof.
  intros Ha Hi Hr. rewrite update_model_unfold. simpl.
  apply QTable.inv_set; [done|]. destruct Hi as [Hb _].
  apply QTable.td_update_bounds; [done | apply Hb |].
  by apply update_model_target_bounds.
Qed.

(** ** [choose_action] *)

Lemma choose_action_unfold self state explore :
  choose_action self state explore =
  if explore then
    let* u := random_random in
    if bool_decide (u < epsilon self)%Q
    then let* a := choice (set_to_list (Nim.available_actions state)) in
         ret (Some a)
    else ret (greedy self state)
  else ret (greedy self state).
Proof.
  unfold choose_action, greedy, QTable.scan_best.
  by destruct (foldl _ _ _).
Qed.

Lemma greedy_empty self state :
  Nim.available_actions state = ∅ → greedy self state = None.
Proof. intros He. unfold greedy. by rewrite (proj2 (set_to_list_nil _) He). Qed.

Lemma greedy_first_max self state :
  Nim.available_actions state ≠ ∅ →
  ∃ a, greedy self state = Some a ∧
       QTable.first_max (value self state)
         (set_to_list (Nim.available_actions state)) a.
Proof.
  intros Hne. unfold greedy.
  destruct (QTable.scan_best_spec (value self state)
              (set_to_list (Nim.available_actions state))) as (a & -> & Ha).
  - by rewrite set_to_list_nil.
  - by exists a.
Qed.

Lemma greedy_available self state a :
  greedy self state = Some a → a ∈ Nim.available_actions state.
Proof.
  intros Hg. destruct (decide (Nim.available_actions state = ∅)) as [He|Hne].
  - by rewrite greedy_empty in Hg.
  - destruct (greedy_first_max self state Hne) as (a' & Ha' & Hm).
    rewrite Hg in Ha'. injection Ha' as <-.
    by apply QTable.first_max_elem_of, elem_of_set_to_list in Hm.
Qed.

Lemma choose_action_no_explore self state g :
  choose_action self state false g = Ok (greedy self state, g).
Proof. by rewrite choose_action_unfold. Qed.

Lemma choose_action_explore_greedy self state g :
  (epsilon self <= (random g).1)%Q →
  choose_action self state true g = Ok (greedy self state, (random g).2).
Proof.
  intros Hu. rewrite choose_action_unfold.
  rewrite (bind_Ok _ _ _ _ _ (random_random_Ok g)).
  by rewrite bool_decide_eq_false_2 by lra.
Qed.

Lemma choose_action_explore_random self state g :
  ((random g).1 < epsilon self)%Q →
  choose_action self state true g =
  (let* a := choice (set_to_list (Nim.available_actions state)) in ret (Some a))
    (random g).2.
Proof.
  intros Hu. rewrite choose_action_unfold.
  rewrite (bind_Ok _ _ _ _ _ (random_random_Ok g)).
  by rewrite bool_decide_eq_true_2.
Qed.

Lemma choose_action_legal self state explore g :
  Nim.available_actions state ≠ ∅ →
  ∃ a g', choose_action self state explore g = Ok (Some a, g') ∧
          a ∈ Nim.available_actions state.
Proof.
  intros Hne. destruct (greedy_first_max self state Hne) as (a & Hg & _).
  destruct explore; [|rewrite choose_action_no_explore, Hg;
                      eauto using greedy_available].
  destruct (decide ((random g).1 < epsilon self)%Q) as [Hu|Hu].
  - rewrite choose_action_explore_random by done.
    destruct (choice_elem_of (set_to_list (Nim.available_actions state))
                (random g).2) as (x & g' & Hc & Hx); [by rewrite set_to_list_nil|].
    rewrite (bind_Ok _ _ _ _ _ Hc). exists x, g'.
    split; [done | by apply elem_of_set_to_list].
  - rewrite choose_action_explore_greedy, Hg by lra.
    eauto using greedy_available.
Qed.

Lemma greedy_value self state a :
  greedy self state = Some a → best_future_reward self state = value self state a.
Proof.
  intros Hg. pose proof (greedy_available _ _ _ Hg) as Ha.
  rewrite best_future_reward_unfold, QTable.scan_max_scan_best.
  destruct (QTable.scan_best_spec (value self state)
              (set_to_list (Nim.available_actions state))) as (a' & Hs & _).
  - rewrite set_to_list_nil. set_solver.
  - unfold greedy in Hg. rewrite Hs in Hg |- *. by simplify_eq/=.
Qed.

Lemma value_le_best_future_reward self state a :
  a ∈ Nim.available_actions state →
  value self state a <= best_future_reward self state.
Proof.
  intros Ha. destruct (best_future_reward_first_max self state)
    as (b & -> & Hb); [set_solver|].
  eapply QTable.first_max_ub; [done | by apply elem_of_set_to_list].
Qed.

Lemma update_model_get self old_state a new_state reward state' a' :
  get_q_value (update_model self old_state a new_state reward) state' a' =
  if decide ((old_state, a) = (state', a'))
  then QTable.td_update (alpha self) (get_q_value self old_state a) reward
         (best_future_reward self new_state)
  else get_q_value self state' a'.
Proof. unfold get_q_value. rewrite update_model_unfold. apply QTable.get_set. Qed.

End with_runtime.

(** ** Learners that read alike, and the order of the actions *)

(** Two learners are equivalent when their tables read alike and their
    hyperparameters are equal as rationals. *)
Definition equiv (self1 self2 : t) : Prop :=
  q self1 ≡q q self2 ∧ alpha self1 == alpha self2 ∧
  epsilon self1 == epsilon self2.

#[global] Instance learner_equivalence : Equivalence equiv.
Proof.
  split.
  - intros self. by split_and!.
  - intros ?? (? & ? & ?). by split_and!; symmetry.
  - intros ??? (? & ? & ?) (? & ? & ?). by split_and!; etrans.
Qed.

Section orders.
Context (O1 O2 : SetOrder action).

Lemma value_equiv self1 self2 state a :
  equiv self1 self2 → value self1 state a == value self2 state a.
Proof. intros [Hq _]. apply Hq. Qed.

(** The bootstrap target is the same for equivalent learners, whatever
    the order in which the set of actions is listed. *)
Lemma best_future_reward_equiv self1 self2 state :
  equiv self1 self2 →
  best_future_reward (HO:=O1) self1 state
  == best_future_reward (HO:=O2) self2 state.
Proof.
  intros He. destruct (decide (Nim.available_actions state = ∅)) as [Hn|Hn].
  - by rewrite !best_future_reward_empty.
  - destruct (best_future_reward_first_max (HO:=O1) self1 state Hn)
      as (a1 & -> & H1).
    destruct (best_future_reward_first_max (HO:=O2) self2 state Hn)
      as (a2 & -> & H2).
    eapply QTable.first_max_perm_value;
      [|intros b; by apply value_equiv|done..].
    apply set_to_list_orders.
Qed.

Lemma update_model_equiv self1 self2 old_state a new_state reward1 reward2 :
  equiv self1 self2 → reward1 == reward2 →
  equiv (update_model (HO:=O1) self1 old_state a new_state reward1)
        (update_model (HO:=O2) self2 old_state a new_state reward2).
Proof.
  intros He Hr. pose proof He as (Hq & Ha & Hε).
  rewrite !update_model_unfold. split_and!; [|done..]. simpl.
  apply QTable.set_proper; try done.
  apply QTable.td_update_proper; try done; [apply Hq|].
  by apply best_future_reward_equiv.
Qed.

End orders.

#[global] Instance best_future_reward_proper `{HO : !SetOrder action} :
  Proper (equiv ==> eq ==> Qeq) best_future_reward.
Proof. intros self1 self2 He state ? <-. by apply best_future_reward_equiv. Qed.

#[global] Instance update_model_proper `{HO : !SetOrder action} :
  Proper (equiv ==> eq ==> eq ==> eq ==> Qeq ==> equiv) update_model.
Proof.
  intros self1 self2 He s ? <- a ? <- s' ? <- r1 r2 Hr.
  by apply update_model_equiv.
Qed.

(** ** Main theorems of the component *)

Section main.
Context `{HG : RandomGen G} `{HO : !SetOrder action}.

(** C11: Without exploration [choose_action] draws nothing and, on a
    position with a legal action, returns the first action in the
    listing order whose estimate is greatest: every legal action has an
    estimate at most its own, and every action listed before it a
    strictly smaller one. *)
Theorem qlearning_greedy_choice self state (g : G) :
  Nim.available_actions state ≠ ∅ →
  ∃ a, choose_action self state false g = Ok (Some a, g) ∧
       a ∈ Nim.available_actions state ∧
       (∀ b, b ∈ Nim.available_actions state →
             (get_q_value self state (Some b) <= get_q_value self state (Some a))%Q) ∧
       QTable.first_max (λ b, get_q_value self state (Some b))
         (set_to_list (Nim.available_actions state)) a.
Proof.
  intros Hne. destruct (greedy_first_max self state Hne) as (a & Hg & Hm).
  exists a. rewrite choose_action_no_explore, Hg. split_and!; [done | | | done].
  - by eapply greedy_available.
  - intros b Hb%elem_of_set_to_list. by eapply (QTable.first_max_ub _ _ _ _ Hm).
Qed.

(** C15: With exploration [choose_action] draws once; a draw of at least
    [epsilon] returns the greedy action, a draw below [epsilon] returns
    the action [random.choice] picks from the list of legal actions,
    whatever the greedy one is. On a position with a legal action the
    result is a legal action in both cases. *)
Theorem qlearning_explore_choice self state (g : G) :
  Nim.available_actions state ≠ ∅ →
  ∃ a g', choose_action self state true g = Ok (Some a, g') ∧
    a ∈ Nim.available_actions state ∧
    if decide ((random g).1 < epsilon self)%Q
    then choice (set_to_list (Nim.available_actions state)) (random g).2
         = Ok (a, g')
    else choose_action self state false g = Ok (Some a, g) ∧ g' = (random g).2.
Proof.
  intros Hne. destruct (greedy_first_max self state Hne) as (a & Hg & _).
  case_decide as Hu.
  - rewrite choose_action_explore_random by done.
    destruct (choice_elem_of (set_to_list (Nim.available_actions state))
                (random g).2) as (x & g' & Hc & Hx); [by rewrite set_to_list_nil|].
    exists x, g'. rewrite (bind_Ok _ _ _ _ _ Hc).
    split_and!; [done | by apply elem_of_set_to_list | done].
  - exists a, (random g).2.
    rewrite choose_action_explore_greedy, choose_action_no_explore, Hg by lra.
    eauto using greedy_available.
Qed.

(** C30: On a position without legal action the off-policy learner's
    [choose_action] returns [None] when it does not explore, and raises
    [IndexError] from [random.choice] when it explores and the draw is
    below [epsilon]. *)
Theorem qlearning_choose_empty self state (g : G) :
  Nim.available_actions state = ∅ →
  choose_action self state false g = Ok (None, g) ∧
  choose_action self state true g =
    if decide ((random g).1 < epsilon self)%Q then Raise IndexError
    else Ok (None, (random g).2).
Proof.
  intros He. rewrite choose_action_no_explore, greedy_empty by done.
  split; [done|]. case_decide.
  - rewrite choose_action_explore_random by done.
    by rewrite (proj2 (set_to_list_nil _) He).
  - rewrite choose_action_explore_greedy, greedy_empty by (done || lra). done.
Qed.

(** C14: [best_future_reward] is 0 on a position without legal action;
    otherwise it is the estimate of a legal action and no legal action
    has a greater one. *)
Theorem best_future_reward_is_max self state :
  if decide (Nim.available_actions state = ∅)
  then best_future_reward self state = 0%Q
  else ∃ a, a ∈ Nim.available_actions state ∧
            best_future_reward self state = get_q_value self state (Some a) ∧
            ∀ b, b ∈ Nim.available_actions state →
                 (get_q_value self state (Some b) <= best_future_reward self state)%Q.
Proof.
  case_decide as He; [by apply best_future_reward_empty|].
  destruct (best_future_reward_first_max self state He) as (a & Ha & Hm).
  exists a. split_and!; [|done|].
  - by apply QTable.first_max_elem_of, elem_of_set_to_list in Hm.
  - intros b Hb. by apply value_le_best_future_reward.
Qed.

(** C4: [update_model] stores, under (old state, action), the old
    estimate moved by alpha towards reward plus the greatest estimate of
    the new state; every other entry reads as before and alpha and
    epsilon do not change. *)
Theorem qlearning_update_entry self old_state a new_state reward state' a' :
  let self' := update_model self old_state a new_state reward in
  get_q_value self' old_state a =
    (get_q_value self old_state a +
     alpha self * (reward + best_future_reward self new_state -
                   get_q_value self old_state a))%Q ∧
  ((old_state, a) ≠ (state', a') →
     get_q_value self' state' a' = get_q_value self state' a') ∧
  alpha self' = alpha self ∧ epsilon self' = epsilon self.
Proof.
  simpl. rewrite !update_model_get. split_and!; [|intros|done..].
  - by rewrite decide_True.
  - by rewrite decide_False.
Qed.

End main.

(** Witnesses: the learner after one lost game from [1, 1], on the tape
    generator and the order of [elements]. *)
(** C27: The off-policy update does not depend on the order in which
    Python lists the set of legal actions, nor on how the table holds
    its estimates. For two learners whose tables read alike, and any
    two listing orders, the bootstrap targets are equal and the updated
    learners again read alike. *)
Theorem qlearning_update_any_order (O1 O2 : SetOrder action) self1 self2
    old_state a new_state reward :
  equiv self1 self2 →
  best_future_reward (HO:=O1) self1 new_state
  == best_future_reward (HO:=O2) self2 new_state ∧
  equiv (update_model (HO:=O1) self1 old_state a new_state reward)
        (update_model (HO:=O2) self2 old_state a new_state reward).
Proof.
  intros He. split; [by apply best_future_reward_equiv|].
  by apply update_model_equiv.
Qed.

Definition demo : t :=
  {| q := {[ ([1; 1]%Z, Some (0, 1)%Z) := -1 # 2 ]};
     alpha := 1 # 2; epsilon := 1 # 10 |}.

Lemma qlearning_update_any_order_witness :
  best_future_reward (HO:=elements_order action) demo [1; 1]%Z
  == best_future_reward (HO:=reverse_order action) demo [1; 1]%Z ∧
  equiv (update_model (HO:=elements_order action) demo [1; 2]%Z
           (Some (1, 1)%Z) [1; 1]%Z 0)
        (update_model (HO:=reverse_order action) demo [1; 2]%Z
           (Some (1, 1)%Z) [1; 1]%Z 0).
Proof.
  apply (qlearning_update_any_order (elements_order action)
           (reverse_order action) demo demo [1; 2]%Z (Some (1, 1)%Z)
           [1; 1]%Z 0).
  reflexivity.
Defined.

Lemma qlearning_greedy_choice_witness :
  ∃ a, choose_action (HO:=elements_order action) demo [1; 1]%Z false
         ([] : tape) = Ok (Some a, []) ∧
       a ∈ Nim.available_actions [1; 1]%Z ∧
       (∀ b, b ∈ Nim.available_actions [1; 1]%Z →
             (get_q_value demo [1; 1]%Z (Some b) <=
              get_q_value demo [1; 1]%Z (Some a))%Q) ∧
       QTable.first_max (λ b, get_q_value demo [1; 1]%Z (Some b))
         (set_to_list (SetOrder:=elements_order action)
            (Nim.available_actions [1; 1]%Z)) a.
Proof.
  apply (qlearning_greedy_choice (HO:=elements_order action) demo [1; 1]%Z
           ([] : tape)).
  by_decide.
Defined.

Lemma qlearning_explore_choice_witness :
  ∃ a g', choose_action (HO:=elements_order action) demo [1; 1]%Z true
            ([50; 0]%nat : tape) = Ok (Some a, g') ∧
    a ∈ Nim.available_actions [1; 1]%Z ∧
    if decide ((random ([50; 0]%nat : tape)).1 < epsilon demo)%Q
    then choice (set_to_list (SetOrder:=elements_order action)
                   (Nim.available_actions [1; 1]%Z))
           (random ([50; 0]%nat : tape)).2 = Ok (a, g')
    else choose_action (HO:=elements_order action) demo [1; 1]%Z false
           ([50; 0]%nat : tape) = Ok (Some a, [50; 0]%nat) ∧
         g' = (random ([50; 0]%nat : tape)).2.
Proof.
  apply (qlearning_explore_choice (HO:=elements_order action) demo [1; 1]%Z
           ([50; 0]%nat : tape)).
  by_decide.
Defined.

Lemma qlearning_choose_empty_witness :
  choose_action (HO:=elements_order action) demo [0; 0]%Z false
    ([50; 0]%nat : tape) = Ok (None, [50; 0]%nat) ∧
  choose_action (HO:=elements_order action) demo [0; 0]%Z true
    ([50; 0]%nat : tape) =
    if decide ((random ([50; 0]%nat : tape)).1 < epsilon demo)%Q
    then Raise IndexError
    else Ok (None, (random ([50; 0]%nat : tape)).2).
Proof.
  apply (qlearning_choose_empty (HO:=elements_order action) demo [0; 0]%Z
           ([50; 0]%nat : tape)).
  reflexivity.
Defined.

End QLearning.

(** ** The class [QLearning] implements the interface *)

Section agent.
Context `{RandomGen G} `{!SetOrder action}.

#[export] Instance qlearning_agent : Agent G QLearning.t := {|
  choose_action := QLearning.choose_action;
  update_model self old_state a new_state reward :=
    ret (QLearning.update_model self old_state a new_state reward);
  table := QLearning.q;
  rate := QLearning.alpha
|}.

#[export] Instance qlearning_laws : AgentLaws G QLearning.t.
Proof.
  split; simpl.
  - apply QLearning.choose_action_legal.
  - intros self state g Hne. rewrite QLearning.choose_action_no_explore.
    destruct (QLearning.greedy_first_max self state Hne) as (a & -> & _). eauto.
  - intros. eexists _, _. split; [done|]. done.
  - intros self self' old_state a new_state reward g g' k [= <- <-] Hk.
    simpl. by apply lookup_insert_ne.
  - intros self self' old_state a new_state reward g g' [= <- <-].
    apply QLearning.update_model_inv_step.
Qed.

#[export] Instance qlearning_terminal : TerminalUpdate G QLearning.t.
Proof.
  split. intros self old_state a new_state reward g He _. simpl.
  eexists. split_and!; [done..|]. rewrite QLearning.update_model_unfold.
  by rewrite QLearning.best_future_reward_empty.
Qed.

End agent.
