(* ===== verification/OnPolicy.v ===== *)
(** OnPolicy: the class [SARSA] of src/sarsa.py, the learner whose
    bootstrap target is the estimate of the action its own policy picks
    in the next state, exploration included. *)

From Stdlib Require Import QArith Lqa.
From stdpp Require Import base numbers list gmap sets.
From S2P Require Import Prelude Runtime GameState ValueTable Learner OffPolicy.

Set Warnings "-clear-no-such-hyp".
#[local] Open Scope py_scope.
#[local] Open Scope Q_scope.

Module SARSA.

(** The three attributes [__init__] sets. *)
Record t : Type := Make {
  q : gmap QTable.key Q;
  alpha : Q;
  epsilon : Q
}.

Definition init (alpha epsilon : Q) : t :=
  {| q := QTable.empty; alpha := alpha; epsilon := epsilon |}.

(** [SARSA()]: alpha = 0.5, epsilon = 0.1. *)
Definition default : t := init (1 # 2) (1 # 10).

Definition get_q_value (self : t) (state : list Z) (a : option action) : Q :=
  QTable.get (q self) state a.

Definition update_value (self : t) (old_state : list Z) (a : option action)
    (old_q reward future_rewards : Q) : t :=
  let new_q := QTable.td_update (alpha self) old_q reward future_rewards in
  {| q := QTable.set (q self) old_state a new_q;
     alpha := alpha self; epsilon := epsilon self |}.

Section with_runtime.
Context `{HG : RandomGen G} `{HO : !SetOrder action}.

(** [choose_action(state, epsilon)], the flag called [explore] here. An
    empty list of actions returns [None] before anything is drawn. *)
Definition choose_action (self : t) (state : list Z) (explore : bool)
    : M G (option action) :=
  let actions := set_to_list (Nim.available_actions state) in
  if bool_decide (actions = []) then ret None
  else
    let '(best_action, _) :=
      foldl (QTable.scan_step (λ a, get_q_value self state (Some a)))
            (None, QTable.NegInf) actions in
    if explore then
      let* u := random_random in
      if bool_decide (u < epsilon self)
      then let* a := choice actions in ret (Some a)
      else ret best_action
    else ret best_action.

(** [update_model]: the next action is chosen with exploration on, and
    its estimate (0 for [None]) is the target. *)
Definition update_model (self : t) (old_state : list Z) (a : option action)
    (new_state : list Z) (reward : Q) : M G t :=
  let old_q := get_q_value self old_state a in
  let* next_action := choose_action self new_state true in
  let future_reward := get_q_value self new_state next_action in
  ret (update_value self old_state a old_q reward future_reward).

(** ** Specification: the same agent as an off-policy learner *)

Definition to_qlearning (self : t) : QLearning.t :=
  {| QLearning.q := q self; QLearning.alpha := alpha self;
     QLearning.epsilon := epsilon self |}.

Definition of_qlearning (self : QLearning.t) : t :=
  {| q := QLearning.q self; alpha := QLearning.alpha self;
     epsilon := QLearning.epsilon self |}.

(** ** [choose_action] *)

Lemma choose_action_empty self state explore g :
  Nim.available_actions state = ∅ →
  choose_action self state explore g = Ok (None, g).
Proof.
  intros He. unfold choose_action.
  by rewrite (proj2 (set_to_list_nil _) He).
Qed.

Lemma choose_action_qlearning self state explore :
  Nim.available_actions state ≠ ∅ →
  choose_action self state explore =
  QLearning.choose_action (to_qlearning self) state explore.
Proof.
  intros Hne. unfold choose_action, QLearning.choose_action.
  rewrite bool_decide_eq_false_2; [done|]. by rewrite set_to_list_nil.
Qed.

Lemma sarsa_choose_legal self state explore g :
  Nim.available_actions state ≠ ∅ →
  ∃ a g', choose_action self state explore g = Ok (Some a, g') ∧
          a ∈ Nim.available_actions state.
Proof.
  intros Hne. rewrite choose_action_qlearning by done.
  by apply QLearning.choose_action_legal.
Qed.

Lemma choose_action_total self state explore g :
  ∃ oa g', choose_action self state explore g = Ok (oa, g') ∧
    match oa with
    | Some a => a ∈ Nim.available_actions state
    | None => Nim.available_actions state = ∅
    end.
Proof.
  destruct (decide (Nim.available_actions state = ∅)) as [He|Hne].
  - rewrite choose_action_empty by done. by exists None, g.
  - destruct (sarsa_choose_legal self state explore g Hne) as (a & g' & ? & ?).
    by exists (Some a), g'.
Qed.

(** ** [update_model] *)

Lemma update_model_Ok self old_state a new_state reward g :
  ∃ oa g', choose_action self new_state true g = Ok (oa, g') ∧
    update_model self old_state a new_state reward g =
    Ok (update_value self old_state a (get_q_value self old_state a) reward
          (get_q_value self new_state oa), g') ∧
    match oa with
    | Some a' => a' ∈ Nim.available_actions new_state
    | None => Nim.available_actions new_state = ∅
    end.
Proof.
  destruct (choose_action_total self new_state true g) as (oa & g' & Hc & Ha).
  exists oa, g'. split_and!; [done | | done].
  unfold update_model. by rewrite (bind_Ok _ _ _ _ _ Hc).
Qed.

Lemma update_model_terminal self old_state a new_state reward g :
  Nim.available_actions new_state = ∅ →
  update_model self old_state a new_state reward g =
  Ok (update_value self old_state a (get_q_value self old_state a) reward
        (get_q_value self new_state None), g).
Proof.
  intros He. unfold update_model.
  by rewrite (bind_Ok _ _ _ _ _ (choose_action_empty self new_state true g He)).
Qed.

Lemma sarsa_update_inv_step self self' old_state a new_state reward g g' :
  update_model self old_state (Some a) new_state reward g = Ok (self', g') →
  0 <= alpha self <= 1 → QTable.inv (q self) →
  reward_ok new_state reward →
  QTable.inv (q self').
Proof.
  intros Hu Ha Hi Hr.
  destruct (update_model_Ok self old_state (Some a) new_state reward g)
    as (oa & g1 & _ & Hu' & Hoa).
  rewrite Hu in Hu'. injection Hu' as -> ->. simpl.
  apply QTable.inv_set; [done|]. destruct Hi as [Hb Hz].
  apply QTable.td_update_bounds; [done | apply Hb |].
  pose proof (Hb new_state oa). unfold get_q_value.
  destruct Hr as [Hr|(He & Hr)]; [lra|].
  destruct oa as [a'|]; [set_solver|]. specialize (Hz new_state). lra.
Qed.

Lemma update_value_to_qlearning self old_state a old_q reward future :
  update_value self old_state a old_q reward future =
  of_qlearning (QLearning.update_value (to_qlearning self) old_state a old_q
                  reward future).
Proof. done. Qed.

End with_runtime.

(** ** Main theorems of the component *)

Section main.
Context `{HG : RandomGen G} `{HO : !SetOrder action}.

(** C29: The two classes choose alike: on a position with a legal action
    SARSA's [choose_action] is the off-policy learner's on the same
    table and hyperparameters, for either value of the flag and every
    generator state; on a position without one it returns [None] and
    draws nothing, where the off-policy learner may raise. *)
Theorem sarsa_choose_action_agrees self state explore (g : G) :
  choose_action self state explore g =
  if decide (Nim.available_actions state = ∅) then Ok (None, g)
  else QLearning.choose_action (to_qlearning self) state explore g.
Proof.
  case_decide.
  - by apply choose_action_empty.
  - by rewrite choose_action_qlearning.
Qed.

(** C5: SARSA's [update_model] never raises. It stores, under (old
    state, action), the old estimate moved by alpha towards reward plus
    the estimate of the action its own [choose_action], exploring,
    picks in the new state; that action is a legal one, or [None] when
    the new state has none. *)
Theorem sarsa_update_entry self old_state a new_state reward (g : G) :
  ∃ next_action g' self',
    choose_action self new_state true g = Ok (next_action, g') ∧
    update_model self old_state a new_state reward g = Ok (self', g') ∧
    match next_action with
    | Some a' => a' ∈ Nim.available_actions new_state
    | None => Nim.available_actions new_state = ∅
    end ∧
    get_q_value self' old_state a =
      (get_q_value self old_state a +
       alpha self * (reward + get_q_value self new_state next_action -
                     get_q_value self old_state a))%Q ∧
    alpha self' = alpha self ∧ epsilon self' = epsilon self.
Proof.
  destruct (update_model_Ok self old_state a new_state reward g)
    as (oa & g' & Hc & Hu & Hoa).
  eexists oa, g', _. split_and!; [done..| |done|done].
  unfold get_q_value at 1. simpl. by rewrite QTable.get_set_eq.
Qed.

(** C10: When the exploring draw is at least [epsilon], the on-policy
    update is the off-policy update: on a new state with a legal action
    SARSA's [update_model] produces the table that [QLearning]'s
    produces from the same table, because the action it picks is the
    greedy one and its estimate is the maximum. *)
Theorem sarsa_update_greedy_is_qlearning self old_state a new_state reward (g : G) :
  Nim.available_actions new_state ≠ ∅ → (epsilon self <= (random g).1)%Q →
  update_model self old_state a new_state reward g =
  Ok (of_qlearning
        (QLearning.update_model (to_qlearning self) old_state a new_state reward),
      (random g).2).
Proof.
  intros Hne Hu.
  destruct (QLearning.greedy_first_max (to_qlearning self) new_state Hne)
    as (a' & Hg & _).
  unfold update_model. rewrite choose_action_qlearning by done.
  rewrite (bind_Ok _ _ _ _ _
             (QLearning.choose_action_explore_greedy (to_qlearning self)
                new_state g Hu)), Hg.
  rewrite update_value_to_qlearning. unfold QLearning.update_model.
  by rewrite (QLearning.greedy_value _ _ _ Hg).
Qed.

(** C32: The on-policy target never exceeds the off-policy target: the
    estimate SARSA bootstraps from is at most [best_future_reward] of
    the same table whenever the new state has a legal action. *)
Theorem sarsa_target_le_qlearning_target self new_state (g : G) :
  Nim.available_actions new_state ≠ ∅ →
  ∃ next_action g',
    choose_action self new_state true g = Ok (next_action, g') ∧
    (get_q_value self new_state next_action <=
     QLearning.best_future_reward (to_qlearning self) new_state)%Q.
Proof.
  intros Hne. destruct (sarsa_choose_legal self new_state true g Hne)
    as (a' & g' & Hc & Ha).
  exists (Some a'), g'. split; [done|].
  by apply (QLearning.value_le_best_future_reward (to_qlearning self)).
Qed.

(** C31: On a new state without legal action the on-policy update draws
    nothing and its target is the entry stored under "no action", which
    is 0 in every table that satisfies the invariant. *)
Theorem sarsa_terminal_target self old_state a new_state reward (g : G) :
  Nim.available_actions new_state = ∅ → QTable.inv (q self) →
  ∃ self', update_model self old_state a new_state reward g = Ok (self', g) ∧
    (get_q_value self' old_state a ==
     get_q_value self old_state a +
     alpha self * (reward + 0 - get_q_value self old_state a))%Q.
Proof.
  intros He [_ Hz]. rewrite update_model_terminal by done.
  eexists. split; [done|]. unfold get_q_value at 1. simpl.
  rewrite QTable.get_set_eq. unfold QTable.td_update, get_q_value.
  by rewrite (Hz new_state).
Qed.

End main.

(** Witnesses: the on-policy learner after one lost game from [1, 1]. *)
Definition demo : t :=
  {| q := {[ ([1; 1]%Z, Some (0, 1)%Z) := -1 # 2 ]};
     alpha := 1 # 2; epsilon := 1 # 10 |}.

Lemma sarsa_update_greedy_is_qlearning_witness :
  update_model (HO:=elements_order action) demo [1; 3]%Z (Some (1, 2)%Z)
    [1; 1]%Z 0 ([500]%nat : tape) =
  Ok (of_qlearning
        (QLearning.update_model (HO:=elements_order action) (to_qlearning demo)
           [1; 3]%Z (Some (1, 2)%Z) [1; 1]%Z 0),
      (random ([500]%nat : tape)).2).
Proof.
  apply (sarsa_update_greedy_is_qlearning (HO:=elements_order action) demo
           [1; 3]%Z (Some (1, 2)%Z) [1; 1]%Z 0 ([500]%nat : tape));
    by_decide.
Defined.

Lemma sarsa_target_le_qlearning_target_witness :
  ∃ next_action g',
    choose_action (HO:=elements_order action) demo [1; 1]%Z true
      ([50; 0]%nat : tape) = Ok (next_action, g') ∧
    (get_q_value demo [1; 1]%Z next_action <=
     QLearning.best_future_reward (HO:=elements_order action)
       (to_qlearning demo) [1; 1]%Z)%Q.
Proof.
  apply (sarsa_target_le_qlearning_target (HO:=elements_order action) demo
           [1; 1]%Z ([50; 0]%nat : tape)).
  by_decide.
Defined.

Lemma sarsa_terminal_target_witness :
  ∃ self', update_model (HO:=elements_order action) demo [0; 1]%Z
             (Some (1, 1)%Z) [0; 0]%Z 1 ([] : tape) = Ok (self', []) ∧
    (get_q_value self' [0; 1]%Z (Some (1, 1)%Z) ==
     get_q_value demo [0; 1]%Z (Some (1, 1)%Z) +
     alpha demo * (1 + 0 - get_q_value demo [0; 1]%Z (Some (1, 1)%Z)))%Q.
Proof.
  apply (sarsa_terminal_target (HO:=elements_order action) demo [0; 1]%Z
           (Some (1, 1)%Z) [0; 0]%Z 1 ([] : tape)); [reflexivity|].
  apply QTable.inv_set; [apply QTable.inv_empty | by_decide].
Defined.

End SARSA.

(** ** The class [SARSA] implements the interface *)

Section agent.
Context `{RandomGen G} `{!SetOrder action}.

#[export] Instance sarsa_agent : Agent G SARSA.t := {|
  choose_action := SARSA.choose_action;
  update_model := SARSA.update_model;
  table := SARSA.q;
  rate := SARSA.alpha
|}.

#[export] Instance sarsa_laws : AgentLaws G SARSA.t.
Proof.
  split; simpl.
  - apply SARSA.sarsa_choose_legal.
  - intros self state g Hne. rewrite SARSA.choose_action_qlearning by done.
    rewrite QLearning.choose_action_no_explore.
    destruct (QLearning.greedy_first_max (SARSA.to_qlearning self) state Hne)
      as (a & -> & _). eauto.
  - intros self old_state a new_state reward g.
    destruct (SARSA.update_model_Ok self old_state a new_state reward g)
      as (oa & g' & _ & -> & _). eauto.
  - intros self self' old_state a new_state reward g g' k Hu Hk.
    destruct (SARSA.update_model_Ok self old_state a new_state reward g)
      as (oa & g1 & _ & Hu' & _).
    rewrite Hu in Hu'. injection Hu' as -> ->. simpl. by apply lookup_insert_ne.
  - apply SARSA.sarsa_update_inv_step.
Qed.

#[export] Instance sarsa_terminal : TerminalUpdate G SARSA.t.
Proof.
  split. intros self old_state a new_state reward g He Hnone. simpl.
  rewrite SARSA.update_model_terminal by done.
  eexists. split_and!; [done..|]. simpl.
  apply QTable.set_proper; try done.
  apply QTable.td_update_proper; try done. apply Hnone.
Qed.

End agent.
