(* ===== verification/EpisodeRunner.v ===== *)
(** EpisodeRunner: [run_game_episode] and [train] of src/engine.py,
    written against the interface of Learner.v: one game from the
    initial position to a winner, the seats taken by one agent
    (self-play) or by an agent and an opponent, every ply followed by
    the updates the source emits; and the episodes of training, one
    after the other on the same agent. *)

From Stdlib Require Import QArith Lqa.
From stdpp Require Import base numbers list gmap sets.
From S2P Require Import Prelude Runtime GameState ValueTable Learner.

Set Warnings "-clear-no-such-hyp".
#[local] Open Scope py_scope.
#[local] Open Scope Z_scope.

Module Engine.

(** An entry of the dictionary [last]: the state and the action of a
    seat's latest ply, both [None] before its first. *)
Record last_entry : Type := LastEntry {
  last_state : option (list Z);
  last_action : option action
}.

(** [last = {0: {...None...}, 1: {...None...}}] *)
Definition initial_last : gmap Z last_entry :=
  {[ 0 := LastEntry None None; 1 := LastEntry None None ]}.

(** [last[player]], a [KeyError] at a key that is not there. *)
Definition lookup_last {G} (last : gmap Z last_entry) (player : Z)
    : M G last_entry :=
  match last !! player with
  | Some entry => ret entry
  | None => raise KeyError
  end.

Section engine.
Context `{RandomGen G} {L1 L2 : Type} `{!Agent G L1} `{!Agent G L2}.

(** The two objects the runner is given; Python mutates them in place,
    the model returns them. *)
Record players : Type := Players {
  agent : L1;
  opponent : option L2
}.

(** The test [opponent is not None and player == 1] picks the object
    that acts for a seat; it guards the three call sites below. *)
Definition choose (who : players) (player : Z) (state : list Z)
    : M G (option action) :=
  match opponent who with
  | Some opp =>
    if decide (player = 1) then choose_action opp state true
    else choose_action (agent who) state true
  | None => choose_action (agent who) state true
  end.

Definition update (who : players) (player : Z) (old_state : list Z)
    (a : option action) (new_state : list Z) (reward : Q) : M G players :=
  match opponent who with
  | Some opp =>
    if decide (player = 1)
    then let* opp' := update_model opp old_state a new_state reward in
         ret {| agent := agent who; opponent := Some opp' |}
    else let* agent' := update_model (agent who) old_state a new_state reward in
         ret {| agent := agent'; opponent := Some opp |}
  | None =>
    let* agent' := update_model (agent who) old_state a new_state reward in
    ret {| agent := agent'; opponent := None |}
  end.

(** The body of [for player in (0, 1)] once the game has ended: reward
    +1 for the winner and -1 for the other seat, an update only for a
    seat that has moved. *)
Definition terminal_update (game : Nim.game) (last : gmap Z last_entry)
    (new_state : list Z) (who : players) (player : Z) : M G players :=
  let reward := (if decide (Nim.winner game = Some player) then 1 else -1)%Q in
  let* entry := lookup_last last player in
  match last_state entry, last_action entry with
  | Some state, Some a => update who player state (Some a) new_state reward
  | _, _ => ret who
  end.

(** The state of the loop. *)
Record episode : Type := Episode {
  game : Nim.game;
  last : gmap Z last_entry;
  who : players
}.

(** The body of [while game.winner is None]. *)
Definition ply (training : bool) (st : episode) : M G episode :=
  let state := Nim.piles (game st) in
  let* a := choose (who st) (Nim.player (game st)) state in
  let last := <[Nim.player (game st) := LastEntry (Some state) a]> (last st) in
  let* game := lift (Nim.move (game st) a) in
  let new_state := Nim.piles game in
  if training && bool_decide (Nim.winner game ≠ None) then
    let* who := terminal_update game last new_state (who st) 0 in
    let* who := terminal_update game last new_state who 1 in
    ret (Episode game last who)
  else if training then
    let* entry := lookup_last last (Nim.player game) in
    match last_state entry with
    | Some state =>
      let* who := update (who st) (Nim.player game) state (last_action entry)
                    new_state 0%Q in
      ret (Episode game last who)
    | None => ret (Episode game last (who st))
    end
  else ret (Episode game last (who st)).

Definition running (st : episode) : bool :=
  bool_decide (Nim.winner (game st) = None).

(** [run_game_episode] from any initial position; the source always
    starts from [Nim()], which is [run_game_episode] below. Returns
    [game.winner] and the two objects. *)
Definition run_game_episode_from (initial : list Z) (fuel : nat)
    (agent : L1) (opponent : option L2) (training : bool)
    : MF G (option Z * players) :=
  let+ st := while_loop fuel running (ply training)
               (Episode (Nim.init initial) initial_last
                        (Players agent opponent)) in
  retF (Nim.winner (game st), who st).

Definition run_game_episode (fuel : nat) (agent : L1) (opponent : option L2)
    (training : bool) : MF G (option Z * players) :=
  run_game_episode_from Nim.default_initial fuel agent opponent training.

(** ** Specification predicates *)

(** The dictionary [last] has both seats, and a seat that has a state
    recorded has an action recorded with it. *)
Definition last_ok (last : gmap Z last_entry) : Prop :=
  is_Some (last !! 0) ∧ is_Some (last !! 1) ∧
  ∀ p entry, last !! p = Some entry →
    is_Some (last_state entry) → is_Some (last_action entry).

Definition episode_inv (st : episode) : Prop :=
  Nim.wf (game st) ∧ Nim.terminal_inv (game st) ∧ last_ok (last st).

(** What is left to take, as the measure of the loop. *)
Definition plies_left (st : episode) : nat := Z.to_nat (Nim.remaining (game st)).

End engine.

Arguments players : clear implicits.
Arguments episode : clear implicits.

Section train.
Context `{RandomGen G} {L : Type} `{!Agent G L}.

(** [train(agent, n_episodes)]: self-play with training on, the agent
    of one episode handed to the next; from any initial position, as
    [run_game_episode_from]. *)
Definition train_from (initial : list Z) (fuel : nat) (agent : L)
    (n_episodes : Z) : MF G L :=
  repeat_loop (Z.to_nat n_episodes)
    (λ agent,
       let+ '(_, who) :=
         run_game_episode_from (L2:=L) initial fuel agent None true in
       retF (Engine.agent who))
    agent.

Definition train (fuel : nat) (agent : L) (n_episodes : Z) : MF G L :=
  train_from Nim.default_initial fuel agent n_episodes.

End train.

(** ** Evaluation *)

Section evaluation.
Context `{RandomGen G} {L1 L2 : Type} `{!Agent G L1} `{!Agent G L2}.
Implicit Types (st : episode L1 L2) (g : G).

(** With training off a ply changes neither agent. *)
Lemma ply_evaluation st g st' g' :
  ply false st g = Ok (st', g') → who st' = who st.
Proof.
  unfold ply. intros Hp. inv_bind Hp. inv_bind Hp. simpl in Hp.
  by injection Hp as <- _.
Qed.

End evaluation.

(** ** The runner against the laws of the interface *)

Section laws.
Context `{RandomGen G} {L1 L2 : Type} `{!Agent G L1} `{!Agent G L2}.
Context `{!AgentLaws G L1} `{!AgentLaws G L2}.
Implicit Types (who : players L1 L2) (st : episode L1 L2) (g : G).

Definition players_ok who : Prop :=
  agent_ok (agent who) ∧ from_option agent_ok True (opponent who).

Lemma initial_last_ok : last_ok initial_last.
Proof.
  unfold initial_last. split_and!; [by eexists..|].
  intros p e [[<- <-]|(_ & [<- <-]%lookup_singleton_Some)]%lookup_insert_Some;
    by intros [? [=]].
Qed.

Lemma last_ok_insert (last : gmap Z last_entry) p state a :
  last_ok last →
  last_ok (<[p := LastEntry (Some state) (Some a)]> last).
Proof.
  intros (H0 & H1 & Ha).
  split_and!; [apply lookup_insert_is_Some'; auto..|].
  intros p' e [[<- <-]|[_ He]]%lookup_insert_Some; [by eexists | eauto].
Qed.

Lemma lookup_last_returns (last : gmap Z last_entry) p g :
  last_ok last → p = 0 ∨ p = 1 →
  returns (lookup_last last p) g (λ entry, last !! p = Some entry).
Proof.
  intros (H0 & H1 & _) Hp. unfold lookup_last.
  assert (is_Some (last !! p)) as [e He] by (by destruct Hp as [-> | ->]).
  rewrite He. by apply returns_ret.
Qed.

Lemma choose_returns who p state g :
  Nim.available_actions state ≠ ∅ →
  returns (choose who p state) g
    (λ oa, ∃ a, oa = Some a ∧ a ∈ Nim.available_actions state).
Proof.
  intros Hne. unfold choose.
  destruct (opponent who); [case_decide|]; by apply choose_action_returns.
Qed.

Lemma update_returns who p old_state a new_state reward g :
  returns (update who p old_state (Some a) new_state reward) g
    (λ who', players_ok who → reward_ok new_state reward → players_ok who').
Proof.
  unfold update, players_ok.
  destruct (opponent who) as [opp|]; [case_decide|];
    (eapply returns_bind; [apply update_model_returns_ok|]);
    intros self' g' Hok; apply returns_ret; simpl; naive_solver.
Qed.

Lemma terminal_update_returns (game : Nim.game) last new_state who p g :
  last_ok last → p = 0 ∨ p = 1 →
  returns (terminal_update game last new_state who p) g
    (λ who', players_ok who → Nim.available_actions new_state = ∅ →
             players_ok who').
Proof.
  intros Hl Hp. unfold terminal_update.
  eapply returns_bind; [by apply lookup_last_returns|].
  intros [[state|] [a|]] g' _; simpl; try by apply returns_ret.
  eapply returns_mono; [apply update_returns|]. intros who' Hok ? He.
  apply Hok; [done|]. right. split; [done|]. case_decide; lra.
Qed.

(** A running game in a state that satisfies the invariant has a legal
    action. *)
Lemma running_available st :
  episode_inv st → running st = true →
  Nim.available_actions (Nim.piles (game st)) ≠ ∅.
Proof.
  intros ((Hp & _) & Ht & _) Hr%bool_decide_eq_true.
  apply Nim.available_actions_nonempty_pos; [done|].
  intros Hz%Ht. rewrite Hr in Hz. by destruct Hz.
Qed.

Lemma move_plies_left (game game' : Nim.game) a :
  Nim.wf game → Nim.move game a = Ok game' →
  (Z.to_nat (Nim.remaining game') < Z.to_nat (Nim.remaining game))%nat.
Proof.
  intros Hwf Hm. pose proof (Nim.move_decreases _ _ _ Hm).
  destruct (Nim.move_wf _ _ _ Hwf Hm) as [Hp _].
  pose proof (sumZ_nonneg _ Hp). unfold Nim.remaining in *. lia.
Qed.

(** One ply: it raises nothing, keeps the invariant, takes objects off
    the table, keeps agents in good standing, and leaves them alone when
    training is off. *)
Lemma ply_returns training st g :
  episode_inv st → running st = true →
  returns (ply training st) g
    (λ st', episode_inv st' ∧ (plies_left st' < plies_left st)%nat ∧
            (players_ok (who st) → players_ok (who st')) ∧
            (training = false → who st' = who st)).
Proof.
  intros Hinv Hrun. pose proof (running_available st Hinv Hrun) as Hne.
  destruct Hinv as (Hwf & Ht & Hl). apply bool_decide_eq_true in Hrun.
  unfold ply. eapply returns_bind; [by apply choose_returns|].
  intros ? g1 (a & -> & Ha).
  destruct (Nim.move_legal_Ok (game st) a) as [game' Hm];
    [done | by apply Nim.available_actions_legal|].
  eapply (returns_bind _ _ _ (λ x, x = game')); [by eapply returns_lift|].
  intros ? g2 ->.
  pose proof (Nim.move_wf _ _ _ Hwf Hm) as Hwf'.
  pose proof (Nim.move_terminal_inv _ _ _ Hm) as Ht'.
  pose proof (move_plies_left _ _ _ Hwf Hm) as Hlt.
  pose proof (last_ok_insert _ (Nim.player (game st))
                (Nim.piles (game st)) a Hl) as Hl'.
  assert (∀ who', episode_inv (Episode game' _ who')) as Hinv'
    by (intros; split_and!; simpl; [exact Hwf' | exact Ht' | exact Hl']).
  destruct training; simpl; [|by apply returns_ret].
  case_bool_decide as Hw.
  - assert (Nim.available_actions (Nim.piles game') = ∅) as He.
    { apply Nim.available_actions_all_zero, Ht'. by destruct (Nim.winner game'). }
    eapply returns_bind; [apply terminal_update_returns; auto|].
    intros who1 g3 H1.
    eapply returns_bind; [apply terminal_update_returns; auto|].
    intros who2 g4 H2. apply returns_ret. split_and!; auto. done.
  - eapply returns_bind;
      [apply lookup_last_returns; [done | apply Hwf']|].
    intros entry g3 Hentry. destruct (last_state entry) as [state|] eqn:Hs;
      [|apply returns_ret; split_and!; auto; done].
    destruct Hl' as (_ & _ & Hact).
    destruct (Hact _ _ Hentry) as [a' ->]; [by rewrite Hs|].
    eapply returns_bind; [apply update_returns|].
    intros who1 g4 H1. apply returns_ret. split_and!; auto; [|done].
    intros. apply H1; [done | by left].
Qed.

(** The invariant of the loop of [run_game_episode], relative to the
    players it started with. *)
Definition loop_inv (training : bool) who0 st : Prop :=
  episode_inv st ∧ (players_ok who0 → players_ok (who st)) ∧
  (training = false → who st = who0).

Lemma ply_loop_inv training who0 st g :
  loop_inv training who0 st → running st = true →
  returns (ply training st) g
    (λ st', loop_inv training who0 st' ∧ (plies_left st' < plies_left st)%nat).
Proof.
  intros (Hinv & Hok & Hsame) Hrun.
  eapply returns_mono; [by apply ply_returns|].
  intros st' (? & ? & ? & Hsame'). split; [|done].
  split_and!; [done | auto |]. intros ->. rewrite Hsame' by done. auto.
Qed.

Lemma initial_loop_inv training initial agent opponent :
  Forall (λ x, 0 ≤ x) initial → ¬ all_zero initial →
  loop_inv training (Players agent opponent)
    (Episode (Nim.init initial) initial_last (Players agent opponent)).
Proof.
  intros Hi Hnz. split_and!; [|done..]. split_and!; simpl.
  - by apply Nim.init_wf.
  - by apply Nim.init_terminal_inv.
  - apply initial_last_ok.
Qed.

Lemma finished_winner st :
  episode_inv st → running st = false →
  Nim.winner (game st) = Some 0 ∨ Nim.winner (game st) = Some 1.
Proof.
  intros ((_ & _ & Hw) & _) Hr%bool_decide_eq_false.
  destruct (Nim.winner (game st)) as [w|]; [|done].
  destruct Hw as [-> | ->]; auto.
Qed.

Lemma run_game_episode_from_returns initial fuel agent opponent training g :
  Forall (λ x, 0 ≤ x) initial → ¬ all_zero initial →
  (Z.to_nat (sumZ initial) ≤ fuel)%nat →
  returnsF (run_game_episode_from initial fuel agent opponent training) g
    (λ r, (r.1 = Some 0 ∨ r.1 = Some 1) ∧
          (players_ok (Players agent opponent) → players_ok r.2) ∧
          (training = false → r.2 = Players agent opponent)).
Proof.
  intros Hi Hnz Hfuel. unfold run_game_episode_from.
  eapply returnsF_bind.
  - apply (while_loop_total running (ply training)
             (loop_inv training (Players agent opponent)) plies_left);
      [apply ply_loop_inv | by apply initial_loop_inv | done].
  - intros st g' [(Hinv & Hok & Hsame) Hrun]. apply returnsF_ret. simpl.
    split_and!; [by apply finished_winner | done..].
Qed.

(** More fuel does not change what an episode returns. *)
Lemma run_game_episode_from_fuel_mono initial fuel fuel' (agent : L1)
    (opponent : option L2) training g r :
  run_game_episode_from initial fuel agent opponent training g = Some r →
  (fuel ≤ fuel')%nat →
  run_game_episode_from initial fuel' agent opponent training g = Some r.
Proof.
  unfold run_game_episode_from, bindF. intros Hrun Hfuel.
  destruct (while_loop fuel _ _ _ g) as [r1|] eqn:Hloop; [|done].
  by rewrite (while_loop_fuel_mono _ _ _ _ _ _ _ Hloop Hfuel).
Qed.

End laws.

Section train_laws.
Context `{RandomGen G} {L : Type} `{!Agent G L} `{!AgentLaws G L}.

Lemma train_returns fuel (agent : L) n_episodes g :
  (16 ≤ fuel)%nat → agent_ok agent →
  returnsF (train fuel agent n_episodes) g agent_ok.
Proof.
  intros Hfuel Hok. unfold train, train_from.
  apply (repeat_loop_total agent_ok); [|done]. clear agent g Hok.
  intros agent g Hok. eapply returnsF_bind.
  - apply (run_game_episode_from_returns (L2:=L) Nim.default_initial fuel
             agent None true g); [by_decide | by_decide | done].
  - intros [w who'] g' (_ & Hok' & _). apply returnsF_ret.
    by apply Hok'.
Qed.

End train_laws.

(** ** Main theorems of the component *)

Section main.
Context `{HG : RandomGen G} {L1 L2 : Type}.
Context `{HA1 : !Agent G L1} `{HA2 : !Agent G L2}.
Context `{HL1 : !AgentLaws G L1} `{HL2 : !AgentLaws G L2}.

(** C1: Every episode terminates with a winner. From the initial
    position [1, 3, 5, 7], with agents that satisfy the laws of the
    interface, [run_game_episode] raises no exception, leaves the loop
    within 16 plies whatever the agents choose and the generator draws,
    and returns seat 0 or seat 1 as the winner. *)
Theorem run_game_episode_terminates fuel (agent : L1) (opponent : option L2)
    training (g : G) :
  (16 ≤ fuel)%nat →
  ∃ w who' g',
    run_game_episode fuel agent opponent training g = Some (Ok ((Some w, who'), g')) ∧
    (w = 0 ∨ w = 1).
Proof.
  intros Hfuel.
  destruct (run_game_episode_from_returns Nim.default_initial fuel agent
              opponent training g) as ([w who'] & g' & Hr & Hw & _);
    [by_decide | by_decide | done |].
  simpl in Hw. destruct Hw as [-> | ->]; eauto 10.
Qed.

(** C33: The same from any initial position without negative pile and
    with at least one object, once the fuel covers the number of
    objects. *)
Theorem run_game_episode_from_terminates initial fuel (agent : L1)
    (opponent : option L2) training (g : G) :
  Forall (λ x, 0 ≤ x) initial → ¬ all_zero initial →
  (Z.to_nat (sumZ initial) ≤ fuel)%nat →
  ∃ w who' g',
    run_game_episode_from initial fuel agent opponent training g =
      Some (Ok ((Some w, who'), g')) ∧
    (w = 0 ∨ w = 1).
Proof.
  intros Hi Hnz Hfuel.
  destruct (run_game_episode_from_returns initial fuel agent opponent
              training g Hi Hnz Hfuel) as ([w who'] & g' & Hr & Hw & _).
  simpl in Hw. destruct Hw as [-> | ->]; eauto 10.
Qed.

(** C20: Evaluation does not learn: with training off, whatever the
    agents, the initial position and the fuel, the agent and the
    opponent an episode returns are the ones it was given. *)
Theorem evaluation_does_not_learn initial fuel (agent : L1)
    (opponent : option L2) (g : G) r g' :
  run_game_episode_from initial fuel agent opponent false g
  = Some (Ok (r, g')) →
  r.2 = Players agent opponent.
Proof.
  unfold run_game_episode_from.
  intros (st & g1 & Hloop & [= <- <-])%bindF_Ok_inv.
  apply (while_loop_inv _ _ (λ st _, who st = Players agent opponent))
    in Hloop as [? _]; [done| |done].
  intros st1 g2 st2 g3 <- _. apply ply_evaluation.
Qed.

(** C21: Estimates stay in [-1, 1] through an episode: if the learning
    rates are in [0, 1] and the tables satisfy the invariant before a
    training episode, they do after it. *)
Theorem episode_keeps_estimates_bounded fuel (agent : L1)
    (opponent : option L2) (g : G) r g' :
  (16 ≤ fuel)%nat →
  agent_ok agent → from_option agent_ok True opponent →
  run_game_episode fuel agent opponent true g = Some (Ok (r, g')) →
  QTable.bounded (table (Engine.agent r.2)) ∧
  from_option (λ opp, QTable.bounded (table opp)) True (Engine.opponent r.2).
Proof.
  intros Hfuel Hok1 Hok2 Hrun.
  destruct (run_game_episode_from_returns Nim.default_initial fuel agent
              opponent true g) as (r' & g'' & Hr & _ & Hok & _);
    [by_decide | by_decide | done |].
  unfold run_game_episode in Hrun. rewrite Hrun in Hr.
  injection Hr as <- <-. destruct Hok as [[_ [Hb _]] Hopp]; [done|].
  split; [done|]. destruct (Engine.opponent r.2); [apply Hopp | done].
Qed.

End main.

Section main_train.
Context `{HG : RandomGen G} {L : Type} `{HA : !Agent G L} `{HL : !AgentLaws G L}.

(** C3: Training terminates and keeps every estimate in [-1, 1]: for
    any number of episodes, [train] on an agent with learning rate in
    [0, 1] and a table that satisfies the invariant raises nothing and
    returns an agent with the same properties. *)
Theorem train_keeps_estimates_bounded fuel (agent : L) n_episodes (g : G) :
  (16 ≤ fuel)%nat → agent_ok agent →
  ∃ agent' g', train fuel agent n_episodes g = Some (Ok (agent', g')) ∧
    (0 <= rate agent' <= 1)%Q ∧ QTable.bounded (table agent') ∧
    QTable.inv (table agent').
Proof.
  intros Hfuel Hok.
  destruct (train_returns fuel agent n_episodes g Hfuel Hok)
    as (agent' & g' & Ht & [? ?] & Hi).
  exists agent', g'. pose proof Hi as [? ?]. by split_and!.
Qed.

End main_train.

End Engine.
