(* ===== verification/Trace.v ===== *)
(** Trace: the order of the calls an episode makes. The runner of
    src/engine.py finalises the transition of a ply two plies later,
    when play returns to the seat that made it, or at the end of the
    game for the last ply of each seat. This file states that schedule
    as an abstract specification ([Spec.expected], a function of the
    actions played) and proves that [run_game_episode] implements it:
    run with agents that log every call they receive, the log of an
    episode is the expected one. *)

From Stdlib Require Import QArith Lqa.
From stdpp Require Import base numbers list gmap sets.
From S2P Require Import Prelude Runtime GameState ValueTable Learner.
From S2P Require Import EpisodeRunner.

Set Warnings "-clear-no-such-hyp".
#[local] Open Scope py_scope.
#[local] Open Scope Z_scope.

(** ** Agents that log the calls they receive *)

(** A call of [choose_action(state, epsilon)] with what it returned, or
    a call of [update_model(old_state, action, new_state, reward)]. *)
Inductive event : Type :=
| Chose (state : list Z) (explore : bool) (a : option action)
| Updated (old_state : list Z) (a : option action) (new_state : list Z)
    (reward : Q).

(** The log travels with the generator state, so that it is threaded
    through every call in the order the calls are made. *)
Definition traced (G : Type) : Type := G * list event.

(** An agent wrapped so that its two methods log. *)
Record Traced (L : Type) : Type := Trace { agent_of : L }.
Arguments Trace {L} _.
Arguments agent_of {L} _.

Section traced.
Context `{HG : RandomGen G}.

Definition traced_random (t : traced G) : Q * traced G :=
  ((random t.1).1, ((random t.1).2, t.2)).

Definition traced_randbelow (n : nat) (t : traced G) : nat * traced G :=
  ((randbelow n t.1).1, ((randbelow n t.1).2, t.2)).

#[export] Instance traced_gen : RandomGen (traced G) :=
  {| random := traced_random; randbelow := traced_randbelow;
     random_unit t := random_unit t.1;
     randbelow_lt n t := randbelow_lt n t.1 |}.

Definition emit (e : event) : M (traced G) unit :=
  λ t, Ok (tt, (t.1, t.2 ++ [e])).

Context {L : Type} `{HA : !Agent G L}.

#[export] Instance traced_agent : Agent (traced G) (Traced L) := {|
  choose_action self state explore :=
    let* a := on_gen (choose_action (agent_of self) state explore) in
    let* _ := emit (Chose state explore a) in
    ret a;
  update_model self old_state a new_state reward :=
    let* self' := on_gen (update_model (agent_of self) old_state a
                              new_state reward) in
    let* _ := emit (Updated old_state a new_state reward) in
    ret (Trace self');
  table self := table (agent_of self);
  rate self := rate (agent_of self)
|}.

End traced.

(** ** The specification: which calls an episode makes, in order *)

Module Spec.

(** The position after an action. *)
Definition after (s : list Z) (a : action) : list Z :=
  <[Z.to_nat a.1 := s !!! Z.to_nat a.1 - a.2]> s.

(** What the schedule depends on: the seat to move, the ply before
    this one (made by the other seat), and the position. *)
Record state : Type := State {
  seat : Z;
  prev : option (list Z * action);
  pos : list Z
}.

Definition start (initial : list Z) : state :=
  {| seat := 0; prev := None; pos := initial |}.

Definition step (σ : state) (a : action) : state :=
  {| seat := Nim.other_player (seat σ); prev := Some (pos σ, a);
     pos := after (pos σ) a |}.

(** The pending transition of the ply before, finalised with the
    position after this ply and the given reward. *)
Definition pending (σ : state) (a : action) (reward : Q) : list event :=
  match prev σ with
  | Some (s, b) => [Updated s (Some b) (after (pos σ) a) reward]
  | None => []
  end.

(** A ply after which the game goes on: the choice, then the delayed
    update of the seat that moves next, with reward 0. *)
Definition ply_events (training : bool) (σ : state) (a : action) : list event :=
  Chose (pos σ) true (Some a) ::
  if training then pending σ a 0 else [].

(** The ply that ends the game: the choice, then the updates of both
    seats in the order seat 0, seat 1: +1 for the mover's own ply, -1
    for the ply before. *)
Definition last_ply_events (training : bool) (σ : state) (a : action)
    : list event :=
  Chose (pos σ) true (Some a) ::
  if training then
    let win := Updated (pos σ) (Some a) (after (pos σ) a) 1 in
    if decide (seat σ = 0) then win :: pending σ a (-1)
    else pending σ a (-1) ++ [win]
  else [].

(** The log of a whole game, given the actions played. *)
Fixpoint expected (training : bool) (σ : state) (actions : list action)
    : list event :=
  match actions with
  | [] => []
  | a :: rest =>
    match rest with
    | [] => last_ply_events training σ a
    | _ :: _ => ply_events training σ a ++ expected training (step σ a) rest
    end
  end.

(** The log of a game that is still open after the actions played. *)
Fixpoint running (training : bool) (σ : state) (actions : list action)
    : list event :=
  match actions with
  | [] => []
  | a :: rest => ply_events training σ a ++ running training (step σ a) rest
  end.

(** The reward a ply is finalised with, by the number of plies made
    after it: the last ply wins, the one before it loses. *)
Definition outcome (after : nat) : Q :=
  match after with
  | O => 1
  | S O => -1
  | S (S _) => 0
  end.

(** One update per ply, in the order of the plies: the position and
    the action of the ply, the position two plies later (the final
    position for the last two), and the reward. *)
Fixpoint finalised (σ : state) (actions : list action) : list event :=
  match actions with
  | [] => []
  | a :: rest =>
    Updated (pos σ) (Some a) (pos (foldl step σ (take 2 actions)))
      (outcome (length rest)) ::
    finalised (step σ a) rest
  end.

Definition is_update (e : event) : bool :=
  match e with
  | Updated _ _ _ _ => true
  | Chose _ _ _ => false
  end.

(** The updates of a log. *)
Definition updates (log : list event) : list event :=
  filter (λ e, is_update e) log.

End Spec.

(** ** What the logging agents add to the log *)

Import Engine.

Section log.
Context `{HG : RandomGen G}.
Implicit Types (t : traced G) (log : list event).

Lemma emit_Ok_inv e t u t' : emit e t = Ok (u, t') → t'.2 = t.2 ++ [e].
Proof. by intros [= _ <-]. Qed.

Context {L1 L2 : Type} `{!Agent G L1} `{!Agent G L2}.
Implicit Types (who : players (Traced L1) (Traced L2)).
Implicit Types (st : episode (Traced L1) (Traced L2)).

Lemma traced_choose_action_log {L} `{!Agent G L} (self : Traced L)
    state explore t oa t' :
  choose_action self state explore t = Ok (oa, t') →
  t'.2 = t.2 ++ [Chose state explore oa].
Proof.
  simpl. intros Hc. inv_bind Hc. inv_bind Hc. injection Hc as <- <-.
  apply on_gen_Ok_inv in Hc0 as [_ <-]. by apply emit_Ok_inv in Hc1.
Qed.

Lemma traced_update_model_log {L} `{!Agent G L} (self : Traced L)
    old_state a new_state reward t self' t' :
  update_model self old_state a new_state reward t = Ok (self', t') →
  t'.2 = t.2 ++ [Updated old_state a new_state reward].
Proof.
  simpl. intros Hc. inv_bind Hc. inv_bind Hc. injection Hc as <- <-.
  apply on_gen_Ok_inv in Hc0 as [_ <-]. by apply emit_Ok_inv in Hc1.
Qed.

Lemma choose_log who p state t oa t' :
  choose who p state t = Ok (oa, t') → t'.2 = t.2 ++ [Chose state true oa].
Proof.
  unfold choose. destruct (opponent who); [case_decide|];
    apply traced_choose_action_log.
Qed.

Lemma update_log who p old_state a new_state reward t who' t' :
  update who p old_state a new_state reward t = Ok (who', t') →
  t'.2 = t.2 ++ [Updated old_state a new_state reward].
Proof.
  unfold update. destruct (opponent who); [case_decide|];
    intros Hu; inv_bind Hu; injection Hu as <- <-;
    by apply traced_update_model_log in Hu0.
Qed.

(** The update the loop over the seats makes for a seat at the end of
    the game, read off the dictionary. *)
Definition final_update (game : Nim.game) (last : gmap Z last_entry)
    (new_state : list Z) (p : Z) : list event :=
  match last !! p with
  | Some (LastEntry (Some s) (Some a)) =>
    [Updated s (Some a) new_state
       (if decide (Nim.winner game = Some p) then 1 else -1)]
  | _ => []
  end.

(** The delayed update for the seat that moves next. *)
Definition delayed_update (last : gmap Z last_entry) (new_state : list Z)
    (p : Z) : list event :=
  match last !! p with
  | Some (LastEntry (Some s) oa) => [Updated s oa new_state 0]
  | _ => []
  end.

(** The updates that follow a ply, by the branches of the source. *)
Definition updates_after (training : bool) (game : Nim.game)
    (last : gmap Z last_entry) : list event :=
  if training then
    if bool_decide (Nim.winner game ≠ None)
    then final_update game last (Nim.piles game) 0 ++
         final_update game last (Nim.piles game) 1
    else delayed_update last (Nim.piles game) (Nim.player game)
  else [].

Lemma lookup_last_Ok_inv (last : gmap Z last_entry) p t entry t' :
  lookup_last last p t = Ok (entry, t') → last !! p = Some entry ∧ t' = t.
Proof. unfold lookup_last. destruct (last !! p); [by intros [= -> ->] | done]. Qed.

Lemma terminal_update_log game last new_state who p t who' t' :
  terminal_update game last new_state who p t = Ok (who', t') →
  t'.2 = t.2 ++ final_update game last new_state p.
Proof.
  unfold terminal_update, final_update. intros Hu. inv_bind Hu.
  apply lookup_last_Ok_inv in Hu0 as [-> ->].
  destruct a as [[s|] [a|]]; simpl in *;
    try (injection Hu as <- <-; by rewrite app_nil_r).
  by apply update_log in Hu.
Qed.

Lemma delayed_update_log last new_state who p t st' t' game :
  (let* entry := lookup_last last p in
   match last_state entry with
   | Some state =>
     let* who := update who p state (last_action entry) new_state 0%Q in
     ret (Episode game last who)
   | None => ret (Episode game last who)
   end) t = Ok (st', t') →
  Engine.game st' = game ∧ Engine.last st' = last ∧
  t'.2 = t.2 ++ delayed_update last new_state p.
Proof.
  unfold delayed_update. intros Hu. inv_bind Hu.
  apply lookup_last_Ok_inv in Hu0 as [-> ->].
  destruct a as [[s|] oa]; simpl in *.
  - inv_bind Hu. injection Hu as <- <-. by apply update_log in Hu0.
  - injection Hu as <- <-. by rewrite app_nil_r.
Qed.

(** One turn of the loop: a legal move is made, the mover's entry of
    the dictionary is overwritten, and the log grows by the choice and
    the updates of the branch taken. *)
Lemma ply_log training st t st' t' :
  ply training st t = Ok (st', t') →
  ∃ a, Nim.move (game st) (Some a) = Ok (game st') ∧
    last st' = <[Nim.player (game st) :=
                   LastEntry (Some (Nim.piles (game st))) (Some a)]> (last st) ∧
    t'.2 = t.2 ++ Chose (Nim.piles (game st)) true (Some a) ::
                  updates_after training (game st') (last st').
Proof.
  unfold ply, updates_after. intros Hp. inv_bind Hp. inv_bind Hp.
  apply choose_log in Hp0. unfold lift in Hp1.
  destruct (Nim.move _ a) as [g1|] eqn:Hm; [|done]. injection Hp1 as <- <-.
  destruct (Nim.move_Ok_inv _ _ _ Hm) as (i & c & -> & _). exists (i, c).
  destruct training; simpl in Hp; [case_bool_decide|].
  - inv_bind Hp. inv_bind Hp. injection Hp as <- <-. simpl.
    apply terminal_update_log in Hp1, Hp2.
    rewrite bool_decide_eq_true_2 by done.
    by rewrite Hp2, Hp1, Hp0, <-!app_assoc.
  - apply delayed_update_log in Hp as (-> & -> & ->).
    simpl. rewrite bool_decide_eq_false_2 by naive_solver.
    by rewrite Hp0, <-app_assoc.
  - injection Hp as <- <-. by rewrite Hp0.
Qed.

End log.

(** ** The runner implements the schedule *)

Section refinement.
Implicit Types (σ : Spec.state) (game : Nim.game) (last : gmap Z last_entry).

(** The entry of the dictionary that holds a ply. *)
Definition entry_of (prev : option (list Z * action)) : last_entry :=
  match prev with
  | Some (s, a) => LastEntry (Some s) (Some a)
  | None => LastEntry None None
  end.

(** The abstract state describes the state of the loop: the seat to
    move and the position agree, and the dictionary holds the ply
    before this one at the other seat. The entry of the seat to move
    is not constrained: the ply overwrites it before it is read. *)
Definition refines σ game last : Prop :=
  Spec.seat σ = Nim.player game ∧
  (Nim.player game = 0 ∨ Nim.player game = 1) ∧
  Spec.pos σ = Nim.piles game ∧
  last !! Nim.other_player (Nim.player game) = Some (entry_of (Spec.prev σ)).

(** The dictionary after the mover has recorded its ply. *)
Definition record game (a : action) last : gmap Z last_entry :=
  <[Nim.player game := LastEntry (Some (Nim.piles game)) (Some a)]> last.

Lemma refines_start initial :
  refines (Spec.start initial) (Nim.init initial) initial_last.
Proof. by split_and!; [|left|..]. Qed.

Lemma move_after game a game' :
  Nim.move game (Some a) = Ok game' →
  Nim.piles game' = Spec.after (Nim.piles game) a.
Proof. by intros (i & c & [= ->] & _ & _ & -> & _)%Nim.move_Ok_inv. Qed.

Lemma record_mover game a last :
  record game a last !! Nim.player game
  = Some (entry_of (Some (Nim.piles game, a))).
Proof. apply lookup_insert_eq. Qed.

Lemma record_other σ game a last :
  refines σ game last →
  record game a last !! Nim.other_player (Nim.player game)
  = Some (entry_of (Spec.prev σ)).
Proof.
  intros (_ & _ & _ & <-). apply lookup_insert_ne.
  symmetry. apply Nim.other_player_ne.
Qed.

Lemma delayed_update_pending σ a last new_state p :
  last !! p = Some (entry_of (Spec.prev σ)) →
  new_state = Spec.after (Spec.pos σ) a →
  delayed_update last new_state p = Spec.pending σ a 0.
Proof.
  unfold delayed_update, Spec.pending. intros -> ->.
  by destruct (Spec.prev σ) as [[s b]|].
Qed.

Lemma final_update_pending σ game a last new_state p :
  last !! p = Some (entry_of (Spec.prev σ)) →
  new_state = Spec.after (Spec.pos σ) a →
  Nim.winner game ≠ Some p →
  final_update game last new_state p = Spec.pending σ a (-1).
Proof.
  unfold final_update, Spec.pending. intros -> -> Hw.
  destruct (Spec.prev σ) as [[s b]|]; [|done]. simpl. by case_decide.
Qed.

Lemma final_update_win game s a last new_state p :
  last !! p = Some (entry_of (Some (s, a))) →
  Nim.winner game = Some p →
  final_update game last new_state p = [Updated s (Some a) new_state 1].
Proof. unfold final_update. intros -> Hw. simpl. by case_decide. Qed.

(** A ply after which the game goes on is a step of the specification
    with the same events. *)
Lemma refines_step training σ game last a game' :
  refines σ game last →
  Nim.move game (Some a) = Ok game' → Nim.winner game' = None →
  refines (Spec.step σ a) game' (record game a last) ∧
  Chose (Nim.piles game) true (Some a) ::
    updates_after training game' (record game a last)
  = Spec.ply_events training σ a.
Proof.
  intros Hr Hm Hw. pose proof Hr as (Hs & Hp & Hpos & Hl).
  pose proof (Nim.move_continues _ _ _ Hm Hw) as Hp'.
  pose proof (move_after _ _ _ Hm) as Ht. split.
  - split_and!; simpl; [congruence | rewrite Hp'; apply Nim.other_player_seat
                        | congruence |].
    rewrite Hp', Nim.other_player_involutive, Hpos by done.
    apply record_mover.
  - unfold Spec.ply_events, updates_after. rewrite Hpos.
    rewrite bool_decide_eq_false_2 by naive_solver.
    destruct training; [|done]. f_equal.
    apply delayed_update_pending; [|congruence].
    rewrite Hp'. by eapply record_other.
Qed.

(** The ply that ends the game has the events of a last ply. *)
Lemma refines_last training σ game last a game' :
  refines σ game last →
  Nim.move game (Some a) = Ok game' → Nim.winner game' ≠ None →
  Chose (Nim.piles game) true (Some a) ::
    updates_after training game' (record game a last)
  = Spec.last_ply_events training σ a.
Proof.
  intros Hr Hm Hw. pose proof Hr as (Hs & Hp & Hpos & Hl).
  destruct (Nim.winner game') as [w|] eqn:Hw'; [clear Hw|done].
  destruct (Nim.move_winner_mover _ _ _ _ Hm Hw') as [-> _].
  pose proof (move_after _ _ _ Hm) as Ht.
  set (new_state := Spec.after (Nim.piles game) a).
  assert (final_update game' (record game a last) new_state (Nim.player game)
          = [Updated (Nim.piles game) (Some a) new_state 1]) as Hwin.
  { by apply final_update_win; [apply record_mover|]. }
  assert (final_update game' (record game a last) new_state
            (Nim.other_player (Nim.player game))
          = Spec.pending σ a (-1)) as Hlose.
  { apply (final_update_pending σ _ a);
      [by eapply record_other | by unfold new_state; rewrite Hpos |].
    rewrite Hw'. intros [= Hne]. by eapply Nim.other_player_ne. }
  unfold Spec.last_ply_events, updates_after. rewrite Hpos, Hs, Ht.
  rewrite bool_decide_eq_true_2 by congruence.
  destruct training; [|done]. f_equal. fold new_state.
  destruct Hp as [Hp|Hp]; rewrite Hp in *; case_decide; try done.
  - change (Nim.other_player 0) with 1 in Hlose. by rewrite Hwin, Hlose.
  - change (Nim.other_player 1) with 0 in Hlose. by rewrite Hwin, Hlose.
Qed.

End refinement.

(** ** The schedule, one ply at a time *)

Section spec.
Implicit Types (σ : Spec.state) (acts : list action).

Lemma running_snoc training σ acts a :
  Spec.running training σ (acts ++ [a])
  = Spec.running training σ acts
    ++ Spec.ply_events training (foldl Spec.step σ acts) a.
Proof.
  revert σ. induction acts as [|b acts IH]; intros σ; simpl.
  - by rewrite app_nil_r.
  - by rewrite IH, app_assoc.
Qed.

Lemma expected_snoc training σ acts a :
  Spec.expected training σ (acts ++ [a])
  = Spec.running training σ acts
    ++ Spec.last_ply_events training (foldl Spec.step σ acts) a.
Proof.
  revert σ. induction acts as [|b acts IH]; intros σ; [done|].
  change ((b :: acts) ++ [a]) with (b :: (acts ++ [a])).
  simpl. rewrite <-app_assoc, <-IH. by destruct acts.
Qed.

Lemma updates_pending σ a reward :
  Spec.updates (Spec.pending σ a reward) = Spec.pending σ a reward.
Proof. unfold Spec.pending. by destruct (Spec.prev σ) as [[s b]|]. Qed.

Lemma updates_Updated s a new_state reward log :
  Spec.updates (Updated s a new_state reward :: log)
  = Updated s a new_state reward :: Spec.updates log.
Proof. done. Qed.

Lemma updates_Chose s explore a log :
  Spec.updates (Chose s explore a :: log) = Spec.updates log.
Proof. done. Qed.

Lemma updates_app log1 log2 :
  Spec.updates (log1 ++ log2) = Spec.updates log1 ++ Spec.updates log2.
Proof. apply filter_app. Qed.

(** The update that is pending when a sequence of plies starts, with
    the reward it will get. *)
Definition carried σ acts : list event :=
  match acts with
  | [] => []
  | [a] => Spec.pending σ a (-1)
  | a :: _ :: _ => Spec.pending σ a 0
  end.

Lemma carried_step σ a b acts :
  carried (Spec.step σ a) (b :: acts)
  = [Updated (Spec.pos σ) (Some a)
       (Spec.pos (foldl Spec.step σ (take 2 (a :: b :: acts))))
       (Spec.outcome (length (b :: acts)))].
Proof. by destruct acts. Qed.

Lemma updates_last_ply σ a :
  Spec.updates (Spec.last_ply_events true σ a)
  ≡ₚ carried σ [a] ++ Spec.finalised σ [a].
Proof.
  unfold Spec.last_ply_events. rewrite updates_Chose. case_decide.
  - rewrite updates_Updated, updates_pending. apply Permutation_cons_append.
  - by rewrite updates_app, updates_pending.
Qed.

Lemma updates_expected σ acts :
  Spec.updates (Spec.expected true σ acts)
  ≡ₚ carried σ acts ++ Spec.finalised σ acts.
Proof.
  revert σ. induction acts as [|a [|b acts] IH]; intros σ; [done|..].
  - apply updates_last_ply.
  - change (Spec.expected true σ (a :: b :: acts)) with
      (Spec.ply_events true σ a ++ Spec.expected true (Spec.step σ a) (b :: acts)).
    unfold Spec.ply_events.
    by rewrite updates_app, updates_Chose, updates_pending, IH, carried_step.
Qed.

End spec.

(** ** The loop against the schedule *)

Section episode.
Context `{HG : RandomGen G} {L1 L2 : Type} `{!Agent G L1} `{!Agent G L2}.
Implicit Types (st : episode (Traced L1) (Traced L2)) (t : traced G).

(** The invariant of the loop: the game is the initial position after
    the actions played so far, and the log is the log of these
    actions, open or finished. *)
Definition log_inv (training : bool) (initial : list Z) st t : Prop :=
  ∃ acts, Nim.moves (Nim.init initial) acts = Ok (game st) ∧
    match Nim.winner (game st) with
    | None =>
      refines (foldl Spec.step (Spec.start initial) acts) (game st) (last st) ∧
      t.2 = Spec.running training (Spec.start initial) acts
    | Some _ => t.2 = Spec.expected training (Spec.start initial) acts
    end.

Lemma initial_log_inv training initial (agent : Traced L1)
    (opponent : option (Traced L2)) (g : G) :
  log_inv training initial
    (Episode (Nim.init initial) initial_last (Players agent opponent)) (g, []).
Proof. exists []. split; [done|]. split; [apply refines_start | done]. Qed.

Lemma moves_snoc game acts game1 a game2 :
  Nim.moves game acts = Ok game1 → Nim.move game1 (Some a) = Ok game2 →
  Nim.moves game (acts ++ [a]) = Ok game2.
Proof. intros H1 H2. rewrite Nim.moves_app, H1. simpl. by rewrite H2. Qed.

Lemma ply_log_inv training initial st t st' t' :
  log_inv training initial st t → running st = true →
  ply training st t = Ok (st', t') → log_inv training initial st' t'.
Proof.
  intros (acts & Hm & Hinv) Hrun%bool_decide_eq_true (a & Ha & Hl & Hlog)%ply_log.
  rewrite Hrun in Hinv. destruct Hinv as [Hr Hlog0].
  exists (acts ++ [a]). split; [by eapply moves_snoc|].
  rewrite Hlog, Hlog0, Hl. fold (record (game st) a (last st)).
  destruct (Nim.winner (game st')) as [w|] eqn:Hw.
  - rewrite expected_snoc. f_equal. eapply refines_last; [done..|congruence].
  - rewrite foldl_snoc, running_snoc.
    destruct (refines_step training _ _ _ _ _ Hr Ha Hw) as [? ->]. done.
Qed.

Lemma run_game_episode_from_log initial fuel (agent : Traced L1)
    (opponent : option (Traced L2)) training (g : G) w who t' :
  run_game_episode_from initial fuel agent opponent training (g, [])
  = Some (Ok ((w, who), t')) →
  ∃ acts final, Nim.moves (Nim.init initial) acts = Ok final ∧
    Nim.winner final = w ∧ is_Some w ∧
    t'.2 = Spec.expected training (Spec.start initial) acts.
Proof.
  unfold run_game_episode_from.
  intros (st & t1 & Hloop & [= <- <- <-])%bindF_Ok_inv.
  destruct (while_loop_inv _ _ _ (ply_log_inv training initial) _ _ _ _ _
              (initial_log_inv _ _ _ _ _) Hloop)
    as [(acts & Hm & Hinv) Hrun%bool_decide_eq_false].
  exists acts, (game st). destruct (Nim.winner (game st)); [eauto|done].
Qed.

End episode.

(** ** Logging does not change the run *)

Section transparent.
Context `{HG : RandomGen G}.
Implicit Types (t : traced G).

(** The outcome of a logging computation with the log and the wrappers
    erased. *)
Definition erase_result {A B} (f : B → A) (r : result (B * traced G))
    : result (A * G) :=
  match r with
  | Ok (b, t) => Ok (f b, t.1)
  | Raise e => Raise e
  end.

(** [m'] is [m] with a log: same value, same exception, same draws. *)
Definition simulates {A B} (f : B → A) (m : M G A) (m' : M (traced G) B)
    : Prop :=
  ∀ t, m t.1 = erase_result f (m' t).

Lemma simulates_bind {A B A' B'} (f : B → A) (h : B' → A') m m' k k' :
  simulates f m m' → (∀ b, simulates h (k (f b)) (k' b)) →
  simulates h (bind m k) (bind m' k').
Proof.
  intros Hm Hk t. unfold bind. rewrite Hm.
  destruct (m' t) as [[b t1]|]; [apply Hk | done].
Qed.

Lemma simulates_while_loop {S S'} (f : S' → S) cond cond' body body' :
  (∀ s, cond (f s) = cond' s) → (∀ s, simulates f (body (f s)) (body' s)) →
  ∀ fuel s t, while_loop fuel cond body (f s) t.1
              = erase_result f <$> while_loop fuel cond' body' s t.
Proof.
  intros Hc Hb fuel. induction fuel as [|fuel IH]; intros s t; simpl;
    rewrite Hc; destruct (cond' s); try done.
  unfold bindF, liftF. rewrite Hb.
  destruct (body' s t) as [[s1 t1]|]; [apply IH | done].
Qed.

Lemma simulates_lift {A} (r : result A) : simulates id (lift r) (lift r).
Proof. by destruct r. Qed.

Lemma simulates_lookup_last (last : gmap Z last_entry) p :
  simulates id (lookup_last last p) (lookup_last last p).
Proof. unfold lookup_last. by destruct (last !! p). Qed.

Lemma simulates_choose_action {L} `{!Agent G L} (self : Traced L)
    state explore :
  simulates id (choose_action (agent_of self) state explore)
    (choose_action self state explore).
Proof.
  intros t. simpl. unfold bind, on_gen.
  by destruct (choose_action _ _ _ t.1) as [[a g]|].
Qed.

Lemma simulates_update_model {L} `{!Agent G L} (self : Traced L)
    old_state a new_state reward :
  simulates agent_of (update_model (agent_of self) old_state a new_state reward)
    (update_model self old_state a new_state reward).
Proof.
  intros t. simpl. unfold bind, on_gen.
  by destruct (update_model _ _ _ _ _ t.1) as [[self' g]|].
Qed.

Context {L1 L2 : Type} `{!Agent G L1} `{!Agent G L2}.
Implicit Types (who : players (Traced L1) (Traced L2)).
Implicit Types (st : episode (Traced L1) (Traced L2)).

Definition erase_players who : players L1 L2 :=
  Players (agent_of (agent who)) (agent_of <$> opponent who).

Definition erase_episode st : episode L1 L2 :=
  Episode (game st) (last st) (erase_players (who st)).

Lemma simulates_choose who p state :
  simulates id (choose (erase_players who) p state) (choose who p state).
Proof.
  unfold choose. destruct who as [ag [opp|]]; simpl; [case_decide|];
    apply simulates_choose_action.
Qed.

Lemma simulates_update who p old_state a new_state reward :
  simulates erase_players
    (update (erase_players who) p old_state a new_state reward)
    (update who p old_state a new_state reward).
Proof.
  unfold update. destruct who as [ag [opp|]]; simpl; [case_decide|];
    (eapply simulates_bind; [apply simulates_update_model|]);
    by intros b t.
Qed.

Lemma simulates_terminal_update game last new_state who p :
  simulates erase_players
    (terminal_update game last new_state (erase_players who) p)
    (terminal_update game last new_state who p).
Proof.
  unfold terminal_update.
  eapply simulates_bind; [apply simulates_lookup_last|]. intros [[s|] [a|]];
    first [apply simulates_update | by intros t].
Qed.

Lemma simulates_ply training st :
  simulates erase_episode (ply training (erase_episode st)) (ply training st).
Proof.
  unfold ply. eapply simulates_bind; [apply simulates_choose|]. intros a.
  eapply simulates_bind; [apply simulates_lift|]. intros game1.
  destruct training; simpl; [case_bool_decide|].
  - eapply simulates_bind; [apply simulates_terminal_update|]. intros who1.
    eapply simulates_bind; [apply simulates_terminal_update|]. intros who2.
    by intros t.
  - eapply simulates_bind; [apply simulates_lookup_last|]. intros [[s|] oa].
    + eapply simulates_bind; [apply simulates_update|]. by intros who1 t.
    + by intros t.
  - by intros t.
Qed.

Lemma run_game_episode_from_erase initial fuel (agent : Traced L1)
    (opponent : option (Traced L2)) training t :
  run_game_episode_from initial fuel (agent_of agent) (agent_of <$> opponent)
    training t.1
  = erase_result (prod_map id erase_players)
      <$> run_game_episode_from initial fuel agent opponent training t.
Proof.
  pose proof (simulates_while_loop erase_episode running running
                (ply training) (ply training)
                (λ _, eq_refl) (simulates_ply training) fuel
                (Episode (Nim.init initial) initial_last
                         (Players agent opponent)) t) as Hloop.
  unfold run_game_episode_from, bindF.
  change (erase_episode _) with
    (Episode (Nim.init initial) initial_last
       (Players (agent_of agent) (agent_of <$> opponent))) in Hloop.
  rewrite Hloop. by destruct (while_loop _ _ _ _ t) as [[[st t1]|]|].
Qed.

End transparent.

(** ** The theorems of the schedule *)

Section main.
Context `{HG : RandomGen G} {L1 L2 : Type}.
Context `{HA1 : !Agent G L1} `{HA2 : !Agent G L2}.

Lemma traced_run_returns initial fuel (agent : L1) (opponent : option L2)
    training (g : G) r g' :
  run_game_episode_from initial fuel agent opponent training g
  = Some (Ok (r, g')) →
  ∃ who' t', run_game_episode_from initial fuel (Trace agent)
               (Trace <$> opponent) training (g, [])
             = Some (Ok ((r.1, who'), t')) ∧
             erase_players who' = r.2 ∧ t'.1 = g'.
Proof.
  intros Hrun.
  pose proof (run_game_episode_from_erase initial fuel (Trace agent)
                (Trace <$> opponent) training (g, [])) as He.
  rewrite <-option_fmap_compose, option_fmap_id in He. simpl in He.
  rewrite Hrun in He.
  destruct (run_game_episode_from _ _ (Trace agent) _ _ _)
    as [[[[w who'] t']|]|]; [|done..].
  injection He as -> ->. eauto.
Qed.

Lemma expected_evaluation σ acts :
  Forall (λ e, ∃ s a, e = Chose s true (Some a)) (Spec.expected false σ acts).
Proof.
  revert σ. induction acts as [|a [|b acts] IH]; intros σ.
  - constructor.
  - repeat constructor. eauto.
  - constructor; [eauto | apply IH].
Qed.

(** C6: Every ply is finalised exactly once. In a training episode from
    any initial position, the calls of [update_model] are, up to their
    order, one per ply of the game: with the position and the action of
    that ply, the position two plies later (the final position for the
    last two plies), and reward +1 for the last ply, -1 for the one
    before it and 0 for every other. *)
Theorem every_ply_credited_once initial fuel (agent : Traced L1)
    (opponent : option (Traced L2)) (g : G) r t' :
  run_game_episode_from initial fuel agent opponent true (g, [])
  = Some (Ok (r, t')) →
  ∃ acts final, Nim.moves (Nim.init initial) acts = Ok final ∧
    Nim.winner final = r.1 ∧
    Spec.updates t'.2 ≡ₚ Spec.finalised (Spec.start initial) acts.
Proof.
  destruct r as [w who']. intros Hrun.
  destruct (run_game_episode_from_log _ _ _ _ _ _ _ _ _ Hrun)
    as (acts & final & Hm & Hw & _ & ->).
  exists acts, final. split_and!; [done..|].
  rewrite updates_expected. by destruct acts as [|a [|b acts]].
Qed.

(** C18: Evaluation explores. With training off, every call an episode
    makes is a call of [choose_action] with the exploration flag set:
    the runner never passes [epsilon=False]. *)
Theorem evaluation_still_explores initial fuel (agent : Traced L1)
    (opponent : option (Traced L2)) (g : G) r t' :
  run_game_episode_from initial fuel agent opponent false (g, [])
  = Some (Ok (r, t')) →
  Forall (λ e, ∃ s a, e = Chose s true (Some a)) t'.2.
Proof.
  destruct r as [w who']. intros Hrun.
  destruct (run_game_episode_from_log _ _ _ _ _ _ _ _ _ Hrun)
    as (acts & final & _ & _ & _ & ->).
  apply expected_evaluation.
Qed.

Context `{HL1 : !AgentLaws G L1} `{HL2 : !AgentLaws G L2}.

(** C2: The runner implements the schedule of delayed credit
    assignment. From [1, 3, 5, 7], with agents that satisfy the laws of
    the interface and log their calls, an episode returns, the actions
    chosen form a complete game, and the log is the expected one: after
    each ply that does not end the game the choice and then the update,
    with reward 0, of the ply before it; after the last ply the choice
    and then the updates of seat 0 and seat 1, +1 for the winner's ply
    and -1 for the ply before. *)
Theorem episode_follows_schedule fuel (agent : L1) (opponent : option L2)
    training (g : G) :
  (16 ≤ fuel)%nat →
  ∃ acts final who' t',
    run_game_episode fuel (Trace agent) (Trace <$> opponent) training (g, [])
    = Some (Ok ((Nim.winner final, who'), t')) ∧
    Nim.moves (Nim.init Nim.default_initial) acts = Ok final ∧
    is_Some (Nim.winner final) ∧
    t'.2 = Spec.expected training (Spec.start Nim.default_initial) acts.
Proof.
  intros Hfuel.
  destruct (run_game_episode_from_returns Nim.default_initial fuel agent
              opponent training g) as (r & g' & Hr & _);
    [by_decide | by_decide | done |].
  apply traced_run_returns in Hr as (who' & t' & Hrun & _).
  destruct (run_game_episode_from_log _ _ _ _ _ _ _ _ _ Hrun)
    as (acts & final & Hm & Hw & Hsome & Hlog).
  exists acts, final, who', t'. by rewrite Hw.
Qed.

End main.
