(* ===== verification/Replay.v ===== *)
(** Replay: what a training episode leaves in the agent. The agent
    and the generator after an episode of self-play are what the calls
    of the schedule of Trace.v, made again in order, return. The
    scenario of the game [1, 1] follows for every learner whose update
    at the end of a game is the temporal-difference step towards the
    reward ([TerminalUpdate], which both learners of the program are):
    the opening move loses, an episode moves its estimate towards -1,
    and training does so geometrically. *)

From Stdlib Require Import QArith Qpower Lqa.
From stdpp Require Import base numbers list gmap sets.
From S2P Require Import Prelude Runtime GameState ValueTable Learner.
From S2P Require Import EpisodeRunner Trace.

Set Warnings "-clear-no-such-hyp".
#[local] Open Scope py_scope.
#[local] Open Scope Z_scope.

Import Engine.

Section replay.
Context `{HG : RandomGen G} {L : Type} `{HA : !Agent G L}.

(** A logged call made again. The action a choice returned is not in
    the call: made again from the same generator state, the call
    returns it again. *)
Definition replay_event (self : L) (e : event) : M G L :=
  match e with
  | Chose state explore _ =>
    let* _ := choose_action self state explore in ret self
  | Updated old_state a new_state reward =>
    update_model self old_state a new_state reward
  end.

(** The calls of a log made on an agent, in order. *)
Definition replay (self : L) (log : list event) : M G L :=
  foldl (λ m e, let* self := m in replay_event self e) (ret self) log.

Lemma replay_snoc (self : L) log e :
  replay self (log ++ [e])
  = (let* self' := replay self log in replay_event self' e).
Proof. unfold replay. by rewrite foldl_snoc. Qed.

Lemma replay_cons (self : L) e log (g : G) :
  replay self (e :: log) g
  = (let* self' := replay_event self e in replay self' log) g.
Proof.
  induction log as [|e' log IH] using rev_ind.
  { unfold replay, bind, ret. simpl. by destruct (replay_event self e g) as [[]|]. }
  rewrite app_comm_cons, replay_snoc. unfold bind at 1. rewrite IH.
  unfold bind. destruct (replay_event self e g) as [[self1 g1]|]; [|done].
  by rewrite replay_snoc.
Qed.

Lemma replay_choice (self : L) state explore oa (g : G) self' g' :
  replay_event self (Chose state explore oa) g = Ok (self', g') →
  self' = self.
Proof. by intros (? & ? & _ & [= <- _])%bind_Ok_inv. Qed.

Context {L2 : Type} `{HA2 : !Agent G L2}.
Implicit Types (who : players (Traced L) (Traced L2)) (t : traced G).
Implicit Types (st : episode (Traced L) (Traced L2)).

(** Self-play in which the agent and the generator are what the calls
    logged so far make of the first agent and generator. *)
Definition tracks (agent0 : L) (g0 : G) who t : Prop :=
  opponent who = None ∧
  replay agent0 t.2 g0 = Ok (agent_of (agent who), t.1).

Lemma choose_tracks agent0 g0 who p state t oa t' :
  tracks agent0 g0 who t → choose who p state t = Ok (oa, t') →
  tracks agent0 g0 who t'.
Proof.
  intros [Ho Hr] Hc. pose proof (choose_log _ _ _ _ _ _ Hc) as Hlog.
  pose proof (simulates_choose who p state t) as Hs.
  rewrite Hc in Hs. unfold choose, erase_players in Hs. rewrite Ho in Hs.
  simpl in Hs. split; [done|].
  rewrite Hlog, replay_snoc, (bind_Ok _ _ _ _ _ Hr). simpl.
  by rewrite (bind_Ok _ _ _ _ _ Hs).
Qed.

Lemma update_tracks agent0 g0 who p old_state a new_state reward t who' t' :
  tracks agent0 g0 who t →
  update who p old_state a new_state reward t = Ok (who', t') →
  tracks agent0 g0 who' t'.
Proof.
  intros [Ho Hr] Hu. pose proof (update_log _ _ _ _ _ _ _ _ _ Hu) as Hlog.
  pose proof (simulates_update who p old_state a new_state reward t) as Hs.
  rewrite Hu in Hs. unfold update, erase_players in Hs. rewrite Ho in Hs.
  apply bind_Ok_inv in Hs as (agent1 & g1 & Hm & [= Ha Hopp ->]).
  destruct who' as [agent' [opp|]]; simplify_eq/=. split; [done|].
  by rewrite Hlog, replay_snoc, (bind_Ok _ _ _ _ _ Hr).
Qed.

Lemma terminal_update_tracks agent0 g0 game last new_state who p t who' t' :
  tracks agent0 g0 who t →
  terminal_update game last new_state who p t = Ok (who', t') →
  tracks agent0 g0 who' t'.
Proof.
  unfold terminal_update. intros Ht Hu. inv_bind Hu.
  apply lookup_last_Ok_inv in Hu0 as [_ ->].
  destruct (last_state a) as [s|], (last_action a) as [b|];
    try (by injection Hu as <- <-). by eapply update_tracks.
Qed.

Lemma ply_tracks agent0 g0 training st t st' t' :
  tracks agent0 g0 (who st) t → ply training st t = Ok (st', t') →
  tracks agent0 g0 (who st') t'.
Proof.
  unfold ply. intros Ht Hp. inv_bind Hp. inv_bind Hp.
  eapply choose_tracks in Hp0; [|done]. unfold lift in Hp1.
  destruct (Nim.move _ a) as [g1|]; [|done]. injection Hp1 as <- <-.
  destruct training; simpl in Hp; [case_bool_decide|].
  - inv_bind Hp. inv_bind Hp. injection Hp as <- <-. simpl.
    eauto using terminal_update_tracks.
  - inv_bind Hp. apply lookup_last_Ok_inv in Hp1 as [_ ->].
    destruct (last_state a0) as [s|].
    + inv_bind Hp. injection Hp as <- <-. by eapply update_tracks.
    + by injection Hp as <- <-.
  - by injection Hp as <- <-.
Qed.

(** The agent and the generator an episode of self-play leaves are
    what the calls of its log make of the ones it was given. *)
Lemma run_game_episode_from_tracks initial fuel (agent0 : Traced L)
    training (g : G) w who t' :
  run_game_episode_from (L2:=Traced L2) initial fuel agent0 None training
    (g, [])
  = Some (Ok ((w, who), t')) →
  tracks (agent_of agent0) g who t'.
Proof.
  unfold run_game_episode_from.
  intros (st & t1 & Hloop & [= <- <- <-])%bindF_Ok_inv.
  eapply (while_loop_inv _ _
            (λ st t, tracks (agent_of agent0) g (Engine.who st) t))
    in Hloop as [? _]; [done| |done].
  intros st1 t2 st2 t3 Ht _ Hp. by eapply ply_tracks.
Qed.

(** The same of the episode itself, with the log of its schedule. *)
Lemma self_play_replay initial fuel (agent0 : L) (g : G) r g' :
  run_game_episode_from (L2:=L2) initial fuel agent0 None true g
  = Some (Ok (r, g')) →
  ∃ acts final, Nim.moves (Nim.init initial) acts = Ok final ∧
    Nim.winner final = r.1 ∧ is_Some r.1 ∧
    replay agent0 (Spec.expected true (Spec.start initial) acts) g
    = Ok (agent r.2, g').
Proof.
  intros (who' & t' & Hrun & <- & <-)%traced_run_returns.
  destruct (run_game_episode_from_log _ _ _ _ _ _ _ _ _ Hrun)
    as (acts & final & Hm & Hw & Hsome & Hlog).
  apply run_game_episode_from_tracks in Hrun as [_ Ha].
  exists acts, final. split_and!; try done. by rewrite <-Hlog.
Qed.

End replay.

(** ** The game [1, 1] *)

Section one_one.

(** The two games that can be played from [1, 1]: a pile each. *)
Definition one_one_games : list (list action) :=
  [[(0, 1); (1, 1)]; [(1, 1); (0, 1)]].

(** One ply of a game to a winner from a known position: the action is
    one of the legal actions of the position, listed. *)
Ltac one_ply Hm a :=
  let Ha := fresh "Ha" in let Hmove := fresh "Hmove" in
  apply Nim.moves_open in Hm as (a & ? & ? & -> & Ha & Hmove & Hm);
    [|done..];
  apply elem_of_elements in Ha; vm_compute in Ha;
  repeat (apply elem_of_cons in Ha as [-> | Ha]); [..|by apply elem_of_nil in Ha];
  vm_compute in Hmove; injection Hmove as <-.

Lemma moves_one_one acts final :
  Nim.moves (Nim.init [1; 1]) acts = Ok final → is_Some (Nim.winner final) →
  acts ∈ one_one_games ∧ Nim.winner final = Some 1.
Proof.
  intros Hm Hw. one_ply Hm a; one_ply Hm b;
    (apply Nim.moves_won in Hm as [-> ->]; [|by eexists]);
    (split; [by_decide | done]).
Qed.

End one_one.

(** ** Main theorems of the component *)

Section main.
Context `{HG : RandomGen G} {L L2 : Type} `{HA : !Agent G L}.
Context `{HA2 : !Agent G L2}.

(** C7: A training episode is the replay of its schedule. For any
    learner, the agent and the generator state an episode of self-play
    returns are what the calls of the schedule, made in order on the
    agent and the generator it was given, return: for every ply the
    choice, for every ply but the last two the update with reward 0 and
    the position two plies later, and at the end the updates with -1
    and +1 and the final position. The runner does nothing else to the
    agent. *)
Theorem training_episode_is_replay initial fuel (agent0 : L) (g : G) r g' :
  run_game_episode_from (L2:=L2) initial fuel agent0 None true g
  = Some (Ok (r, g')) →
  ∃ acts final, Nim.moves (Nim.init initial) acts = Ok final ∧
    Nim.winner final = r.1 ∧
    replay agent0 (Spec.expected true (Spec.start initial) acts) g
    = Ok (agent r.2, g').
Proof.
  intros (acts & final & ? & ? & _ & ?)%self_play_replay. eauto.
Qed.

End main.

Section main_one_one.
Context `{HG : RandomGen G} {L : Type} `{HA : !Agent G L}.
Context `{HT : !TerminalUpdate G L}.
#[local] Open Scope Q_scope.

(** The estimate a learner has of an action. *)
Definition estimate (self : L) (state : list Z) (a : action) : Q :=
  QTable.get (table self) state (Some a).

(** How far the two opening actions of the game [1, 1] are from being
    known to lose: the product of the distances of their estimates
    from -1. *)
Definition distance (self : L) : Q :=
  (estimate self [1; 1]%Z (0, 1)%Z + 1) * (estimate self [1; 1]%Z (1, 1)%Z + 1).

(** An update at the end of a game, made again. *)
Lemma replay_finished (self : L) old_state a new_state reward (g : G)
    self' g' :
  replay_event self (Updated old_state (Some a) new_state reward) g
  = Ok (self', g') →
  Nim.available_actions new_state = ∅ → no_action_zero (table self) →
  rate self' = rate self ∧ no_action_zero (table self') ∧
  ∀ state b, estimate self' state b ==
    if decide ((old_state, a) = (state, b))
    then QTable.td_update (rate self) (estimate self old_state a) reward 0
    else estimate self state b.
Proof.
  simpl. intros Hu He Hz.
  destruct (update_model_finished self old_state a new_state reward g He Hz)
    as (self1 & Hu1 & Hr & Ht).
  rewrite Hu in Hu1. injection Hu1 as <-. split_and!; [done|..].
  - intros state. by rewrite (Ht state None), QTable.get_set_ne.
  - intros state b. unfold estimate. rewrite (Ht state (Some b)), QTable.get_set.
    by repeat case_decide; simplify_eq.
Qed.

(** The calls of a game of two plies that ends in [final], made again. *)
Lemma replay_two_plies (agent0 : L) state0 a state1 b final (g : G)
    explore0 explore1 oa0 oa1 agent' g' :
  replay agent0
    [Chose state0 explore0 oa0; Chose state1 explore1 oa1;
     Updated state0 (Some a) final (-1); Updated state1 (Some b) final 1] g
  = Ok (agent', g') →
  Nim.available_actions final = ∅ → no_action_zero (table agent0) →
  (state0, a) ≠ (state1, b) →
  rate agent' = rate agent0 ∧ no_action_zero (table agent') ∧
  estimate agent' state0 a
  == QTable.td_update (rate agent0) (estimate agent0 state0 a) (-1) 0 ∧
  estimate agent' state1 b
  == QTable.td_update (rate agent0) (estimate agent0 state1 b) 1 0 ∧
  ∀ state c, (state0, a) ≠ (state, c) → (state1, b) ≠ (state, c) →
             estimate agent' state c == estimate agent0 state c.
Proof.
  intros Hr He Hz Hne.
  rewrite replay_cons in Hr. inv_bind Hr. apply replay_choice in Hr0 as ->.
  rewrite replay_cons in Hr. inv_bind Hr. apply replay_choice in Hr0 as ->.
  rewrite replay_cons in Hr. inv_bind Hr.
  apply replay_finished in Hr0 as (Hr1 & Hz1 & H1); [|done..].
  rewrite replay_cons in Hr. inv_bind Hr. injection Hr as <- _.
  apply replay_finished in Hr0 as (Hr2 & Hz2 & H2); [|done..].
  split_and!; [congruence | done |..].
  - rewrite H2, decide_False, H1, decide_True by done. done.
  - rewrite H2, decide_True, Hr1, H1, decide_False by done. done.
  - intros state c Hc0 Hc1. by rewrite H2, decide_False, H1, decide_False.
Qed.

(** What an episode from [1, 1] does to the table. *)
Lemma one_one_episode fuel (agent0 : L) (g : G) r g' :
  run_game_episode_from (L2:=L) [1; 1]%Z fuel agent0 None true g
  = Some (Ok (r, g')) →
  no_action_zero (table agent0) →
  r.1 = Some 1%Z ∧ rate (agent r.2) = rate agent0 ∧
  no_action_zero (table (agent r.2)) ∧
  ∃ a b, [a; b] ∈ one_one_games ∧
    estimate (agent r.2) [1; 1]%Z a + 1
    == (1 - rate agent0) * (estimate agent0 [1; 1]%Z a + 1) ∧
    estimate (agent r.2) (Spec.after [1; 1]%Z a) b - 1
    == (1 - rate agent0) * (estimate agent0 (Spec.after [1; 1]%Z a) b - 1) ∧
    estimate (agent r.2) [1; 1]%Z b == estimate agent0 [1; 1]%Z b.
Proof.
  intros (acts & final & Hm & <- & Hw & Hr)%self_play_replay Hz.
  destruct (moves_one_one acts final Hm Hw) as [Hacts ->]. split; [done|].
  unfold one_one_games in Hacts.
  repeat (apply elem_of_cons in Hacts as [-> | Hacts]);
    [..|by apply elem_of_nil in Hacts];
    match type of Hr with
    | replay _ (Spec.expected _ _ [?a; ?b]) _ = _ =>
      apply (replay_two_plies _ [1; 1]%Z a (Spec.after [1; 1]%Z a) b) in Hr
        as (Hrate & Hz' & H0 & H1 & Hother); [|by_decide|done|by_decide];
      (split_and!; [done..|]); exists a, b; (split; [by_decide|]);
      rewrite H0, H1, (Hother [1; 1]%Z b) by by_decide
    end;
    unfold QTable.td_update; split_and!; ring.
Qed.

Lemma one_one_episode_distance fuel (agent0 : L) (g : G) r g' :
  run_game_episode_from (L2:=L) [1; 1]%Z fuel agent0 None true g
  = Some (Ok (r, g')) →
  no_action_zero (table agent0) →
  rate (agent r.2) = rate agent0 ∧ no_action_zero (table (agent r.2)) ∧
  distance (agent r.2) == (1 - rate agent0) * distance agent0.
Proof.
  intros Hrun Hz.
  destruct (one_one_episode _ _ _ _ _ Hrun Hz)
    as (_ & Hα & Hz' & a & b & Hab & Ha & _ & Hb).
  split_and!; [done..|]. unfold distance, one_one_games in *.
  repeat (apply elem_of_cons in Hab as [[= -> ->] | Hab]);
    [..|by apply elem_of_nil in Hab]; rewrite Hb; nra.
Qed.

(** Episodes of training from [1, 1], one after the other. *)
Lemma train_one_one fuel k (agent0 : L) (g : G) agent' g' :
  repeat_loop k
    (λ agent, let+ '(_, who) :=
                run_game_episode_from (L2:=L) [1; 1]%Z fuel agent None true in
              retF (Engine.agent who)) agent0 g
  = Some (Ok (agent', g')) →
  no_action_zero (table agent0) →
  rate agent' = rate agent0 ∧
  distance agent' == (1 - rate agent0) ^ Z.of_nat k * distance agent0.
Proof.
  revert agent0 g. induction k as [|k IH]; intros agent0 g Hloop Hz.
  - injection Hloop as <- <-. split; [done|]. simpl. ring.
  - simpl in Hloop.
    apply bindF_Ok_inv in Hloop as (agent1 & g1 & Hbody & Hloop).
    apply bindF_Ok_inv in Hbody as ([w who] & g2 & Hrun & [= <- <-]).
    apply one_one_episode_distance in Hrun as (Hα1 & Hz1 & Hd1); [|done].
    simpl in Hα1, Hz1, Hd1.
    apply IH in Hloop as [Hα Hd]; [|done]. split; [congruence|].
    rewrite Hd, Hd1, Hα1, Nat2Z.inj_succ, <-Z.add_1_r.
    rewrite Qpower_plus' by lia. simpl (_ ^ 1). ring.
Qed.

End main_one_one.

Section main_training.
Context `{HG : RandomGen G} {L : Type} `{HA : !Agent G L}.
Context `{HT : !TerminalUpdate G L}.
#[local] Open Scope Q_scope.

(** C8: In the game [1, 1] the opening move loses and is learnt to.
    A training episode of either learner in self-play from [1, 1],
    with nothing stored under "no action", is won by seat 1; the
    estimate of the opening action played moves towards -1 by the
    factor [1 - alpha], the estimate of the reply moves towards +1 by
    the same factor, and the estimate of the other opening action is
    unchanged. *)
Theorem one_one_opening_loses fuel (agent0 : L) (g : G) r g' :
  run_game_episode_from (L2:=L) [1; 1]%Z fuel agent0 None true g
  = Some (Ok (r, g')) →
  no_action_zero (table agent0) →
  r.1 = Some 1%Z ∧
  ∃ a b, [a; b] ∈ one_one_games ∧
    estimate (agent r.2) [1; 1]%Z a + 1
    == (1 - rate agent0) * (estimate agent0 [1; 1]%Z a + 1) ∧
    estimate (agent r.2) (Spec.after [1; 1]%Z a) b - 1
    == (1 - rate agent0) * (estimate agent0 (Spec.after [1; 1]%Z a) b - 1) ∧
    estimate (agent r.2) [1; 1]%Z b == estimate agent0 [1; 1]%Z b.
Proof.
  intros Hrun Hz.
  destruct (one_one_episode _ _ _ _ _ Hrun Hz) as (? & _ & _ & ?).
  by split.
Qed.

(** C9: Training on the game [1, 1] converges. After [n] episodes of
    self-play of either learner from [1, 1], with nothing stored under
    "no action" at the start, the product of the distances from -1 of
    the estimates of the two opening actions is [(1 - alpha) ^ n] times
    what it was: every episode brings one of the two closer to -1 by
    the factor [1 - alpha], and the learning rate is unchanged. From an
    empty table the product is [(1 - alpha) ^ n]. *)
Theorem one_one_training_converges fuel (agent0 : L) n_episodes (g : G)
    agent' g' :
  (0 ≤ n_episodes)%Z → no_action_zero (table agent0) →
  train_from [1; 1]%Z fuel agent0 n_episodes g = Some (Ok (agent', g')) →
  rate agent' = rate agent0 ∧
  distance agent' == (1 - rate agent0) ^ n_episodes * distance agent0 ∧
  (table agent0 = QTable.empty →
   distance agent' == (1 - rate agent0) ^ n_episodes).
Proof.
  intros Hn Hz [Hα Hd]%train_one_one; [|done].
  rewrite Z2Nat.id in Hd by done.
  split_and!; [done..|]. intros He. rewrite Hd.
  unfold distance, estimate. rewrite He, !QTable.get_empty. ring.
Qed.

End main_training.
