(* ===== verification/Credit.v ===== *)
(** Credit: which entries of the table a training episode writes, and
    with what. The schedule of Trace.v writes one entry per ply, each
    once, and the entries of the last two plies at the end of the game;
    with the laws of Learner.v this gives what an episode of
    [run_game_episode] of src/engine.py teaches an agent about the moves
    that ended the game, and what training keeps of it. *)

From Stdlib Require Import QArith Qpower Lqa.
From stdpp Require Import base numbers list gmap sets.
From S2P Require Import Prelude Runtime GameState ValueTable Learner.
From S2P Require Import EpisodeRunner Trace Replay.

Set Warnings "-clear-no-such-hyp".
#[local] Open Scope py_scope.
#[local] Open Scope Z_scope.

Import Engine.

(** ** The entries a log writes *)

(** The entry a call writes: that of the position and the action an
    update is given. *)
Definition written (e : event) : option QTable.key :=
  match e with
  | Updated old_state a _ _ => Some (old_state, a)
  | Chose _ _ _ => None
  end.

Definition keys (log : list event) : list QTable.key := omap written log.

(** What the schedule of a game that was played says of an update: it
    is the update of a ply with an action, from a position of at most
    [bound] objects, and if that ply took the last object, the update
    is the one with reward 1 and the final position. *)
Definition credit_ok (bound : Z) (e : event) : Prop :=
  match e with
  | Chose _ _ _ => True
  | Updated s oa new_state reward =>
    ∃ a, oa = Some a ∧ sumZ s ≤ bound ∧
      (Nim.available_actions (Spec.after s a) = ∅ →
       reward = 1%Q ∧ new_state = Spec.after s a)
  end.

Section schedule.
Implicit Types (σ : Spec.state) (acts : list action) (game : Nim.game).

Lemma keys_updates log : keys (Spec.updates log) = keys log.
Proof.
  induction log as [|[] log IH]; [done|..].
  - by rewrite updates_Chose.
  - rewrite updates_Updated. unfold keys in *. simpl. by f_equal.
Qed.

Lemma Forall_updates (P : event → Prop) log :
  (∀ s explore a, P (Chose s explore a)) →
  Forall P (Spec.updates log) → Forall P log.
Proof.
  intros HP. induction log as [|[] log IH]; [done|..].
  - rewrite updates_Chose. auto.
  - rewrite updates_Updated. intros [? ?]%Forall_cons. auto.
Qed.

Lemma credit_ok_mono bound bound' e :
  bound ≤ bound' → credit_ok bound e → credit_ok bound' e.
Proof.
  intros Hb. destruct e as [|s oa n r]; [done|]. intros (a & ? & ? & ?).
  exists a. split_and!; [done | lia | done].
Qed.

(** A ply after which no action is left is the last of the game. *)
Lemma moves_finished game a game' rest final :
  Nim.move game (Some a) = Ok game' → Nim.moves game' rest = Ok final →
  Nim.available_actions (Spec.after (Nim.piles game) a) = ∅ → rest = [].
Proof.
  intros Ha Hm He. destruct rest as [|b rest]; [done|].
  apply Nim.moves_cons_inv in Hm as (g2 & Hb & _).
  apply Nim.move_Ok_inv in Hb as (i & c & [= ->] & _ & Hl & _).
  apply Nim.available_actions_legal in Hl.
  rewrite (move_after _ _ _ Ha), He in Hl. set_solver.
Qed.

(** The updates of a played game, one per ply. *)
Lemma finalised_ok game σ acts final :
  Nim.moves game acts = Ok final → Spec.pos σ = Nim.piles game →
  Forall (credit_ok (Nim.remaining game)) (Spec.finalised σ acts).
Proof.
  revert game σ. induction acts as [|a rest IH]; intros game σ Hm Hσ; [done|].
  apply Nim.moves_cons_inv in Hm as (g1 & Ha & Hm).
  pose proof (move_after _ _ _ Ha) as Hp.
  pose proof (Nim.move_decreases _ _ _ Ha) as Hlt.
  apply Forall_cons. split.
  - exists a. unfold Nim.remaining. rewrite Hσ. split_and!; [done..|].
    intros He. rewrite (moves_finished _ _ _ _ _ Ha Hm He). simpl.
    by rewrite Hσ.
  - eapply Forall_impl; [apply (IH g1); [done|by rewrite Hp, <-Hσ]|].
    intros e. apply credit_ok_mono. lia.
Qed.

(** No entry is written twice. *)
Lemma finalised_keys_NoDup game σ acts final :
  Nim.moves game acts = Ok final → Spec.pos σ = Nim.piles game →
  NoDup (keys (Spec.finalised σ acts)).
Proof.
  revert game σ. induction acts as [|a rest IH]; intros game σ Hm Hσ;
    [constructor|].
  apply Nim.moves_cons_inv in Hm as (g1 & Ha & Hm).
  pose proof (move_after _ _ _ Ha) as Hp.
  assert (Spec.pos (Spec.step σ a) = Nim.piles g1) as Hσ1
    by (by rewrite Hp, <-Hσ).
  apply NoDup_cons. split; [|by apply (IH g1)].
  intros (e & He & Hk)%list_elem_of_omap.
  pose proof (finalised_ok _ _ _ _ Hm Hσ1) as Hok.
  rewrite Forall_forall in Hok. apply Hok in He.
  destruct e as [|s oa n r]; [done|]. destruct He as (b & _ & Hs & _).
  injection Hk as -> _. apply Nim.move_decreases in Ha.
  unfold Nim.remaining in *. rewrite Hσ in Hs. lia.
Qed.

(** The same of the whole log of an episode. *)
Lemma expected_updates initial acts :
  Spec.updates (Spec.expected true (Spec.start initial) acts)
  ≡ₚ Spec.finalised (Spec.start initial) acts.
Proof. rewrite updates_expected. by destruct acts as [|a [|b acts]]. Qed.

Lemma expected_ok initial acts final :
  Nim.moves (Nim.init initial) acts = Ok final →
  Forall (credit_ok (sumZ initial))
    (Spec.expected true (Spec.start initial) acts) ∧
  NoDup (keys (Spec.expected true (Spec.start initial) acts)).
Proof.
  intros Hm. split.
  - apply Forall_updates; [done|]. rewrite expected_updates.
    by apply (finalised_ok (Nim.init initial) _ _ final).
  - rewrite <-keys_updates. unfold keys. rewrite expected_updates.
    by apply (finalised_keys_NoDup (Nim.init initial) _ _ final).
Qed.

(** The positions of the schedule are those of the game. *)
Lemma pos_foldl σ acts :
  Spec.pos (foldl Spec.step σ acts) = foldl Spec.after (Spec.pos σ) acts.
Proof. revert σ. induction acts as [|a acts IH]; intros σ; [done|apply IH]. Qed.

Lemma moves_pos game acts final :
  Nim.moves game acts = Ok final →
  Nim.piles final = foldl Spec.after (Nim.piles game) acts.
Proof.
  revert game. induction acts as [|a acts IH]; intros game Hm.
  - by injection Hm as <-.
  - apply Nim.moves_cons_inv in Hm as (g1 & Ha & Hm).
    rewrite (IH _ Hm), (move_after _ _ _ Ha). done.
Qed.

(** The two updates the last ply of a game emits. *)
Lemma last_ply_win σ a :
  Updated (Spec.pos σ) (Some a) (Spec.after (Spec.pos σ) a) 1
  ∈ Spec.last_ply_events true σ a.
Proof. unfold Spec.last_ply_events. case_decide; set_solver. Qed.

Lemma last_ply_lose σ a s b :
  Spec.prev σ = Some (s, b) →
  Updated s (Some b) (Spec.after (Spec.pos σ) a) (-1)
  ∈ Spec.last_ply_events true σ a.
Proof.
  intros Hp. unfold Spec.last_ply_events, Spec.pending. rewrite Hp.
  case_decide; set_solver.
Qed.

(** The end of a game that was won: no action is left after the last
    ply, and the schedule has the update of the last ply with reward 1
    and that of the ply before it with reward -1. *)
Lemma ended_schedule initial played a final :
  Nim.moves (Nim.init initial) (played ++ [a]) = Ok final →
  is_Some (Nim.winner final) →
  let s := foldl Spec.after initial played in
  let log := Spec.expected true (Spec.start initial) (played ++ [a]) in
  Nim.available_actions (Spec.after s a) = ∅ ∧
  Updated s (Some a) (Spec.after s a) 1 ∈ log ∧
  ∀ before b, played = before ++ [b] →
    Updated (foldl Spec.after initial before) (Some b) (Spec.after s a) (-1)
    ∈ log.
Proof.
  intros Hm Hw s log. subst s log. rewrite expected_snoc.
  pose proof (pos_foldl (Spec.start initial) played) as Hp. simpl in Hp.
  split_and!.
  - pose proof (moves_pos _ _ _ Hm) as Hf. rewrite foldl_snoc in Hf.
    simpl in Hf. rewrite <-Hf. apply Nim.available_actions_all_zero.
    rewrite Nim.moves_app in Hm.
    destruct (Nim.moves _ played) as [g1|]; [|done].
    apply Nim.moves_cons_inv in Hm as (g2 & Ha & [= ->]).
    by apply (Nim.move_terminal_inv _ _ _ Ha).
  - rewrite <-Hp. apply elem_of_app. right. apply last_ply_win.
  - intros before b ->. rewrite <-Hp. apply elem_of_app. right.
    apply last_ply_lose. rewrite foldl_snoc. simpl.
    by rewrite (pos_foldl (Spec.start initial) before).
Qed.

End schedule.

(** ** Replaying a log under the laws of the interface *)

Section replay_laws.
Context `{HG : RandomGen G} {L : Type} `{HA : !Agent G L}.
Implicit Types (self : L) (g : G) (log : list event) (k : QTable.key).

Lemma replay_app self log1 log2 g :
  replay self (log1 ++ log2) g
  = (let* self' := replay self log1 in replay self' log2) g.
Proof.
  revert self g. induction log1 as [|e log1 IH]; intros self g; [done|].
  unfold bind. rewrite <-app_comm_cons, !replay_cons. unfold bind.
  destruct (replay_event self e g) as [[self1 g1]|]; [apply IH | done].
Qed.

(** What every call of a log keeps holds after the log. *)
Lemma replay_inv (I : L → Prop) (P : event → Prop) log self g self' g' :
  (∀ e self g self' g',
     P e → I self → replay_event self e g = Ok (self', g') → I self') →
  Forall P log → I self → replay self log g = Ok (self', g') → I self'.
Proof.
  intros Hstep. revert self g.
  induction log as [|e log IH]; intros self g Hall HI Hr.
  - by injection Hr as <- _.
  - rewrite replay_cons in Hr. apply bind_Ok_inv in Hr as (self1 & g1 & He & Hr).
    apply Forall_cons in Hall as [HP Hall]. eauto.
Qed.

Lemma estimate_lookup self self' s a :
  table self' !! (s, Some a) = table self !! (s, Some a) →
  estimate self' s a = estimate self s a.
Proof. unfold estimate, QTable.get. by intros ->. Qed.

Lemma not_written k log :
  k ∉ keys log → Forall (λ e, written e ≠ Some k) log.
Proof.
  intros Hk. apply Forall_forall. intros e He Hw. apply Hk.
  apply list_elem_of_omap. eauto.
Qed.

Lemma credit_ok_action bound e s :
  credit_ok bound e → written e ≠ Some (s, None).
Proof. destruct e as [|s1 oa n r]; [done|]. by intros (a & -> & _) [=]. Qed.

Context `{HL : !AgentLaws G L}.

Lemma replay_event_rate self e g self' g' :
  replay_event self e g = Ok (self', g') → rate self' = rate self.
Proof.
  destruct e as [|s a n r]; [by intros ->%replay_choice|]. simpl. intros Hu.
  destruct (update_model_total self s a n r g) as (self1 & g1 & Hu1 & Hr).
  congruence.
Qed.

Lemma replay_event_frame self e g self' g' k :
  replay_event self e g = Ok (self', g') → written e ≠ Some k →
  table self' !! k = table self !! k.
Proof.
  destruct e as [|s a n r]; [by intros ->%replay_choice|]. simpl.
  intros Hu Hk. eapply update_model_frame; [done|]. by intros ->.
Qed.

Lemma replay_event_no_action self e g self' g' :
  replay_event self e g = Ok (self', g') →
  (∀ s, written e ≠ Some (s, None)) →
  no_action_zero (table self) → no_action_zero (table self').
Proof.
  intros He Hw Hz state. unfold QTable.get.
  assert (table self' !! (state, None) = table self !! (state, None)) as ->
    by (by eapply replay_event_frame).
  apply Hz.
Qed.

(** The learning rate, the entries no call writes and the entries
    under "no action" after a log. *)
Lemma replay_rate self log g self' g' :
  replay self log g = Ok (self', g') → rate self' = rate self.
Proof.
  apply (replay_inv (λ s, rate s = rate self) (λ _, True));
    [|by apply Forall_true|done].
  intros e s1 g1 s2 g2 _ Hr ->%replay_event_rate. done.
Qed.

Lemma replay_frame self log g self' g' k :
  replay self log g = Ok (self', g') →
  Forall (λ e, written e ≠ Some k) log →
  table self' !! k = table self !! k.
Proof.
  intros Hr Hall. revert Hr.
  apply (replay_inv (λ s, table s !! k = table self !! k) _ _ _ _ _ _)
    with (2:=Hall); [|done].
  intros e s1 g1 s2 g2 Hw <- He. by eapply replay_event_frame.
Qed.

Lemma replay_no_action self log g self' g' :
  replay self log g = Ok (self', g') →
  Forall (λ e, ∀ s, written e ≠ Some (s, None)) log →
  no_action_zero (table self) → no_action_zero (table self').
Proof.
  intros Hr Hall Hz state. unfold QTable.get.
  assert (table self' !! (state, None) = table self !! (state, None)) as ->;
    [|apply Hz].
  eapply replay_frame; [done|]. eapply Forall_impl; [done|]. by intros e He.
Qed.

End replay_laws.

(** ** What an episode teaches about the moves that ended it *)

Section credit.
Context `{HG : RandomGen G} {L : Type} `{HA : !Agent G L}.
Context `{HL : !AgentLaws G L} `{HT : !TerminalUpdate G L}.
#[local] Open Scope Q_scope.
Implicit Types (self : L) (g : G) (log : list event).

(** An entry that a log writes once, at the end of a game. *)
Lemma replay_written_once self log g self' g' s a new_state reward :
  replay self log g = Ok (self', g') → NoDup (keys log) →
  Forall (λ e, ∀ s, written e ≠ Some (s, None)) log →
  Updated s (Some a) new_state reward ∈ log →
  Nim.available_actions new_state = ∅ → no_action_zero (table self) →
  estimate self' s a
  == QTable.td_update (rate self) (estimate self s a) reward 0.
Proof.
  intros Hr Hnd Hact (l1 & l2 & ->)%list_elem_of_split He Hz.
  rewrite replay_app in Hr. apply bind_Ok_inv in Hr as (s1 & g1 & H1 & Hr).
  rewrite replay_cons in Hr. apply bind_Ok_inv in Hr as (s2 & g2 & H2 & Hr).
  apply Forall_app in Hact as [Hact1 _].
  unfold keys in Hnd. rewrite omap_app in Hnd. simpl in Hnd.
  apply NoDup_app in Hnd as (_ & Hk1 & [Hk2 _]%NoDup_cons).
  apply replay_finished in H2 as (_ & _ & Hv);
    [|done|by eapply replay_no_action].
  assert (estimate self' s a = estimate s2 s a) as ->
    by (apply estimate_lookup; eapply replay_frame, not_written; done).
  assert (estimate s1 s a = estimate self s a) as H0.
  { apply estimate_lookup. eapply replay_frame, not_written; [done|].
    intros Hk. apply (Hk1 _ Hk), elem_of_cons. by left. }
  rewrite Hv, decide_True by done.
  by rewrite (replay_rate _ _ _ _ _ H1), H0.
Qed.

(** What is kept of an entry whose action leaves no object: the
    learning rate, the entries under "no action", and an estimate
    between a lower bound and 1. *)
Definition winning_entry_inv (α lo : Q) (s : list Z) (a : action) self : Prop :=
  rate self = α ∧ no_action_zero (table self) ∧ lo <= estimate self s a <= 1.

Lemma credit_step α lo s a bound e self g self' g' :
  0 <= α <= 1 → Nim.available_actions (Spec.after s a) = ∅ →
  credit_ok bound e → winning_entry_inv α lo s a self →
  replay_event self e g = Ok (self', g') →
  winning_entry_inv α lo s a self'.
Proof.
  intros Hα He Hok (Hr & Hz & Hlo & Hhi) Hev.
  destruct e as [|s1 oa n r]; [by apply replay_choice in Hev as ->|].
  destruct Hok as (b & -> & _ & Hlast).
  destruct (decide ((s1, b) = (s, a))) as [[= -> ->]|Hne].
  - destruct (Hlast He) as [-> ->].
    apply replay_finished in Hev as (Hr' & Hz' & Hv'); [|done..].
    split_and!; [congruence | done |..]; rewrite Hv', decide_True, Hr by done;
      unfold QTable.td_update; nra.
  - split_and!.
    + by rewrite (replay_event_rate _ _ _ _ _ Hev).
    + eapply replay_event_no_action; [done| |done]. by intros s2 [=].
    + rewrite (estimate_lookup self self'); [done|].
      eapply replay_event_frame; [done|]. by intros [= -> ->].
    + rewrite (estimate_lookup self self'); [done|].
      eapply replay_event_frame; [done|]. by intros [= -> ->].
Qed.

Lemma episode_keeps_winning α lo s a initial fuel (agent0 : L) g r g' :
  0 <= α <= 1 → Nim.available_actions (Spec.after s a) = ∅ →
  winning_entry_inv α lo s a agent0 →
  run_game_episode_from (L2:=L) initial fuel agent0 None true g
  = Some (Ok (r, g')) →
  winning_entry_inv α lo s a (agent r.2).
Proof.
  intros Hα He HI (acts & final & Hm & _ & _ & Hr)%self_play_replay.
  destruct (expected_ok _ _ _ Hm) as [Hok _].
  revert Hr. apply (replay_inv _ _ _ _ _ _ _) with (2:=Hok); [|done].
  intros e self g1 self' g2. by apply credit_step.
Qed.

End credit.

(** ** Main theorems of the component *)

Section main_credit.
Context `{HG : RandomGen G} {L : Type} `{HA : !Agent G L}.
Context `{HL : !AgentLaws G L} `{HT : !TerminalUpdate G L}.
#[local] Open Scope Q_scope.

(** C19: The moves that end a game are credited with its result. A
    training episode of self-play, from any initial position and for
    either learner with nothing stored under "no action", is a game of
    at least one ply; the estimate of its last ply (position and
    action) moves towards +1 by the factor [1 - alpha], and the
    estimate of the ply before it, if there is one, towards -1 by the
    same factor: the rewards of the end of the game reach exactly
    these two entries, each once, whatever was updated before. The
    learning rate is unchanged. *)
Theorem last_moves_credited initial fuel (agent0 : L) (g : G) r g' :
  run_game_episode_from (L2:=L) initial fuel agent0 None true g
  = Some (Ok (r, g')) →
  no_action_zero (table agent0) →
  ∃ played a final,
    Nim.moves (Nim.init initial) (played ++ [a]) = Ok final ∧
    Nim.winner final = r.1 ∧ rate (agent r.2) = rate agent0 ∧
    (let s := foldl Spec.after initial played in
     estimate (agent r.2) s a - 1
     == (1 - rate agent0) * (estimate agent0 s a - 1)) ∧
    ∀ before b, played = before ++ [b] →
      let s := foldl Spec.after initial before in
      estimate (agent r.2) s b + 1
      == (1 - rate agent0) * (estimate agent0 s b + 1).
Proof.
  intros (acts & final & Hm & Hw & Hsome & Hr)%self_play_replay Hz.
  destruct acts as [|a played _] using rev_ind.
  { injection Hm as <-. rewrite <-Hw in Hsome. by destruct Hsome. }
  destruct (expected_ok _ _ _ Hm) as [Hok Hnd].
  destruct (ended_schedule _ _ _ _ Hm) as (He & Hwin & Hlose);
    [by rewrite Hw|].
  assert (Forall (λ e, ∀ s, written e ≠ Some (s, None))
            (Spec.expected true (Spec.start initial) (played ++ [a]))) as Hact.
  { eapply Forall_impl; [done|]. intros e He' s. by eapply credit_ok_action. }
  exists played, a, final. split_and!; [done | done | by eapply replay_rate |..].
  - simpl. rewrite (replay_written_once _ _ _ _ _ _ _ _ _ Hr Hnd Hact Hwin He Hz).
    unfold QTable.td_update. ring.
  - intros before b Hp. simpl.
    rewrite (replay_written_once _ _ _ _ _ _ _ _ _ Hr Hnd Hact
               (Hlose before b Hp) He Hz).
    unfold QTable.td_update. ring.
Qed.

(** C28: A move that takes the last object is never unlearnt. Through
    any number of training episodes, from any initial position and for
    either learner with a learning rate in [0, 1] and nothing stored
    under "no action", the estimate of an action after which no object
    is left never falls below what it was and never exceeds 1: such an
    entry is written only at the end of a game that the action won,
    with reward +1. The learning rate is unchanged. *)
Theorem winning_move_never_unlearnt initial fuel (agent0 : L) n_episodes
    (g : G) agent' g' s a :
  0 <= rate agent0 <= 1 → no_action_zero (table agent0) →
  Nim.available_actions (Spec.after s a) = ∅ → estimate agent0 s a <= 1 →
  train_from initial fuel agent0 n_episodes g = Some (Ok (agent', g')) →
  rate agent' = rate agent0 ∧
  estimate agent0 s a <= estimate agent' s a <= 1.
Proof.
  intros Hα Hz He Hle Htrain.
  apply (repeat_loop_inv
           (winning_entry_inv (rate agent0) (estimate agent0 s a) s a))
    in Htrain as (? & _ & ?); [done| |by split_and!; [| |lra|]].
  intros agent g1 agent1 g2 HI ([w who] & g3 & Hrun & [= <- <-])%bindF_Ok_inv.
  by apply (episode_keeps_winning _ _ _ _ _ _ _ _ _ _ Hα He HI Hrun).
Qed.

End main_credit.
