(* ===== verification/Evaluation.v ===== *)
(** Evaluation: [play_ai_vs_ai] of src/engine.py, a series of games
    between two agents with training off, the wins of each seat counted
    and the two counters appended to the win histories after every
    game. The histories are what the function hands to
    [plot_performance]; they are proved to be the cumulative win counts
    of the games played. *)

From Stdlib Require Import QArith Lqa.
From stdpp Require Import base numbers list gmap sets.
From S2P Require Import Prelude Runtime GameState ValueTable Learner.
From S2P Require Import EpisodeRunner.

Set Warnings "-clear-no-such-hyp".
#[local] Open Scope py_scope.
#[local] Open Scope Z_scope.

Module Evaluation.

Import Engine.

Section evaluation.
Context `{RandomGen G} {L1 L2 : Type} `{!Agent G L1} `{!Agent G L2}.

(** The locals of [play_ai_vs_ai] and its two arguments, which the
    episodes are given and hand back. *)
Record series : Type := Series {
  agent1 : L1;
  agent2 : L2;
  wins : list Z;
  win_progress : list (list Z)
}.

(** [if winner is not None: wins[winner] += 1] *)
Definition count_win (wins : list Z) (winner : option Z) : M G (list Z) :=
  match winner with
  | Some w =>
    let* n := lift (getitem wins w) in
    lift (setitem wins w (n + 1))
  | None => ret wins
  end.

(** [win_progress[i].append(wins[i])]: the history is looked up, then
    the counter, and the history grows in place. *)
Definition append_progress (wins : list Z) (win_progress : list (list Z))
    (i : Z) : M G (list (list Z)) :=
  let* history := lift (getitem win_progress i) in
  let* n := lift (getitem wins i) in
  lift (setitem win_progress i (history ++ [n])).

(** The body of [for _ in range(n_games)]. *)
Definition game_round (fuel : nat) (s : series) : MF G series :=
  let+ '(winner, who) :=
    run_game_episode fuel (agent1 s) (Some (agent2 s)) false in
  let+ wins := liftF (count_win (wins s) winner) in
  let+ win_progress := liftF (
    let* win_progress := append_progress wins (win_progress s) 0 in
    append_progress wins win_progress 1) in
  retF {| agent1 := agent who;
          agent2 := default (agent2 s) (opponent who);
          wins := wins; win_progress := win_progress |}.

(** [play_ai_vs_ai(agent1, agent2, n_games)], up to the call of
    [plot_performance]: the value is the locals at that point. *)
Definition play_ai_vs_ai (fuel : nat) (agent1 : L1) (agent2 : L2)
    (n_games : Z) : MF G series :=
  repeat_loop (Z.to_nat n_games) (game_round fuel)
    {| agent1 := agent1; agent2 := agent2; wins := [0; 0];
       win_progress := [[]; []] |}.

End evaluation.

Arguments series : clear implicits.

(** ** Specification: cumulative counts of a sequence of winners *)

(** How many of the games seat [i] has won. *)
Definition count (i : Z) (winners : list Z) : Z :=
  Z.of_nat (length (filter (λ w, w = i) winners)).

(** The count after each game. *)
Definition cumulative (i : Z) (winners : list Z) : list Z :=
  (λ k, count i (take (S k) winners)) <$> seq 0 (length winners).

(** A history that starts at 0 or 1 and grows by 0 or 1 a game. *)
Definition steps_by_one (history : list Z) : Prop :=
  (∀ x, history !! 0%nat = Some x → 0 ≤ x ≤ 1) ∧
  ∀ k x y, history !! k = Some x → history !! S k = Some y → x ≤ y ≤ x + 1.

(** ** The cumulative counts *)

Section counts.
Implicit Types (i w : Z) (winners : list Z).

Definition seats winners : Prop := Forall (λ w, w = 0 ∨ w = 1) winners.

Lemma count_snoc i winners w :
  count i (winners ++ [w])
  = count i winners + (if decide (w = i) then 1 else 0).
Proof.
  unfold count. rewrite filter_app, length_app, filter_cons, filter_nil.
  case_decide; simpl; lia.
Qed.

Lemma count_seats winners :
  seats winners → count 0 winners + count 1 winners = Z.of_nat (length winners).
Proof.
  induction winners as [|w winners IH] using rev_ind; [done|].
  intros [Hws Hw%Forall_inv]%Forall_app. rewrite !count_snoc, length_app.
  specialize (IH Hws). simpl. destruct Hw as [-> | ->]; simpl; lia.
Qed.

Lemma length_cumulative i winners :
  length (cumulative i winners) = length winners.
Proof. unfold cumulative. by rewrite length_fmap, length_seq. Qed.

Lemma cumulative_lookup i winners k x :
  cumulative i winners !! k = Some x ↔
  (k < length winners)%nat ∧ x = count i (take (S k) winners).
Proof.
  unfold cumulative. rewrite list_lookup_fmap, fmap_Some. split.
  - intros (k' & [-> ?]%lookup_seq & ->). done.
  - intros [? ->]. exists k. by rewrite lookup_seq.
Qed.

Lemma cumulative_snoc i winners w :
  cumulative i (winners ++ [w])
  = cumulative i winners ++ [count i (winners ++ [w])].
Proof.
  unfold cumulative. rewrite length_app, Nat.add_1_r, seq_S, fmap_app.
  simpl. f_equal.
  - apply list_fmap_ext. intros k' k [-> Hk]%lookup_seq.
    by rewrite take_app_le by lia.
  - by rewrite take_ge by (rewrite length_app; simpl; lia).
Qed.

Lemma count_take_step i winners k :
  count i (take k winners) ≤ count i (take (S k) winners)
  ≤ count i (take k winners) + 1.
Proof.
  destruct (winners !! k) as [w|] eqn:Hk.
  - rewrite (take_S_r _ _ _ Hk), count_snoc. case_decide; lia.
  - apply lookup_ge_None in Hk. rewrite !take_ge by lia. lia.
Qed.

Lemma cumulative_steps i winners : steps_by_one (cumulative i winners).
Proof.
  split.
  - intros x [_ ->]%cumulative_lookup.
    pose proof (count_take_step i winners 0) as Hs. by rewrite take_0 in Hs.
  - intros k x y [_ ->]%cumulative_lookup [_ ->]%cumulative_lookup.
    apply count_take_step.
Qed.

Lemma cumulative_sum winners k x y :
  seats winners →
  cumulative 0 winners !! k = Some x → cumulative 1 winners !! k = Some y →
  x + y = Z.of_nat k + 1.
Proof.
  intros Hs [Hk ->]%cumulative_lookup [_ ->]%cumulative_lookup.
  rewrite count_seats by by apply Forall_take.
  rewrite length_take. lia.
Qed.

End counts.

(** ** The series against the laws of the interface *)

Section laws.
Context `{RandomGen G} {L1 L2 : Type} `{!Agent G L1} `{!Agent G L2}.
Context `{!AgentLaws G L1} `{!AgentLaws G L2}.
Implicit Types (s : series L1 L2) (g : G).

(** The winners of [n] evaluation games played one after the other
    from generator state [g]. *)
Fixpoint winners_of (fuel : nat) (a1 : L1) (a2 : L2) (n : nat) g : list Z :=
  match n with
  | O => []
  | S n =>
    match run_game_episode fuel a1 (Some a2) false g with
    | Some (Ok ((Some w, _), g')) => w :: winners_of fuel a1 a2 n g'
    | _ => []
    end
  end.

(** After the games with the given winners: the counters count them,
    the histories are their cumulative counts, and the agents are the
    ones the series was given. *)
Definition series_of (a1 : L1) (a2 : L2) (winners : list Z) s : Prop :=
  seats winners ∧
  wins s = [count 0 winners; count 1 winners] ∧
  win_progress s = [cumulative 0 winners; cumulative 1 winners] ∧
  agent1 s = a1 ∧ agent2 s = a2.

Lemma count_win_seat winners w g :
  w = 0 ∨ w = 1 →
  count_win [count 0 winners; count 1 winners] (Some w) g
  = Ok ([count 0 (winners ++ [w]); count 1 (winners ++ [w])], g).
Proof. intros [-> | ->]; by rewrite !count_snoc, !Z.add_0_r. Qed.

Lemma append_progress_both winners w g :
  (let* win_progress :=
     append_progress [count 0 (winners ++ [w]); count 1 (winners ++ [w])]
       [cumulative 0 winners; cumulative 1 winners] 0 in
   append_progress [count 0 (winners ++ [w]); count 1 (winners ++ [w])]
     win_progress 1) g
  = Ok ([cumulative 0 (winners ++ [w]); cumulative 1 (winners ++ [w])], g).
Proof. by rewrite !cumulative_snoc. Qed.

(** One game of the series: the episode returns a winner and the
    agents as they were, and the round records that winner. *)
Lemma game_round_step fuel a1 a2 winners s g :
  (16 ≤ fuel)%nat → series_of a1 a2 winners s →
  ∃ w g1 s1,
    run_game_episode fuel a1 (Some a2) false g
    = Some (Ok ((Some w, Players a1 (Some a2)), g1)) ∧
    game_round fuel s g = Some (Ok (s1, g1)) ∧
    series_of a1 a2 (winners ++ [w]) s1.
Proof.
  intros Hfuel (Hs & Hwins & Hprogress & <- & <-).
  destruct (run_game_episode_from_returns Nim.default_initial fuel (agent1 s)
              (Some (agent2 s)) false g)
    as ([winner who] & g1 & Hrun & Hw & _ & Hsame);
    [by_decide | by_decide | done |].
  specialize (Hsame eq_refl). simpl in Hw, Hsame. subst who.
  assert (∃ w, winner = Some w ∧ (w = 0 ∨ w = 1)) as (w & -> & Hw')
    by (destruct Hw as [-> | ->]; eauto).
  exists w, g1. eexists. split; [done|]. unfold game_round, run_game_episode.
  rewrite (bindF_Ok _ _ _ _ _ Hrun), Hwins, Hprogress.
  unfold bindF, liftF. rewrite count_win_seat, append_progress_both by done.
  split; [done|]. split_and!; try done. apply Forall_app.
  by split; [|constructor].
Qed.

Lemma repeat_game_round fuel a1 a2 n winners s g :
  (16 ≤ fuel)%nat → series_of a1 a2 winners s →
  ∃ s' g', repeat_loop n (game_round fuel) s g = Some (Ok (s', g')) ∧
    series_of a1 a2 (winners ++ winners_of fuel a1 a2 n g) s' ∧
    length (winners_of fuel a1 a2 n g) = n.
Proof.
  intros Hfuel. revert winners s g.
  induction n as [|n IH]; intros winners s g Hs; simpl.
  - exists s, g. by rewrite app_nil_r.
  - destruct (game_round_step fuel a1 a2 winners s g Hfuel Hs)
      as (w & g1 & s1 & -> & Hround & Hs1).
    destruct (IH _ _ g1 Hs1) as (s' & g' & Hloop & Hs' & Hlen).
    exists s', g'. rewrite (bindF_Ok _ _ _ _ _ Hround), <-app_assoc in *.
    simpl. by rewrite Hlen.
Qed.

Lemma play_ai_vs_ai_returns fuel (a1 : L1) (a2 : L2) n_games g :
  (16 ≤ fuel)%nat →
  let winners := winners_of fuel a1 a2 (Z.to_nat n_games) g in
  returnsF (play_ai_vs_ai fuel a1 a2 n_games) g (series_of a1 a2 winners) ∧
  length winners = Z.to_nat n_games.
Proof.
  intros Hfuel.
  destruct (repeat_game_round fuel a1 a2 (Z.to_nat n_games) []
              (Series a1 a2 [0; 0] [[]; []]) g Hfuel)
    as (s & g' & Hloop & Hs & Hlen); [by split; [constructor|]|].
  split; [by exists s, g' | done].
Qed.

End laws.

(** ** Main theorems of the component *)

Section main.
Context `{HG : RandomGen G} {L1 L2 : Type}.
Context `{HA1 : !Agent G L1} `{HA2 : !Agent G L2}.
Context `{HL1 : !AgentLaws G L1} `{HL2 : !AgentLaws G L2}.

(** C17: The evaluation counts the games won. With agents that satisfy
    the laws of the interface, [play_ai_vs_ai] raises nothing, plays
    [n_games] games that each have seat 0 or seat 1 as winner, and ends
    with [wins] holding the number of games each seat has won and
    [win_progress] holding, for each seat, that number after every
    game; the two agents are as they were given. *)
Theorem play_ai_vs_ai_counts fuel (a1 : L1) (a2 : L2) n_games (g : G) :
  (16 ≤ fuel)%nat →
  let winners := winners_of fuel a1 a2 (Z.to_nat n_games) g in
  ∃ s g', play_ai_vs_ai fuel a1 a2 n_games g = Some (Ok (s, g')) ∧
    length winners = Z.to_nat n_games ∧ seats winners ∧
    wins s = [count 0 winners; count 1 winners] ∧
    win_progress s = [cumulative 0 winners; cumulative 1 winners] ∧
    agent1 s = a1 ∧ agent2 s = a2.
Proof.
  intros Hfuel winners.
  destruct (play_ai_vs_ai_returns fuel a1 a2 n_games g Hfuel)
    as [(s & g' & Hplay & Hs & ? & ? & ? & ?) Hlen].
  exists s, g'. by split_and!.
Qed.

(** C25: The win histories are cumulative. The two lists handed to
    [plot_performance] have one entry per game, each starts at 0 or 1
    and grows by 0 or 1 from one game to the next, and after game
    [k + 1] the two entries add up to [k + 1]: every game is counted
    for exactly one seat. *)
Theorem win_progress_cumulative fuel (a1 : L1) (a2 : L2) n_games (g : G)
    s g' :
  (16 ≤ fuel)%nat →
  play_ai_vs_ai fuel a1 a2 n_games g = Some (Ok (s, g')) →
  ∃ h0 h1, win_progress s = [h0; h1] ∧
    length h0 = Z.to_nat n_games ∧ length h1 = Z.to_nat n_games ∧
    steps_by_one h0 ∧ steps_by_one h1 ∧
    ∀ k x y, h0 !! k = Some x → h1 !! k = Some y → x + y = Z.of_nat k + 1.
Proof.
  intros Hfuel Hplay.
  destruct (play_ai_vs_ai_returns fuel a1 a2 n_games g Hfuel)
    as [(s1 & g1 & Hloop & Hs & _ & Hp & _) Hlen].
  rewrite Hplay in Hloop. injection Hloop as <- <-.
  eexists _, _. split; [done|]. rewrite !length_cumulative.
  split_and!; [done | done | apply cumulative_steps.. |].
  intros k x y. by apply cumulative_sum.
Qed.

End main.

End Evaluation.
