(* ===== verification/Interactive.v ===== *)
(** Interactive: [play] and [get_valid_user_action] of src/engine.py, a
    game between a person at the console and an agent that does not
    explore. The console is a list of lines still to be read, kept
    beside the generator state; a line is what [int] makes of it.
    Printing is output only and is left out. *)

From Stdlib Require Import QArith Lqa.
From stdpp Require Import base numbers list gmap sets.
From S2P Require Import Prelude Runtime GameState ValueTable Learner.
From S2P Require Import EpisodeRunner.

Set Warnings "-clear-no-such-hyp".
#[local] Open Scope py_scope.
#[local] Open Scope Z_scope.

Module Interactive.

(** A line of input: the text of an integer, or text that [int]
    rejects. *)
Inductive line : Type :=
| Int (n : Z)
| Text.

(** The generator and the lines not yet read. *)
Definition console (G : Type) : Type := G * list line.

(** [int(s)] *)
Definition int (l : line) : result Z :=
  match l with
  | Int n => Ok n
  | Text => Raise ValueError
  end.

(** The loop of [get_valid_user_action] on the lines to read. Every
    pass reads a line or ends with [EOFError], so the recursion is on
    the lines: [input()] takes the first; a [ValueError] of either
    [int] is caught and the loop starts again; a pair that is no legal
    action starts it again; a legal pair is returned with the lines
    left. *)
Fixpoint prompt (actions : gset action) (lines : list line)
    : result (action * list line) :=
  match lines with
  | [] => Raise EOFError
  | l1 :: lines =>
    match int l1 with
    | Ok pile =>
      match lines with
      | [] => Raise EOFError
      | l2 :: lines =>
        match int l2 with
        | Ok count =>
          if decide ((pile, count) ∈ actions) then Ok ((pile, count), lines)
          else prompt actions lines
        | Raise ValueError => prompt actions lines
        | Raise e => Raise e
        end
      end
    | Raise ValueError => prompt actions lines
    | Raise e => Raise e
    end
  end.

(** [get_valid_user_action(piles)] *)
Definition get_valid_user_action {G} (piles : list Z)
    : M (console G) action :=
  let actions := Nim.available_actions piles in
  λ t, match prompt actions t.2 with
       | Ok (a, lines) => Ok (a, (t.1, lines))
       | Raise e => Raise e
       end.

Section play.
Context `{RandomGen G} {L : Type} `{!Agent G L}.

(** The body of [while game.winner is None]. The agent is asked
    without exploration; the message printed after its choice reads
    [action[1]] and [action[0]], a [TypeError] on [None]. *)
Definition turn (agent : L) (human : Z) (game : Nim.game)
    : M (console G) Nim.game :=
  let* a :=
    if decide (Nim.player game = human)
    then let* a := get_valid_user_action (Nim.piles game) in ret (Some a)
    else let* a := on_gen (choose_action agent (Nim.piles game) false) in
         match a with
         | Some _ => ret a
         | None => raise TypeError
         end in
  lift (Nim.move game a).

Definition running (game : Nim.game) : bool :=
  bool_decide (Nim.winner game = None).

(** [play(agent, human)]: the seat of the person, drawn when it is not
    given, and the game at the end; the last message says whether
    [game.winner == human]. *)
Definition play (fuel : nat) (agent : L) (human : option Z)
    : MF (console G) (Z * Nim.game) :=
  let+ human := liftF (match human with
                       | None => on_gen (randint 0 1)
                       | Some human => ret human
                       end) in
  let+ game := while_loop fuel running (turn agent human)
                 (Nim.init Nim.default_initial) in
  retF (human, game).

End play.

(** ** Specification *)

(** Lines that [get_valid_user_action] reads and rejects: text where a
    number is expected, with the number before it if there is one, or
    two numbers that are no legal action. *)
Inductive rejected (actions : gset action) : list line → Prop :=
| rejected_nil : rejected actions []
| rejected_pile lines :
    rejected actions lines → rejected actions (Text :: lines)
| rejected_count pile lines :
    rejected actions lines → rejected actions (Int pile :: Text :: lines)
| rejected_move pile count lines :
    (pile, count) ∉ actions → rejected actions lines →
    rejected actions (Int pile :: Int count :: lines).

(** ** The prompt *)

Section prompt.
Context (actions : gset action).
Implicit Types (lines skipped rest : list line).

(** The cases of [prompt], as an induction principle. *)
Lemma prompt_ind (P : list line → result (action * list line) → Prop) :
  P [] (Raise EOFError) →
  (∀ pile, P [Int pile] (Raise EOFError)) →
  (∀ lines, P lines (prompt actions lines) →
            P (Text :: lines) (prompt actions lines)) →
  (∀ pile lines, P lines (prompt actions lines) →
                 P (Int pile :: Text :: lines) (prompt actions lines)) →
  (∀ pile count lines, (pile, count) ∈ actions →
     P (Int pile :: Int count :: lines) (Ok ((pile, count), lines))) →
  (∀ pile count lines, (pile, count) ∉ actions →
     P lines (prompt actions lines) →
     P (Int pile :: Int count :: lines) (prompt actions lines)) →
  ∀ lines, P lines (prompt actions lines).
Proof.
  intros Hnil Hone Htext Hcount Hin Hout lines.
  induction lines as [lines IH] using list_length_ind.
  destruct lines as [|[pile|] lines];
    [done| |apply (Htext lines), IH; simpl; lia].
  destruct lines as [|[count|] lines];
    [apply Hone| |apply (Hcount pile lines), IH; simpl; lia].
  simpl. case_decide; [by apply Hin|]. apply (Hout pile count lines); [done|].
  apply IH. simpl. lia.
Qed.

(** The only exception of the prompt is the end of the input. *)
Lemma prompt_raises lines e : prompt actions lines = Raise e → e = EOFError.
Proof.
  revert e.
  apply (prompt_ind (λ _ r, ∀ e, r = Raise e → e = EOFError));
    try (intros; by simplify_eq); auto.
Qed.

(** What the prompt returns is a legal action, entered after lines
    that were rejected. *)
Lemma prompt_sound lines a rest :
  prompt actions lines = Ok (a, rest) →
  a ∈ actions ∧
  ∃ skipped, rejected actions skipped ∧
             lines = skipped ++ Int a.1 :: Int a.2 :: rest.
Proof.
  revert a rest.
  apply (prompt_ind (λ lines r, ∀ a rest, r = Ok (a, rest) →
           a ∈ actions ∧ ∃ skipped, rejected actions skipped ∧
             lines = skipped ++ Int a.1 :: Int a.2 :: rest)); try done.
  - intros ls IH a rest (? & skipped & ? & ->)%IH.
    split; [done|]. exists (Text :: skipped). by split; [constructor|].
  - intros pile ls IH a rest (? & skipped & ? & ->)%IH.
    split; [done|]. exists (Int pile :: Text :: skipped).
    by split; [constructor|].
  - intros pile count ls Ha a rest [= <- <-].
    split; [done|]. exists []. by split; [constructor|].
  - intros pile count ls Ha IH a rest (? & skipped & ? & ->)%IH.
    split; [done|]. exists (Int pile :: Int count :: skipped).
    by split; [constructor|].
Qed.

(** A legal action entered after rejected lines is returned. *)
Lemma prompt_complete skipped pile count rest :
  rejected actions skipped → (pile, count) ∈ actions →
  prompt actions (skipped ++ Int pile :: Int count :: rest)
  = Ok ((pile, count), rest).
Proof.
  intros Hs Ha. induction Hs; simpl; [by rewrite decide_True|done..|].
  by rewrite decide_False.
Qed.

End prompt.

(** ** The game against the laws of the interface *)

Section laws.
Context `{RandomGen G} {L : Type} `{!Agent G L} `{!AgentLaws G L}.
Implicit Types (t : console G) (game : Nim.game).

(** The invariant and the measure of the loop of [play]. *)
Definition game_inv game : Prop := Nim.wf game ∧ Nim.terminal_inv game.

Definition plies_left game : nat := Z.to_nat (Nim.remaining game).

(** What a turn leaves: a game one ply shorter, or the end of input. *)
Definition progress game game' : Prop :=
  game_inv game' ∧ (plies_left game' < plies_left game)%nat.

Definition end_of_input (e : exn) : Prop := e = EOFError.

Lemma running_has_action game :
  game_inv game → running game = true →
  Nim.available_actions (Nim.piles game) ≠ ∅.
Proof.
  intros [(Hp & _) Ht] Hr%bool_decide_eq_true.
  apply Nim.available_actions_nonempty_pos; [done|].
  intros Hz%Ht. rewrite Hr in Hz. by destruct Hz.
Qed.

Lemma running_plies_left game :
  game_inv game → running game = true → (0 < plies_left game)%nat.
Proof.
  intros [(Hp & _) Ht] Hr%bool_decide_eq_true.
  pose proof (sumZ_nonneg _ Hp) as Hs. unfold plies_left, Nim.remaining.
  destruct (decide (sumZ (Nim.piles game) = 0)) as [Hz|]; [|lia].
  apply sumZ_all_zero, Ht in Hz; [|done]. rewrite Hr in Hz. by destruct Hz.
Qed.

Lemma get_valid_user_action_ends piles t :
  ends (get_valid_user_action piles) t
    (λ a, a ∈ Nim.available_actions piles) end_of_input.
Proof.
  unfold ends, get_valid_user_action.
  destruct (prompt _ t.2) as [[a rest]|e] eqn:Hp;
    [by apply prompt_sound in Hp as [? _] | by apply prompt_raises in Hp].
Qed.

Lemma move_progress game a t :
  game_inv game → running game = true →
  a ∈ Nim.available_actions (Nim.piles game) →
  ends (lift (Nim.move game (Some a))) t (progress game) end_of_input.
Proof.
  intros [Hwf Ht] Hr%bool_decide_eq_true Ha%Nim.available_actions_legal.
  destruct (Nim.move_legal_Ok game a Hr Ha) as [game' Hm].
  unfold ends, lift. rewrite Hm. split; [split|].
  - by eapply Nim.move_wf.
  - by eapply Nim.move_terminal_inv.
  - by eapply Engine.move_plies_left.
Qed.

Lemma turn_ends (agent : L) human game t :
  game_inv game → running game = true →
  ends (turn agent human game) t (progress game) end_of_input.
Proof.
  intros Hinv Hr. unfold turn.
  eapply (ends_bind _ _ _
            (λ oa, ∃ a, oa = Some a ∧ a ∈ Nim.available_actions (Nim.piles game))).
  - case_decide.
    + eapply ends_bind; [apply get_valid_user_action_ends|].
      intros a t' Ha. apply ends_ret. eauto.
    + eapply ends_bind.
      * apply ends_on_gen, ends_returns, choose_action_returns.
        by apply running_has_action.
      * intros oa t' (a & -> & Ha). apply ends_ret. eauto.
  - intros oa t' (a & -> & Ha). by apply move_progress.
Qed.

Lemma play_ends fuel (agent : L) human t :
  (16 ≤ fuel)%nat →
  endsF (play fuel agent human) t
    (λ r, game_inv r.2 ∧ running r.2 = false) end_of_input.
Proof.
  intros Hfuel. unfold play.
  eapply (endsF_bind _ _ _ (λ _, True)).
  { apply endsF_liftF. destruct human as [human|]; [done|].
    apply ends_on_gen, ends_returns.
    destruct (randint_range 0 1 t.1) as (x & g' & Hx & _); [lia|].
    by exists x, g'. }
  intros seat t1 _. eapply endsF_bind; [|intros game t2 Hg; exact Hg].
  apply (while_loop_ends running (turn agent seat) game_inv plies_left).
  - apply running_plies_left.
  - intros game t2 Hinv Hr. by apply turn_ends.
  - split; [apply Nim.init_wf | apply Nim.init_terminal_inv]; by_decide.
  - vm_compute. lia.
Qed.

(** A game that is over: a seat has won and no object is left. *)
Definition finished game : Prop :=
  (Nim.winner game = Some 0 ∨ Nim.winner game = Some 1) ∧
  all_zero (Nim.piles game).

Lemma play_finished fuel (agent : L) human t :
  (16 ≤ fuel)%nat →
  endsF (play fuel agent human) t (λ r, finished r.2) end_of_input.
Proof.
  intros Hfuel. eapply endsF_mono; [by apply play_ends|].
  intros [seat game] [[(_ & _ & Hw) Ht] Hr%bool_decide_eq_false]. simpl in *.
  destruct (Nim.winner game) as [w|] eqn:Hw'; [|done]. split.
  - destruct Hw as [-> | ->]; auto.
  - apply Ht. by rewrite Hw'.
Qed.

(** The agent is asked without exploration, so a turn draws nothing. *)
Lemma turn_gen (agent : L) human game t game' t' :
  game_inv game → running game = true →
  turn agent human game t = Ok (game', t') → t'.1 = t.1.
Proof.
  intros Hinv Hr Ht. unfold turn in Ht.
  apply bind_Ok_inv in Ht as (oa & t1 & Ha & Hm).
  assert (t1.1 = t.1) as <-; [|unfold lift in Hm; by destruct (Nim.move _ _); simplify_eq].
  case_decide.
  - apply bind_Ok_inv in Ha as (a & t2 & Hp & [= _ <-]).
    unfold get_valid_user_action in Hp.
    by destruct (prompt _ _) as [[? ?]|]; simplify_eq.
  - apply bind_Ok_inv in Ha as (oa' & t2 & [Hc _]%on_gen_Ok_inv & Hret).
    destruct (choose_action_greedy_gen agent (Nim.piles game) t.1)
      as [a Hg]; [by apply running_has_action|].
    rewrite Hg in Hc. injection Hc as <- Ht2. injection Hret as _ <-. done.
Qed.

End laws.

(** ** Main theorems of the component *)

Section main.
Context `{HG : RandomGen G} {L : Type} `{HA : !Agent G L}.
Context `{HL : !AgentLaws G L}.

(** C23: The prompt returns a legal action or the input ends. Whatever
    is typed, [get_valid_user_action] returns an action of
    [available_actions(piles)], typed after lines that were all
    rejected, and leaves the generator alone; its only exception is
    [EOFError] at the end of the input: neither an illegal action nor
    text that is no integer gets through or stops the game. *)
Theorem get_valid_user_action_legal (piles : list Z) (t : console G) :
  match get_valid_user_action piles t with
  | Ok (a, t') =>
    a ∈ Nim.available_actions piles ∧ t'.1 = t.1 ∧
    ∃ skipped, rejected (Nim.available_actions piles) skipped ∧
               t.2 = skipped ++ Int a.1 :: Int a.2 :: t'.2
  | Raise e => e = EOFError
  end.
Proof.
  unfold get_valid_user_action.
  destruct (prompt _ t.2) as [[a rest]|e] eqn:Hp.
  - apply prompt_sound in Hp as [? ?]. by split_and!.
  - by apply prompt_raises in Hp.
Qed.

(** C24: The prompt asks again. After any number of rejected entries
    (text in place of a number, or a pair that is no legal action) a
    legal action that is typed is returned, and the lines after it are
    left to be read. *)
Theorem get_valid_user_action_reprompts (piles : list Z) skipped pile count
    rest (g : G) :
  rejected (Nim.available_actions piles) skipped →
  (pile, count) ∈ Nim.available_actions piles →
  get_valid_user_action piles (g, skipped ++ Int pile :: Int count :: rest)
  = Ok ((pile, count), (g, rest)).
Proof.
  intros Hs Ha. unfold get_valid_user_action. simpl.
  by rewrite prompt_complete.
Qed.

(** C22: A game at the console ends with a winner or with the end of
    the input. With an agent that satisfies the laws of the interface,
    [play] leaves its loop within 16 turns whatever is typed: it
    returns a finished game, all piles empty and seat 0 or 1 the
    winner, or it raises [EOFError]; no move is ever refused. *)
Theorem play_ends_or_input_ends fuel (agent : L) human (t : console G) :
  (16 ≤ fuel)%nat →
  match play fuel agent human t with
  | Some (Ok (r, _)) =>
    (Nim.winner r.2 = Some 0 ∨ Nim.winner r.2 = Some 1) ∧
    all_zero (Nim.piles r.2)
  | Some (Raise e) => e = EOFError
  | None => False
  end.
Proof. apply play_finished. Qed.

(** C26: The agent does not explore at the console. When the seat of
    the person is given, [play] leaves the generator as it found it:
    the agent is asked with [epsilon=False] and draws nothing. *)
Theorem play_draws_nothing fuel (agent : L) (human : Z) (t : console G) r t' :
  play fuel agent (Some human) t = Some (Ok (r, t')) → t'.1 = t.1.
Proof.
  unfold play. intros (seat & t1 & [= <- <-] & Hloop)%bindF_Ok_inv.
  apply bindF_Ok_inv in Hloop as (game & t2 & Hloop & [= <- <-]).
  apply (while_loop_inv _ _ (λ game t0, game_inv game ∧ t0.1 = t.1)) in Hloop
    as [[_ ?] _]; [done| |].
  - intros game1 t3 game2 t4 [Hinv <-] Hr Ht. split.
    + pose proof (turn_ends agent human game1 t3 Hinv Hr) as He.
      unfold ends in He. rewrite Ht in He. apply He.
    + by eapply turn_gen.
  - split; [|done].
    split; [apply Nim.init_wf | apply Nim.init_terminal_inv]; by_decide.
Qed.

End main.

End Interactive.
