(* ===== verification/Main.v ===== *)
(** Main: src/main.py, the program that ties the parts together: it
    trains one learner of each class by self-play, plays them against
    each other and lets a person play each at the console. The theorems
    of the other files, proved against the interface, are applied here
    to the two classes on recorded runs. *)

From Stdlib Require Import QArith Lqa.
From stdpp Require Import base numbers list gmap sets.
From S2P Require Import Prelude Runtime GameState ValueTable Learner.
From S2P Require Import OffPolicy OnPolicy EpisodeRunner Trace Evaluation.
From S2P Require Import Interactive Replay Credit.

Set Warnings "-clear-no-such-hyp".
#[local] Open Scope py_scope.

Module Main.

Section main.
Context `{HG : RandomGen G} `{HO : !SetOrder action}.

(** The first two statements of [main]: [train(SARSA(), n)] and
    [train(QLearning(), n)], each from a fresh table. *)
Definition train_agents (fuel : nat) (n_episodes : Z)
    : MF G (SARSA.t * QLearning.t) :=
  let+ sarsa_agent := Engine.train fuel SARSA.default n_episodes in
  let+ q_learning_agent := Engine.train fuel QLearning.default n_episodes in
  retF (sarsa_agent, q_learning_agent).

(** What [main] leaves behind: the locals of the evaluation, which
    hold the two trained learners, and the two games at the console
    with the seat of the person in each. *)
Record outcome : Type := Outcome {
  evaluation : Evaluation.series SARSA.t QLearning.t;
  sarsa_game : Z * Nim.game;
  q_learning_game : Z * Nim.game
}.

(** [main()]: 10000 episodes of training for each class, 100
    evaluation games, and a game at the console against each. *)
Definition main (fuel : nat) : MF (Interactive.console G) outcome :=
  let+ '(sarsa_agent, q_learning_agent) := on_genF (train_agents fuel 10000) in
  let+ evaluation :=
    on_genF (Evaluation.play_ai_vs_ai fuel sarsa_agent q_learning_agent 100) in
  let+ sarsa_game :=
    Interactive.play fuel (Evaluation.agent1 evaluation) None in
  let+ q_learning_game :=
    Interactive.play fuel (Evaluation.agent2 evaluation) None in
  retF (Outcome evaluation sarsa_game q_learning_game).

(** A fresh learner of either class is in good standing. *)
Lemma qlearning_default_ok : agent_ok QLearning.default.
Proof. split; [simpl; lra | apply QTable.inv_empty]. Qed.

Lemma sarsa_default_ok : agent_ok SARSA.default.
Proof. split; [simpl; lra | apply QTable.inv_empty]. Qed.

(** The state of the program when [main] returns. *)
Definition main_ok (o : outcome) : Prop :=
  agent_ok (Evaluation.agent1 (evaluation o)) ∧
  agent_ok (Evaluation.agent2 (evaluation o)) ∧
  length <$> Evaluation.win_progress (evaluation o) = [100; 100]%nat ∧
  Interactive.finished (sarsa_game o).2 ∧
  Interactive.finished (q_learning_game o).2.

Lemma train_agents_returns fuel n_episodes (g : G) :
  (16 ≤ fuel)%nat →
  returnsF (train_agents fuel n_episodes) g
    (λ r, agent_ok r.1 ∧ agent_ok r.2).
Proof.
  intros Hfuel. unfold train_agents.
  eapply returnsF_bind;
    [by apply Engine.train_returns, sarsa_default_ok|]. intros a1 g1 H1.
  eapply returnsF_bind;
    [by apply Engine.train_returns, qlearning_default_ok|]. intros a2 g2 H2.
  by apply returnsF_ret.
Qed.

Lemma evaluation_returns fuel (a1 : SARSA.t) (a2 : QLearning.t) (g : G) :
  (16 ≤ fuel)%nat → agent_ok a1 → agent_ok a2 →
  returnsF (Evaluation.play_ai_vs_ai fuel a1 a2 100) g
    (λ s, agent_ok (Evaluation.agent1 s) ∧ agent_ok (Evaluation.agent2 s) ∧
          length <$> Evaluation.win_progress s = [100; 100]%nat).
Proof.
  intros Hfuel H1 H2.
  destruct (Evaluation.play_ai_vs_ai_returns fuel a1 a2 100 g Hfuel)
    as [(s & g' & Hplay & _ & _ & Hp & Ha1 & Ha2) Hlen].
  exists s, g'. split; [done|]. rewrite Ha1, Ha2, Hp. split_and!; [done..|].
  cbn [fmap list_fmap]. by rewrite !Evaluation.length_cumulative, Hlen.
Qed.

(** C16: The program ends well or at the end of the input. [main]
    trains both learners, plays the 100 evaluation games and the two
    games at the console without running out of fuel; it returns with
    both learners in good standing (learning rate in [0, 1], estimates
    in [-1, 1]), 100 entries in each win history and both console games
    finished with a winner, or it raises [EOFError] because the input
    ended during a console game. No other exception can leave it. *)
Theorem main_ends_well fuel (t : Interactive.console G) :
  (16 ≤ fuel)%nat →
  match main fuel t with
  | Some (Ok (o, _)) => main_ok o
  | Some (Raise e) => e = EOFError
  | None => False
  end.
Proof.
  intros Hfuel.
  change (endsF (main fuel) t main_ok Interactive.end_of_input). unfold main.
  eapply endsF_bind; [by apply endsF_on_genF, train_agents_returns|].
  intros [a1 a2] t1 [H1 H2].
  eapply endsF_bind; [by apply endsF_on_genF, evaluation_returns|].
  intros s t2 (Hs1 & Hs2 & Hp).
  eapply endsF_bind; [by apply Interactive.play_finished|]. intros r1 t3 Hr1.
  eapply endsF_bind; [by apply Interactive.play_finished|]. intros r2 t4 Hr2.
  by apply endsF_ret.
Qed.

End main.

(** ** Witnesses of the runner's theorems on the two classes *)

#[local] Existing Instance elements_order.

Lemma run_game_episode_terminates_witness :
  ∃ w who' g',
    Engine.run_game_episode 16 SARSA.default (Some QLearning.default) true
      ([50; 3; 500]%nat : tape) = Some (Ok ((Some w, who'), g')) ∧
    (w = 0 ∨ w = 1)%Z.
Proof.
  apply (Engine.run_game_episode_terminates 16 SARSA.default
           (Some QLearning.default) true ([50; 3; 500]%nat : tape)).
  lia.
Defined.

Lemma run_game_episode_from_terminates_witness :
  ∃ w who' g',
    Engine.run_game_episode_from (L2:=QLearning.t) [1; 1]%Z 2 QLearning.default
      None true ([] : tape) = Some (Ok ((Some w, who'), g')) ∧
    (w = 0 ∨ w = 1)%Z.
Proof.
  apply (Engine.run_game_episode_from_terminates (L2:=QLearning.t) [1; 1]%Z 2
           QLearning.default None true ([] : tape)); [by_decide.. | vm_compute; lia].
Defined.

(** A recorded run: an evaluation game and a training game between the
    two fresh learners on a tape, with their returned values. *)
Definition demo_tape : tape := [50; 3; 500; 20; 7; 900]%nat.

Definition value_of {A} (d : A) (o : option (result (A * tape))) : A :=
  match o with Some (Ok (a, _)) => a | _ => d end.

Definition state_of {A} (o : option (result (A * tape))) : tape :=
  match o with Some (Ok (_, g)) => g | _ => [] end.

Definition demo_game (training : bool) :=
  Engine.run_game_episode 16 SARSA.default (Some QLearning.default) training
    demo_tape.

Definition demo_result (training : bool) :=
  value_of (None, Engine.Players SARSA.default (Some QLearning.default))
    (demo_game training).

Lemma evaluation_does_not_learn_witness :
  (demo_result false).2 = Engine.Players SARSA.default (Some QLearning.default).
Proof.
  apply (Engine.evaluation_does_not_learn Nim.default_initial 16 SARSA.default
           (Some QLearning.default) demo_tape (demo_result false)
           (state_of (demo_game false))).
  reflexivity.
Defined.

Lemma episode_keeps_estimates_bounded_witness :
  QTable.bounded (table (Engine.agent (demo_result true).2)) ∧
  from_option (λ opp, QTable.bounded (table opp)) True
    (Engine.opponent (demo_result true).2).
Proof.
  apply (Engine.episode_keeps_estimates_bounded 16 SARSA.default
           (Some QLearning.default) demo_tape (demo_result true)
           (state_of (demo_game true)));
    [lia | apply sarsa_default_ok | apply qlearning_default_ok | reflexivity].
Defined.

Lemma train_keeps_estimates_bounded_witness :
  ∃ agent' g',
    Engine.train 16 QLearning.default 3 demo_tape = Some (Ok (agent', g')) ∧
    (0 <= rate agent' <= 1)%Q ∧ QTable.bounded (table agent') ∧
    QTable.inv (table agent').
Proof.
  apply (Engine.train_keeps_estimates_bounded 16 QLearning.default 3 demo_tape);
    [lia | apply qlearning_default_ok].
Defined.

(** A logged run: a game between the two fresh learners from [2, 1]. *)
Definition logged_game (training : bool) :=
  Engine.run_game_episode_from [2; 1]%Z 3 (Trace SARSA.default)
    (Some (Trace QLearning.default)) training (demo_tape, []).

Definition logged_result (training : bool) :=
  match logged_game training with
  | Some (Ok r) => r
  | _ => ((None, Engine.Players (Trace SARSA.default) None), ([], []))
  end.

Lemma episode_follows_schedule_witness :
  ∃ acts final who' t',
    Engine.run_game_episode 16 (Trace SARSA.default)
      (Trace <$> Some QLearning.default) false (demo_tape, [])
    = Some (Ok ((Nim.winner final, who'), t')) ∧
    Nim.moves (Nim.init Nim.default_initial) acts = Ok final ∧
    is_Some (Nim.winner final) ∧
    t'.2 = Spec.expected false (Spec.start Nim.default_initial) acts.
Proof.
  apply (episode_follows_schedule 16 SARSA.default (Some QLearning.default)
           false demo_tape).
  lia.
Defined.

Lemma every_ply_credited_once_witness :
  ∃ acts final, Nim.moves (Nim.init [2; 1]%Z) acts = Ok final ∧
    Nim.winner final = (logged_result true).1.1 ∧
    Spec.updates (logged_result true).2.2
    ≡ₚ Spec.finalised (Spec.start [2; 1]%Z) acts.
Proof.
  apply (every_ply_credited_once [2; 1]%Z 3 (Trace SARSA.default)
           (Some (Trace QLearning.default)) demo_tape
           (logged_result true).1 (logged_result true).2).
  reflexivity.
Defined.

Lemma evaluation_still_explores_witness :
  Forall (λ e, ∃ s a, e = Chose s true (Some a)) (logged_result false).2.2.
Proof.
  apply (evaluation_still_explores [2; 1]%Z 3 (Trace SARSA.default)
           (Some (Trace QLearning.default)) demo_tape
           (logged_result false).1 (logged_result false).2).
  reflexivity.
Defined.

(** A recorded evaluation: three games between the fresh learners. *)
Definition demo_series :=
  match Evaluation.play_ai_vs_ai 16 SARSA.default QLearning.default 3
          demo_tape with
  | Some (Ok r) => r
  | _ => (Evaluation.Series SARSA.default QLearning.default [] [], [])
  end.

Lemma play_ai_vs_ai_counts_witness :
  let winners :=
    Evaluation.winners_of 16 SARSA.default QLearning.default 3 demo_tape in
  ∃ s g',
    Evaluation.play_ai_vs_ai 16 SARSA.default QLearning.default 3 demo_tape
    = Some (Ok (s, g')) ∧
    length winners = 3%nat ∧ Evaluation.seats winners ∧
    Evaluation.wins s
    = [Evaluation.count 0 winners; Evaluation.count 1 winners] ∧
    Evaluation.win_progress s
    = [Evaluation.cumulative 0 winners; Evaluation.cumulative 1 winners] ∧
    Evaluation.agent1 s = SARSA.default ∧
    Evaluation.agent2 s = QLearning.default.
Proof.
  apply (Evaluation.play_ai_vs_ai_counts 16 SARSA.default QLearning.default
           3 demo_tape).
  lia.
Defined.

Lemma win_progress_cumulative_witness :
  ∃ h0 h1, Evaluation.win_progress demo_series.1 = [h0; h1] ∧
    length h0 = 3%nat ∧ length h1 = 3%nat ∧
    Evaluation.steps_by_one h0 ∧ Evaluation.steps_by_one h1 ∧
    ∀ k x y, h0 !! k = Some x → h1 !! k = Some y →
             (x + y = Z.of_nat k + 1)%Z.
Proof.
  apply (Evaluation.win_progress_cumulative 16 SARSA.default QLearning.default
           3 demo_tape demo_series.1 demo_series.2); [lia | reflexivity].
Defined.

(** A recorded training game of [QLearning] against itself from
    [1, 1]. *)
Definition one_one_game :=
  match Engine.run_game_episode_from (L2:=QLearning.t) [1; 1]%Z 2
          QLearning.default None true demo_tape with
  | Some (Ok r) => r
  | _ => ((None, Engine.Players QLearning.default None), [])
  end.

(** A recorded training game of [SARSA] against itself from [1, 3]. *)
Definition sarsa_game_result :=
  match Engine.run_game_episode_from (L2:=SARSA.t) [1; 3]%Z 4 SARSA.default
          None true demo_tape with
  | Some (Ok r) => r
  | _ => ((None, Engine.Players SARSA.default None), [])
  end.

Lemma training_episode_is_replay_witness :
  ∃ acts final, Nim.moves (Nim.init [1; 3]%Z) acts = Ok final ∧
    Nim.winner final = sarsa_game_result.1.1 ∧
    replay SARSA.default (Spec.expected true (Spec.start [1; 3]%Z) acts)
      demo_tape
    = Ok (Engine.agent sarsa_game_result.1.2, sarsa_game_result.2).
Proof.
  apply (training_episode_is_replay (L2:=SARSA.t) [1; 3]%Z 4 SARSA.default
           demo_tape sarsa_game_result.1 sarsa_game_result.2).
  reflexivity.
Defined.

Lemma one_one_opening_loses_witness :
  one_one_game.1.1 = Some 1%Z ∧
  ∃ a b, [a; b] ∈ one_one_games ∧
    (estimate (Engine.agent one_one_game.1.2) [1; 1]%Z a + 1
     == (1 - rate QLearning.default)
        * (estimate QLearning.default [1; 1]%Z a + 1))%Q ∧
    (estimate (Engine.agent one_one_game.1.2) (Spec.after [1; 1]%Z a) b - 1
     == (1 - rate QLearning.default)
        * (estimate QLearning.default (Spec.after [1; 1]%Z a) b - 1))%Q ∧
    (estimate (Engine.agent one_one_game.1.2) [1; 1]%Z b
     == estimate QLearning.default [1; 1]%Z b)%Q.
Proof.
  apply (one_one_opening_loses 2 QLearning.default demo_tape one_one_game.1
           one_one_game.2); [reflexivity | by intros state].
Defined.

(** Three episodes of training of the on-policy learner from [1, 1]. *)
Definition one_one_training :=
  match Engine.train_from [1; 1]%Z 2 SARSA.default 3 demo_tape with
  | Some (Ok r) => r
  | _ => (SARSA.default, [])
  end.

Lemma one_one_training_converges_witness :
  rate one_one_training.1 = rate SARSA.default ∧
  (distance one_one_training.1
   == (1 - rate SARSA.default) ^ 3 * distance SARSA.default)%Q ∧
  (table SARSA.default = QTable.empty →
   distance one_one_training.1 == (1 - rate SARSA.default) ^ 3)%Q.
Proof.
  apply (one_one_training_converges 2 SARSA.default 3 demo_tape
           one_one_training.1 one_one_training.2);
    [lia | by intros state | reflexivity].
Defined.

Lemma last_moves_credited_witness :
  ∃ played a final,
    Nim.moves (Nim.init [1; 3]%Z) (played ++ [a]) = Ok final ∧
    Nim.winner final = sarsa_game_result.1.1 ∧
    rate (Engine.agent sarsa_game_result.1.2) = rate SARSA.default ∧
    (let s := foldl Spec.after [1; 3]%Z played in
     estimate (Engine.agent sarsa_game_result.1.2) s a - 1
     == (1 - rate SARSA.default) * (estimate SARSA.default s a - 1))%Q ∧
    ∀ before b, played = before ++ [b] →
      let s := foldl Spec.after [1; 3]%Z before in
      (estimate (Engine.agent sarsa_game_result.1.2) s b + 1
       == (1 - rate SARSA.default) * (estimate SARSA.default s b + 1))%Q.
Proof.
  apply (last_moves_credited [1; 3]%Z 4 SARSA.default demo_tape
           sarsa_game_result.1 sarsa_game_result.2);
    [reflexivity | by intros state].
Defined.

(** Three episodes of training of the off-policy learner from [1, 3]. *)
Definition short_training :=
  match Engine.train_from [1; 3]%Z 4 QLearning.default 3 demo_tape with
  | Some (Ok r) => r
  | _ => (QLearning.default, [])
  end.

Lemma winning_move_never_unlearnt_witness :
  rate short_training.1 = rate QLearning.default ∧
  (estimate QLearning.default [0; 3]%Z (1, 3)%Z
   <= estimate short_training.1 [0; 3]%Z (1, 3)%Z <= 1)%Q.
Proof.
  apply (winning_move_never_unlearnt [1; 3]%Z 4 QLearning.default 3 demo_tape
           short_training.1 short_training.2 [0; 3]%Z (1, 3)%Z);
    [simpl; lra | by intros state | by_decide | by vm_compute | reflexivity].
Defined.

(** Lines typed at the console: text, an illegal action, then a legal
    one. *)
Definition demo_lines : list Interactive.line :=
  [Interactive.Text; Interactive.Int 0; Interactive.Int 2;
   Interactive.Int 3; Interactive.Int 7; Interactive.Int 1].

Lemma get_valid_user_action_reprompts_witness :
  Interactive.get_valid_user_action [1; 3; 5; 7]%Z (demo_tape, demo_lines)
  = Ok ((3, 7)%Z, (demo_tape, [Interactive.Int 1])).
Proof.
  apply (Interactive.get_valid_user_action_reprompts [1; 3; 5; 7]%Z
           [Interactive.Text; Interactive.Int 0; Interactive.Int 2] 3 7
           [Interactive.Int 1] demo_tape).
  - repeat constructor. by_decide.
  - by_decide.
Defined.

Lemma play_ends_or_input_ends_witness :
  match Interactive.play 16 QLearning.default None (demo_tape, demo_lines) with
  | Some (Ok (r, _)) =>
    (Nim.winner r.2 = Some 0 ∨ Nim.winner r.2 = Some 1)%Z ∧
    all_zero (Nim.piles r.2)
  | Some (Raise e) => e = EOFError
  | None => False
  end.
Proof.
  apply (Interactive.play_ends_or_input_ends 16 QLearning.default None
           (demo_tape, demo_lines)).
  lia.
Defined.

(** A whole game at the console, the person in seat 1. *)
Definition demo_play :=
  match Interactive.play 16 SARSA.default (Some 1%Z)
          (demo_tape, [Interactive.Int 3; Interactive.Int 7;
                       Interactive.Int 2; Interactive.Int 5;
                       Interactive.Int 1; Interactive.Int 3]) with
  | Some (Ok r) => r
  | _ => ((0%Z, Nim.init []), ([], []))
  end.

Lemma play_draws_nothing_witness : demo_play.2.1 = demo_tape.
Proof.
  apply (Interactive.play_draws_nothing 16 SARSA.default 1
           (demo_tape, [Interactive.Int 3; Interactive.Int 7;
                        Interactive.Int 2; Interactive.Int 5;
                        Interactive.Int 1; Interactive.Int 3])
           demo_play.1 demo_play.2).
  reflexivity.
Defined.

Lemma main_ends_well_witness :
  match Main.main 16 (demo_tape, demo_lines) with
  | Some (Ok (o, _)) => Main.main_ok o
  | Some (Raise e) => e = EOFError
  | None => False
  end.
Proof. apply (Main.main_ends_well 16 (demo_tape, demo_lines)). lia. Defined.

End Main.
